(** * Motion-based German learning app: gesture pipeline and persistence

    A shallow embedding of

    - the gesture smoothing and frame dispatch code of the camera feed
      component ([CameraFeed]),
    - the debounced lesson-progress storage ([ProgressStorage]),
    - the settings panel's storage helpers ([SettingsPanel]),

    together with the properties their design document states for them.

    JavaScript numbers are IEEE-754 binary64 values; they are represented by
    [spec_float] at precision 53 and maximal exponent 1024, so comparisons and
    arithmetic on them are the floating-point ones. *)

From Stdlib Require Import ZArith List String Ascii Bool Lia.
From Stdlib Require Import SpecFloat.
From stdpp Require Import base option list gmap strings pretty.

Local Open Scope nat_scope.

(** ** JavaScript numbers *)

Module Js.

Definition prec : Z := 53.
Definition emax : Z := 1024.

(** A Number value. *)
Definition number := spec_float.

#[export] Instance number_eq_dec : EqDecision number.
Proof. solve_decision. Defined.

Definition NaN : number := S754_nan.
Definition Infinity : number := S754_infinity false.

(** The Number value of an integer literal. *)
Definition of_Z (z : Z) : number := binary_normalize prec emax z 0 false.

(** The Number value of the decimal [m * 10 ^ e10], for [m >= 0], rounded
    to nearest, ties to even. *)
Definition of_decimal (negative : bool) (m e10 : Z) : number :=
  match m with
  | Z0 => S754_zero negative
  | Zpos p =>
      match e10 with
      | Zneg k =>
          SFdiv prec emax (S754_finite negative p 0)
                (S754_finite false (Pos.pow 10 k) 0)
      | Z0 => binary_round prec emax negative p 0
      | Zpos k => binary_round prec emax negative (p * Pos.pow 10 k) 0
      end
  | Zneg _ => S754_nan
  end.

Definition sub (x y : number) : number := SFsub prec emax x y.
Definition div (x y : number) : number := SFdiv prec emax x y.

(** [x >= y] and [x <= y]; both are false when an operand is NaN. *)
Definition ge (x y : number) : bool := SFleb y x.
Definition le (x y : number) : bool := SFleb x y.

Definition isNaN (x : number) : bool :=
  match x with S754_nan => true | _ => false end.

Definition isFinite (x : number) : bool :=
  match x with S754_zero _ | S754_finite _ _ _ => true | _ => false end.

(** *** Reading numbers from strings *)

Definition is_digit (c : ascii) : bool :=
  let n := nat_of_ascii c in (48 <=? n) && (n <=? 57).

Definition digit_value (c : ascii) : Z := Z.of_nat (nat_of_ascii c) - 48.

(** The white space and line terminator characters that are a single
    byte: TAB, LF, VT, FF, CR and SP. *)
Definition is_white_space (c : ascii) : bool :=
  let n := nat_of_ascii c in
  (n =? 9) || (n =? 10) || (n =? 11) || (n =? 12) || (n =? 13) || (n =? 32).

(** The one of two bytes, U+00A0. *)
Definition is_white_space2 (c1 c2 : ascii) : bool :=
  (nat_of_ascii c1 =? 194) && (nat_of_ascii c2 =? 160).

(** Those of three bytes: U+1680, U+2000 to U+200A, U+2028, U+2029,
    U+202F, U+205F, U+3000 and U+FEFF. *)
Definition is_white_space3 (c1 c2 c3 : ascii) : bool :=
  let n1 := nat_of_ascii c1 in
  let n2 := nat_of_ascii c2 in
  let n3 := nat_of_ascii c3 in
  ((n1 =? 225) && (n2 =? 154) && (n3 =? 128))
  || ((n1 =? 226) && (n2 =? 128)
      && (((128 <=? n3) && (n3 <=? 138)) || (n3 =? 168) || (n3 =? 169)
          || (n3 =? 175)))
  || ((n1 =? 226) && (n2 =? 129) && (n3 =? 159))
  || ((n1 =? 227) && (n2 =? 128) && (n3 =? 128))
  || ((n1 =? 239) && (n2 =? 187) && (n3 =? 191)).

(** The string without the white space and line terminators it starts
    with. *)
Fixpoint trim_start (s : string) : string :=
  match s with
  | String c1 rest1 =>
      if is_white_space c1 then trim_start rest1
      else
        match rest1 with
        | String c2 rest2 =>
            if is_white_space2 c1 c2 then trim_start rest2
            else
              match rest2 with
              | String c3 rest3 =>
                  if is_white_space3 c1 c2 c3 then trim_start rest3 else s
              | EmptyString => s
              end
        | EmptyString => s
        end
  | EmptyString => s
  end.

(** Reads a run of decimal digits on top of the value [acc]; returns the
    value, the number of digits read and the rest of the string. *)
Fixpoint scan_digits (acc : Z) (count : nat) (s : string) : Z * nat * string :=
  match s with
  | String c rest =>
      if is_digit c then scan_digits (10 * acc + digit_value c) (S count) rest
      else (acc, count, s)
  | EmptyString => (acc, count, s)
  end.

Definition scan_sign (s : string) : bool * string :=
  match s with
  | String "+" rest => (false, rest)
  | String "-" rest => (true, rest)
  | _ => (false, s)
  end.

(** An exponent part, when the string starts with a complete one. *)
Definition scan_exponent (s : string) : Z * string :=
  match s with
  | String c rest =>
      if (Ascii.eqb c "e" || Ascii.eqb c "E")%bool then
        let '(negative, rest1) := scan_sign rest in
        let '(e, count, rest2) := scan_digits 0 0 rest1 in
        if count =? 0 then (0%Z, s)
        else ((if negative then - e else e)%Z, rest2)
      else (0%Z, s)
  | EmptyString => (0%Z, s)
  end.

Fixpoint starts_with (p s : string) : option string :=
  match p, s with
  | EmptyString, _ => Some s
  | String a p', String b s' => if Ascii.eqb a b then starts_with p' s' else None
  | String _ _, EmptyString => None
  end.

(** The global function [parseFloat]: the longest prefix of the trimmed
    string that is a decimal literal, or NaN when there is none. *)
Definition parseFloat (s : string) : number :=
  let '(negative, s1) := scan_sign (trim_start s) in
  match starts_with "Infinity" s1 with
  | Some _ => S754_infinity negative
  | None =>
      let '(m1, n1, s2) := scan_digits 0 0 s1 in
      let '(m2, n2, s3) :=
        match s2 with
        | String "." rest => scan_digits m1 0 rest
        | _ => (m1, 0, s2)
        end in
      if (n1 =? 0) && (n2 =? 0) then NaN
      else
        let '(e, _) := scan_exponent s3 in
        of_decimal negative m2 (e - Z.of_nat n2)
  end.

(** *** Writing numbers *)

(** The decimal digits of a natural number. *)
Definition digits_of (n : N) : string := pretty n.

Fixpoint zeros (n : nat) : string :=
  match n with O => EmptyString | S n' => String "0" (zeros n') end.

Fixpoint take_string (n : nat) (s : string) : string :=
  match n, s with
  | S n', String c rest => String c (take_string n' rest)
  | _, _ => EmptyString
  end.

Fixpoint drop_string (n : nat) (s : string) : string :=
  match n, s with
  | S n', String _ rest => drop_string n' rest
  | _, _ => s
  end.

(** A positive finite number [m * 2 ^ e] as a fraction. *)
Definition fraction_of (m : positive) (e : Z) : Z * Z :=
  match e with
  | Zneg k => (Zpos m, Zpos (Pos.pow 2 k))
  | Z0 => (Zpos m, 1%Z)
  | Zpos k => (Zpos (m * Pos.pow 2 k), 1%Z)
  end.

(** The least [n] with [num / den < 10 ^ n], searched upwards from
    [lo]. *)
Fixpoint magnitude_from (fuel : nat) (lo : Z) (num den : Z) : Z :=
  match fuel with
  | O => lo
  | S fuel' =>
      let below :=
        match lo with
        | Zneg k => (num * Z.pow 10 (Zpos k) <? den)%Z
        | _ => (num <? den * Z.pow 10 lo)%Z
        end in
      if below then lo else magnitude_from fuel' (lo + 1)%Z num den
  end.

(** A lower bound of that [n] for [m * 2 ^ e], at most two below it: the
    binary logarithm of the number, rounded down, times an approximation of
    the decimal logarithm of 2. *)
Definition magnitude_estimate (m : positive) (e : Z) : Z :=
  ((Z.log2 (Zpos m) + e) * 30103 / 100000)%Z.

(** [num / den * 10 ^ (- q)], rounded down. *)
Definition scaled_floor (num den q : Z) : Z :=
  match q with
  | Zneg k => (num * Z.pow 10 (Zpos k) / den)%Z
  | _ => (num / (den * Z.pow 10 q))%Z
  end.

(** Twice the distance of [s * 10 ^ q] from [num / den], scaled by a
    factor common to the candidates of one search step. *)
Definition distance (num den s q : Z) : Z :=
  match q with
  | Zneg k => Z.abs (s * den - num * Z.pow 10 (Zpos k))
  | _ => Z.abs (s * den * Z.pow 10 q - num)
  end.

(** The digits [s], their number [k] and the exponent [n] of the shortest
    decimal that reads back as [x], as Number::toString chooses them. *)
Fixpoint shortest_digits (fuel : nat) (k : Z) (x : number) (num den n : Z)
  : Z * Z * Z :=
  let q := (n - k)%Z in
  let lo := scaled_floor num den q in
  let hi := (lo + 1)%Z in
  let ok_lo := (Z.pow 10 (k - 1) <=? lo)%Z && SFeqb (of_decimal false lo q) x in
  let ok_hi := SFeqb (of_decimal false hi q) x in
  let pick_hi :=
    if (hi =? Z.pow 10 k)%Z then (Z.pow 10 (k - 1), k, n + 1)%Z else (hi, k, n) in
  match fuel with
  | O => (lo, k, n)
  | S fuel' =>
      if ok_lo && ok_hi then
        if (distance num den lo q <=? distance num den hi q)%Z
        then (lo, k, n) else pick_hi
      else if ok_lo then (lo, k, n)
      else if ok_hi then pick_hi
      else shortest_digits fuel' (k + 1)%Z x num den n
  end.

(** Number::toString for a positive finite number, from its digits. *)
Definition render_digits (s k n : Z) : string :=
  let d := digits_of (Z.to_N s) in
  let e := (n - 1)%Z in
  let exponent :=
    String "e" (String (if (e <? 0)%Z then "-" else "+")%char
                       (digits_of (Z.to_N (Z.abs e)))) in
  if (k <=? n)%Z && (n <=? 21)%Z then d +:+ zeros (Z.to_nat (n - k))
  else if (0 <? n)%Z && (n <=? 21)%Z then
    take_string (Z.to_nat n) d +:+ "." +:+ drop_string (Z.to_nat n) d
  else if (-6 <? n)%Z && (n <=? 0)%Z then "0." +:+ zeros (Z.to_nat (- n)) +:+ d
  else if (k =? 1)%Z then d +:+ exponent
  else take_string 1 d +:+ "." +:+ drop_string 1 d +:+ exponent.

(** Number::toString, radix 10. *)
Definition Number_toString (x : number) : string :=
  match x with
  | S754_nan => "NaN"
  | S754_zero _ => "0"
  | S754_infinity negative => if negative then "-Infinity" else "Infinity"
  | S754_finite negative m e =>
      let '(num, den) := fraction_of m e in
      let n := magnitude_from 8 (magnitude_estimate m e) num den in
      let '(s, k, n') := shortest_digits 17 1 (S754_finite false m e) num den n in
      (if negative then "-" else EmptyString) +:+ render_digits s k n'
  end.

(** *** Values and JSON *)

(** The values JSON text denotes, and [undefined].  An object is the list
    of its own properties in creation order.  Strings are byte strings. *)
#[warnings="-register-all"]
Inductive JsValue :=
| JUndefined
| JNull
| JBool (b : bool)
| JNumber (x : number)
| JString (s : string)
| JArray (elements : list JsValue)
| JObject (properties : list (string * JsValue)).

(** The [typeof] operator. *)
Definition typeof (v : JsValue) : string :=
  match v with
  | JUndefined => "undefined"
  | JNull => "object"
  | JBool _ => "boolean"
  | JNumber _ => "number"
  | JString _ => "string"
  | JArray _ => "object"
  | JObject _ => "object"
  end.

Fixpoint own_property (name : string) (properties : list (string * JsValue))
  : option JsValue :=
  match properties with
  | [] => None
  | (k, v) :: rest => if String.eqb k name then Some v else own_property name rest
  end.

(** [CreateDataProperty]: an existing key keeps its place and takes the
    new value. *)
Fixpoint define_property (name : string) (v : JsValue)
    (properties : list (string * JsValue)) : list (string * JsValue) :=
  match properties with
  | [] => [(name, v)]
  | (k, w) :: rest =>
      if String.eqb k name then (k, v) :: rest
      else (k, w) :: define_property name v rest
  end.

Definition hex_value (c : ascii) : option N :=
  let n := N_of_ascii c in
  if (48 <=? n)%N && (n <=? 57)%N then Some (n - 48)%N
  else if (65 <=? n)%N && (n <=? 70)%N then Some (n - 55)%N
  else if (97 <=? n)%N && (n <=? 102)%N then Some (n - 87)%N
  else None.

(** A UTF-16 code unit as bytes, in the manner of UTF-8. *)
Definition code_unit_bytes (u : N) : string :=
  if (u <? 128)%N then String (ascii_of_N u) EmptyString
  else if (u <? 2048)%N then
    String (ascii_of_N (192 + u / 64)) (String (ascii_of_N (128 + u mod 64)) EmptyString)
  else
    String (ascii_of_N (224 + u / 4096))
      (String (ascii_of_N (128 + (u / 64) mod 64))
         (String (ascii_of_N (128 + u mod 64)) EmptyString)).

(** The characters of a JSON string after the opening quote. *)
Fixpoint scan_string (s : string) : option (string * string) :=
  match s with
  | EmptyString => None
  | String "034" rest => Some (EmptyString, rest)
  | String "\" (String c rest) =>
      let continue (decoded : string) (rest' : string) :=
        match scan_string rest' with
        | Some (str, rest'') => Some (decoded +:+ str, rest'')
        | None => None
        end in
      let single (n : nat) := continue (String (ascii_of_nat n) EmptyString) rest in
      if Ascii.eqb c "034" then single 34
      else if Ascii.eqb c "\" then single 92
      else if Ascii.eqb c "/" then single 47
      else if Ascii.eqb c "b" then single 8
      else if Ascii.eqb c "f" then single 12
      else if Ascii.eqb c "n" then single 10
      else if Ascii.eqb c "r" then single 13
      else if Ascii.eqb c "t" then single 9
      else if Ascii.eqb c "u" then
        match rest with
        | String h1 (String h2 (String h3 (String h4 rest'))) =>
            match hex_value h1, hex_value h2, hex_value h3, hex_value h4 with
            | Some a, Some b, Some c', Some d =>
                continue (code_unit_bytes (((a * 16 + b) * 16 + c') * 16 + d)%N) rest'
            | _, _, _, _ => None
            end
        | _ => None
        end
      else None
  | String c rest =>
      if (N_of_ascii c <? 32)%N then None
      else
        match scan_string rest with
        | Some (str, rest') => Some (String c str, rest')
        | None => None
        end
  end.

(** White space of JSON text. *)
Fixpoint skip_json_space (s : string) : string :=
  match s with
  | String c rest =>
      let n := nat_of_ascii c in
      if (n =? 9) || (n =? 10) || (n =? 13) || (n =? 32)
      then skip_json_space rest else s
  | EmptyString => s
  end.

(** A JSON number: no leading plus, no leading zeros, digits on both
    sides of a point. *)
Definition scan_json_number (s : string) : option (number * string) :=
  let '(negative, s1) :=
    match s with String "-" rest => (true, rest) | _ => (false, s) end in
  let '(m1, n1, s2) := scan_digits 0 0 s1 in
  let leading_zero :=
    match s1 with String "0" _ => true | _ => false end in
  if (n1 =? 0) || (leading_zero && negb (n1 =? 1)) then None
  else
    let fraction :=
      match s2 with
      | String "." rest =>
          let '(m2, n2, s3) := scan_digits m1 0 rest in
          if n2 =? 0 then None else Some (m2, n2, s3)
      | _ => Some (m1, 0, s2)
      end in
    match fraction with
    | None => None
    | Some (m2, n2, s3) =>
        match s3 with
        | String c rest =>
            if (Ascii.eqb c "e" || Ascii.eqb c "E")%bool then
              let '(eneg, rest1) := scan_sign rest in
              let '(e, count, rest2) := scan_digits 0 0 rest1 in
              if count =? 0 then None
              else Some (of_decimal negative m2
                           ((if eneg then - e else e) - Z.of_nat n2), rest2)
            else Some (of_decimal negative m2 (- Z.of_nat n2), s3)
        | EmptyString => Some (of_decimal negative m2 (- Z.of_nat n2), s3)
        end
    end.

(** The JSON grammar, by recursive descent.  Every call consumes a
    character before it calls again, so the length of the text bounds the
    depth. *)
Fixpoint parse_value (fuel : nat) (s : string) : option (JsValue * string) :=
  match fuel with
  | O => None
  | S fuel' =>
      match skip_json_space s with
      | String "[" rest =>
          match skip_json_space rest with
          | String "]" rest' => Some (JArray [], rest')
          | _ => parse_elements fuel' rest []
          end
      | String "{" rest =>
          match skip_json_space rest with
          | String "}" rest' => Some (JObject [], rest')
          | _ => parse_members fuel' rest []
          end
      | String "034" rest =>
          match scan_string rest with
          | Some (str, rest') => Some (JString str, rest')
          | None => None
          end
      | s' =>
          match starts_with "null" s', starts_with "true" s', starts_with "false" s' with
          | Some rest, _, _ => Some (JNull, rest)
          | _, Some rest, _ => Some (JBool true, rest)
          | _, _, Some rest => Some (JBool false, rest)
          | None, None, None =>
              match scan_json_number s' with
              | Some (x, rest) => Some (JNumber x, rest)
              | None => None
              end
          end
      end
  end
with parse_elements (fuel : nat) (s : string) (acc : list JsValue)
  : option (JsValue * string) :=
  match fuel with
  | O => None
  | S fuel' =>
      match parse_value fuel' s with
      | Some (v, rest) =>
          match skip_json_space rest with
          | String "," rest' => parse_elements fuel' rest' (acc ++ [v])
          | String "]" rest' => Some (JArray (acc ++ [v]), rest')
          | _ => None
          end
      | None => None
      end
  end
with parse_members (fuel : nat) (s : string) (acc : list (string * JsValue))
  : option (JsValue * string) :=
  match fuel with
  | O => None
  | S fuel' =>
      match skip_json_space s with
      | String "034" rest =>
          match scan_string rest with
          | Some (key, rest1) =>
              match skip_json_space rest1 with
              | String ":" rest2 =>
                  match parse_value fuel' rest2 with
                  | Some (v, rest3) =>
                      match skip_json_space rest3 with
                      | String "," rest4 =>
                          parse_members fuel' rest4 (define_property key v acc)
                      | String "}" rest4 =>
                          Some (JObject (define_property key v acc), rest4)
                      | _ => None
                      end
                  | None => None
                  end
              | _ => None
              end
          | None => None
          end
      | _ => None
      end
  end.

(** [JSON.parse] without a reviver; [None] stands for the SyntaxError. *)
Definition JSON_parse (text : string) : option JsValue :=
  match parse_value (2 * String.length text + 2) text with
  | Some (v, rest) =>
      match skip_json_space rest with
      | EmptyString => Some v
      | _ => None
      end
  | None => None
  end.

Definition hex_digit (n : N) : ascii :=
  if (n <? 10)%N then ascii_of_N (48 + n) else ascii_of_N (87 + n).

(** [QuoteJSONString], on bytes. *)
Fixpoint quote_characters (s : string) : string :=
  match s with
  | EmptyString => EmptyString
  | String c rest =>
      let n := N_of_ascii c in
      let escaped :=
        if (n =? 34)%N then String "\" (String "034" EmptyString)
        else if (n =? 92)%N then "\\"
        else if (n =? 8)%N then "\b"
        else if (n =? 12)%N then "\f"
        else if (n =? 10)%N then "\n"
        else if (n =? 13)%N then "\r"
        else if (n =? 9)%N then "\t"
        else if (n <? 32)%N then
          "\u00" +:+ String (hex_digit (n / 16)) (String (hex_digit (n mod 16)) EmptyString)
        else String c EmptyString in
      escaped +:+ quote_characters rest
  end.

Definition quote (s : string) : string :=
  String "034" (quote_characters s) +:+ String "034" EmptyString.

Fixpoint join (parts : list string) : string :=
  match parts with
  | [] => EmptyString
  | [p] => p
  | p :: rest => p +:+ "," +:+ join rest
  end.

(** [SerializeJSONProperty]; [None] is [undefined]. *)
Fixpoint serialize (v : JsValue) : option string :=
  match v with
  | JUndefined => None
  | JNull => Some "null"
  | JBool b => Some (if b then "true" else "false")
  | JNumber x => Some (if isFinite x then Number_toString x else "null")
  | JString s => Some (quote s)
  | JArray elements =>
      let fix items (l : list JsValue) : list string :=
        match l with
        | [] => []
        | e :: rest =>
            match serialize e with Some t => t | None => "null" end :: items rest
        end in
      Some ("[" +:+ join (items elements) +:+ "]")
  | JObject properties =>
      let fix members (l : list (string * JsValue)) : list string :=
        match l with
        | [] => []
        | (k, e) :: rest =>
            match serialize e with
            | Some t => (quote k +:+ ":" +:+ t) :: members rest
            | None => members rest
            end
        end in
      Some ("{" +:+ join (members properties) +:+ "}")
  end.

(** [JSON.stringify] with one argument, followed by the conversion to a
    string that storing the result applies. *)
Definition JSON_stringify (v : JsValue) : string :=
  match serialize v with Some t => t | None => "undefined" end.

(** Abrupt completions. *)
Inductive Exception := SyntaxError | TypeError | SecurityError | QuotaExceededError.

Inductive Completion (A : Type) :=
| Normal (a : A)
| Throw (e : Exception).
Arguments Normal {A} _.
Arguments Throw {A} _.

(** Sequencing: an abrupt completion ends the statements that follow. *)
Definition bind {A B : Type} (c : Completion A) (k : A -> Completion B)
  : Completion B :=
  match c with
  | Normal a => k a
  | Throw e => Throw e
  end.

Notation "'let*' x ':=' c 'in' k" := (bind c (fun x => k))
  (at level 10, x name, c at level 100, k at level 200).

(** The operator [&&] on conditions that may throw: the right operand is
    evaluated only when the left one is true. *)
Definition and_then (a b : Completion bool) : Completion bool :=
  let* x := a in if x then b else Normal false.

(** Reading a property that neither the built-in prototypes nor arrays
    and strings define: [null] and [undefined] have no properties, an
    object yields its own property or [undefined]. *)
Definition get_property (v : JsValue) (name : string) : Completion JsValue :=
  match v with
  | JUndefined | JNull => Throw TypeError
  | JObject properties =>
      Normal (match own_property name properties with
              | Some w => w
              | None => JUndefined
              end)
  | _ => Normal JUndefined
  end.

(** [typeof v.name === tag] *)
Definition typeof_is (v : JsValue) (name tag : string) : Completion bool :=
  let* x := get_property v name in Normal (String.eqb (typeof x) tag).

(** [JSON.parse] as a completion. *)
Definition parse_json (text : string) : Completion JsValue :=
  match JSON_parse text with
  | Some v => Normal v
  | None => Throw SyntaxError
  end.

(** What a typed read of a number or boolean field yields. *)
Definition number_of (v : JsValue) : number :=
  match v with JNumber x => x | _ => NaN end.

Definition boolean_of (v : JsValue) : bool :=
  match v with JBool b => b | _ => false end.

End Js.

(** ** The host: [localStorage] *)

Module LocalStorage.
Import Js.

(** The storage area.  [denied] is a storage the page may not touch: every
    access throws.  [full] is a storage that takes no more data: [setItem]
    throws.  [written] records the successful calls of [setItem], oldest
    first. *)
Record Storage := mkStorage {
  items : gmap string string;
  denied : bool;
  full : bool;
  written : list (string * string)
}.

Definition getItem (key : string) (ls : Storage) : Completion (option string) :=
  if denied ls then Throw SecurityError else Normal (items ls !! key).

Definition setItem (key value : string) (ls : Storage) : Completion Storage :=
  if denied ls then Throw SecurityError
  else if full ls then Throw QuotaExceededError
  else Normal (mkStorage (<[key := value]> (items ls)) (denied ls) (full ls)
                         (written ls ++ [(key, value)])).

Definition removeItem (key : string) (ls : Storage) : Completion Storage :=
  if denied ls then Throw SecurityError
  else Normal (mkStorage (delete key (items ls)) (denied ls) (full ls) (written ls)).

Definition empty_storage : Storage := mkStorage ∅ false false [].

End LocalStorage.

(** ** The camera feed component: temporal smoothing *)

Module CameraFeed.

(** Modelled from the spec: cv/gestureTypes is not part of the sources.
    [GestureType] is the enumerated set of gestures, which is also the set
    of keys of the [counts] record. *)
Inductive GestureType := REST | NEXT | PREV | SELECT.

#[export] Instance GestureType_eq_dec : EqDecision GestureType.
Proof. solve_decision. Defined.

Definition MAX_HISTORY_LENGTH : nat := 7.
Definition MIN_HISTORY_LENGTH : nat := 4.

(** A [Record<GestureType, number>] object.  [Object.entries] walks the
    string keys in insertion order, so the object is an association list
    whose order is the order of the literal. *)
Definition Counts := list (GestureType * nat).

Definition initial_counts : Counts :=
  [(REST, 0); (NEXT, 0); (PREV, 0); (SELECT, 0)].

(** [counts[gesture]++]: the entry is updated in place. *)
Fixpoint increment (gesture : GestureType) (counts : Counts) : Counts :=
  match counts with
  | [] => []
  | (k, c) :: rest =>
      if decide (k = gesture) then (k, S c) :: rest
      else (k, c) :: increment gesture rest
  end.

(** [for (const gesture of history) counts[gesture]++] *)
Definition count_gestures (history : list GestureType) : Counts :=
  fold_left (fun counts gesture => increment gesture counts) history initial_counts.

(** The selection loop over [Object.entries(counts)]; the accumulator is
    [(majorityGesture, maxCount)]. *)
Definition select_step (acc : GestureType * nat) (entry : GestureType * nat)
  : GestureType * nat :=
  let '(majorityGesture, maxCount) := acc in
  let '(gesture, count) := entry in
  if maxCount <? count then (gesture, count) else (majorityGesture, maxCount).

Definition select_majority (counts : Counts) : GestureType :=
  fst (fold_left select_step counts (REST, 0)).

(** The body of [computeMajorityGesture] below the cache test. *)
Definition majority_uncached (history : list GestureType) : option GestureType :=
  match history with
  | [] => None
  | _ => Some (select_majority (count_gestures history))
  end.

(** The closure variables of the memoised function.  [lastHistory] holds a
    copy ([[...history]]) of the argument, so later pushes and shifts on the
    caller's array do not reach it. *)
Record Memo := mkMemo {
  lastHistory : list GestureType;
  lastResult : option GestureType
}.

Definition initial_memo : Memo := mkMemo [] None.

(** [Array.prototype.every] with the element and its index. *)
Fixpoint every_from {A} (p : A -> nat -> bool) (i : nat) (l : list A) : bool :=
  match l with
  | [] => true
  | x :: l' => p x i && every_from p (S i) l'
  end.

Definition every {A} (p : A -> nat -> bool) (l : list A) : bool :=
  every_from p 0 l.

(** [computeMajorityGesture]: the result and the closure state after the
    call. *)
Definition computeMajorityGesture (history : list GestureType) (m : Memo)
  : option GestureType * Memo :=
  if (length history =? length (lastHistory m))
     && every (fun g i => bool_decide (lastHistory m !! i = Some g)) history
  then (lastResult m, m)
  else
    match history with
    | [] => (None, mkMemo [] None)
    | _ =>
        let majorityGesture := select_majority (count_gestures history) in
        (Some majorityGesture, mkMemo history (Some majorityGesture))
    end.

(** Successive calls of the memoised function, with their results. *)
Fixpoint call_sequence (calls : list (list GestureType)) (m : Memo)
  : list (option GestureType) * Memo :=
  match calls with
  | [] => ([], m)
  | history :: rest =>
      let '(r, m1) := computeMajorityGesture history m in
      let '(rs, m2) := call_sequence rest m1 in
      (r :: rs, m2)
  end.

(** The state the pose callback works on: the two refs of the component,
    the pose context's gesture, the closure of [computeMajorityGesture],
    and the calls of [setGesture] made so far (oldest first). *)
Record Session := mkSession {
  gestureHistoryRef : list GestureType;
  currentGestureRef : GestureType;
  currentGesture : GestureType;
  majorityMemo : Memo;
  emitted : list GestureType
}.

(** Modelled from the spec: cv/poseContext is not part of the sources.
    [setGesture] is the command sink; it makes its argument the stable
    gesture of the pose context.  The call is recorded in [emitted]. *)
Definition setGesture (g : GestureType) (s : Session) : Session :=
  mkSession (gestureHistoryRef s) (currentGestureRef s) g (majorityMemo s)
            (emitted s ++ [g]).

(** The session when the component mounts; the stable gesture starts at
    REST. *)
Definition initial_session : Session :=
  mkSession [] REST REST initial_memo [].

(** The initial value of the [numericSensitivity] state, read from the
    storage under [gestureSensitivity]. *)
Definition initialNumericSensitivity (ls : LocalStorage.Storage) : Js.number :=
  match LocalStorage.getItem "gestureSensitivity" ls with
  | Js.Normal (Some stored) =>
      let parsed := Js.parseFloat stored in
      if negb (Js.isNaN parsed) && Js.ge parsed (Js.of_Z 0) && Js.le parsed (Js.of_Z 1)
      then parsed
      else Js.of_decimal false 12 (-2)
  | Js.Normal None => Js.of_decimal false 12 (-2)
  | Js.Throw _ => Js.of_decimal false 12 (-2)
  end.

Section Classifier.

(** The pose landmarks of a frame and the single-frame classifier of
    cv/gestureEngine are external to the component. *)
Variable Landmarks : Type.
Variable inferGestureFromLandmarks : Landmarks -> spec_float -> GestureType.

(** [processPoseResults].  [poseLandmarks] is [results.poseLandmarks]
    ([None] when the frame shows no pose); [convertMediaPipeLandmarks] copies
    the coordinates of each landmark and is taken as part of the classifier;
    drawing on the canvas does not touch the session and is left out. *)
Definition processPoseResults (poseLandmarks : option Landmarks)
    (gestureSensitivityFactor : spec_float) (s : Session) : Session :=
  match poseLandmarks with
  | None => s
  | Some lm =>
      let inferredGesture := inferGestureFromLandmarks lm gestureSensitivityFactor in
      let pushed := gestureHistoryRef s ++ [inferredGesture] in
      let history :=
        if MAX_HISTORY_LENGTH <? length pushed then tail pushed else pushed in
      let s1 := mkSession history (currentGestureRef s) (currentGesture s)
                          (majorityMemo s) (emitted s) in
      if MIN_HISTORY_LENGTH <=? length history then
        let '(majorityGesture, memo) := computeMajorityGesture history (majorityMemo s) in
        let s2 := mkSession history (currentGestureRef s) (currentGesture s)
                            memo (emitted s) in
        match majorityGesture with
        | Some g =>
            if decide (g = currentGestureRef s) then s2 else setGesture g s2
        | None => s2
        end
      else s1
  end.

(** The effect [currentGestureRef.current = currentGesture], run by React
    when it commits a render. *)
Definition syncCurrentGestureRef (s : Session) : Session :=
  mkSession (gestureHistoryRef s) (currentGesture s) (currentGesture s)
            (majorityMemo s) (emitted s).

(** [handleKeyDown] for a mapped key: the history is cleared and the
    gesture is set directly. *)
Definition handleKeyDown (gesture : GestureType) (s : Session) : Session :=
  setGesture gesture
    (mkSession [] (currentGestureRef s) (currentGesture s) (majorityMemo s) (emitted s)).

(** One processed frame followed by the effect that stores the gesture
    in the ref: the step of a run in which React runs the effect before
    the next frame is processed.  The callbacks that process frames do not
    wait for the effect; [CameraFeedSchedule] has the runs in which it comes
    at other times. *)
Definition observe (sensitivity : spec_float) (s : Session)
    (poseLandmarks : option Landmarks) : Session :=
  syncCurrentGestureRef (processPoseResults poseLandmarks sensitivity s).

Definition observe_all (sensitivity : spec_float)
    (frames : list (option Landmarks)) (s : Session) : Session :=
  fold_left (observe sensitivity) frames s.

(** *** Frame dispatch: the [pose.onResults] callback

    The module-level variables [globalRafId], [globalPendingResults] and
    [globalLastFrameTime], the host's list of requested animation frame
    callbacks, and what the callbacks act on.  [processed] records the
    argument of every call of [processPoseResults], oldest first. *)
Record Dispatch := mkDispatch {
  globalRafId : option positive;
  globalPendingResults : option (option Landmarks);
  globalLastFrameTime : Js.number;
  animationFrames : list positive;
  nextHandle : positive;
  session : Session;
  processed : list (option Landmarks)
}.

Definition TARGET_FPS : Js.number := Js.of_Z 30.
Definition FRAME_INTERVAL : Js.number := Js.div (Js.of_Z 1000) TARGET_FPS.

Definition initial_dispatch : Dispatch :=
  mkDispatch None None (Js.of_Z 0) [] 1%positive initial_session [].

(** The test [timeSinceLastFrame >= FRAME_INTERVAL] of the callback. *)
Definition budget_elapsed (d : Dispatch) (now : Js.number) : bool :=
  Js.ge (Js.sub now (globalLastFrameTime d)) FRAME_INTERVAL.

(** A call of [processPoseResults] from the dispatch code. *)
Definition process (numericSensitivity : Js.number)
    (results : option Landmarks) (d : Dispatch) : Dispatch :=
  mkDispatch (globalRafId d) (globalPendingResults d) (globalLastFrameTime d)
             (animationFrames d) (nextHandle d)
             (processPoseResults results numericSensitivity (session d))
             (processed d ++ [results]).

(** The callback given to [pose.onResults]; [now] is the value of
    [performance.now()]. *)
Definition onResults (numericSensitivity : Js.number)
    (results : option Landmarks) (now : Js.number) (d : Dispatch) : Dispatch :=
  if budget_elapsed d now then
    let d1 := process numericSensitivity results d in
    mkDispatch (globalRafId d1) None now
               (animationFrames d1) (nextHandle d1) (session d1) (processed d1)
  else
    match globalRafId d with
    | None =>
        let h := nextHandle d in
        mkDispatch (Some h) (Some results) (globalLastFrameTime d)
                   (animationFrames d ++ [h]) (Pos.succ h) (session d) (processed d)
    | Some _ =>
        mkDispatch (globalRafId d) (Some results) (globalLastFrameTime d)
                   (animationFrames d) (nextHandle d) (session d) (processed d)
    end.

(** The function handed to [requestAnimationFrame]. *)
Definition animationFrameCallback (numericSensitivity : Js.number)
    (now : Js.number) (d : Dispatch) : Dispatch :=
  let d1 :=
    match globalPendingResults d with
    | Some results =>
        let d0 := process numericSensitivity results d in
        mkDispatch (globalRafId d0) None now
                   (animationFrames d0) (nextHandle d0) (session d0) (processed d0)
    | None => d
    end in
  mkDispatch None (globalPendingResults d1) (globalLastFrameTime d1)
             (animationFrames d1) (nextHandle d1) (session d1) (processed d1).

(** The host's rendering opportunity: every requested callback is taken
    off the list and run. *)
Definition runAnimationFrames (numericSensitivity : Js.number)
    (now : Js.number) (d : Dispatch) : Dispatch :=
  fold_left (fun d' (_ : positive) => animationFrameCallback numericSensitivity now d')
            (animationFrames d)
            (mkDispatch (globalRafId d) (globalPendingResults d) (globalLastFrameTime d)
                        [] (nextHandle d) (session d) (processed d)).

(** The cleanup of the set-up effect, as far as the dispatch state goes. *)
Definition cleanup (d : Dispatch) : Dispatch :=
  match globalRafId d with
  | Some h =>
      mkDispatch None None (globalLastFrameTime d)
                 (filter (fun h' => h' <> h) (animationFrames d))
                 (nextHandle d) (session d) (processed d)
  | None =>
      mkDispatch None None (globalLastFrameTime d)
                 (animationFrames d) (nextHandle d) (session d) (processed d)
  end.

Inductive Event :=
| PoseResults (results : option Landmarks) (now : Js.number)
| AnimationFrame (now : Js.number)
| Cleanup.

Definition step (numericSensitivity : Js.number) (d : Dispatch) (e : Event)
  : Dispatch :=
  match e with
  | PoseResults results now => onResults numericSensitivity results now d
  | AnimationFrame now => runAnimationFrames numericSensitivity now d
  | Cleanup => cleanup d
  end.

Definition run (numericSensitivity : Js.number) (events : list Event)
    (d : Dispatch) : Dispatch :=
  fold_left (step numericSensitivity) events d.

End Classifier.

Arguments processPoseResults {Landmarks} _ _ _ _.
Arguments observe {Landmarks} _ _ _ _.
Arguments observe_all {Landmarks} _ _ _ _.
Arguments mkDispatch {Landmarks} _ _ _ _ _ _ _.
Arguments globalRafId {Landmarks} _.
Arguments globalPendingResults {Landmarks} _.
Arguments globalLastFrameTime {Landmarks} _.
Arguments animationFrames {Landmarks} _.
Arguments nextHandle {Landmarks} _.
Arguments session {Landmarks} _.
Arguments processed {Landmarks} _.
Arguments initial_dispatch {Landmarks}.
Arguments budget_elapsed {Landmarks} _ _.
Arguments process {Landmarks} _ _ _ _.
Arguments onResults {Landmarks} _ _ _ _ _.
Arguments animationFrameCallback {Landmarks} _ _ _ _.
Arguments runAnimationFrames {Landmarks} _ _ _ _.
Arguments cleanup {Landmarks} _.
Arguments PoseResults {Landmarks} _ _.
Arguments AnimationFrame {Landmarks} _.
Arguments Cleanup {Landmarks}.
Arguments step {Landmarks} _ _ _ _.
Arguments run {Landmarks} _ _ _ _.

End CameraFeed.

(** ** Progress storage *)

Module ProgressStorage.
Import Js LocalStorage.

Record LessonProgress := mkLessonProgress {
  index : number;
  completed : bool;
  showTranslation : bool
}.

(** A [LessonProgress] object as a value. *)
Definition progress_object (data : LessonProgress) : JsValue :=
  JObject [("index", JNumber (index data));
           ("completed", JBool (completed data));
           ("showTranslation", JBool (showTranslation data))].

Definition STORAGE_PREFIX : string := "progress:".
Definition DEBOUNCE_MS : Z := 200.

(** The statements of [loadProgress] inside [try]: the value returned and
    the storage after them, or what was thrown.  A statement that throws
    leaves the storage as it was. *)
Definition load_attempt (storageKey : string) (ls : Storage)
  : Completion (option LessonProgress * Storage) :=
  let* stored := getItem storageKey ls in
  match stored with
  | None => Normal (None, ls)
  | Some text =>
      if String.eqb text EmptyString then Normal (None, ls)
      else
        let* parsed := parse_json text in
        let* valid :=
          and_then (typeof_is parsed "index" "number")
            (and_then (typeof_is parsed "completed" "boolean")
                      (typeof_is parsed "showTranslation" "boolean")) in
        if valid then
          let* i := get_property parsed "index" in
          let* c := get_property parsed "completed" in
          let* t := get_property parsed "showTranslation" in
          Normal (Some (mkLessonProgress (number_of i) (boolean_of c) (boolean_of t)),
                  ls)
        else
          let* ls' := removeItem storageKey ls in
          Normal (None, ls')
  end.

(** [loadProgress]: the result and the storage after the call. *)
Definition loadProgress (categoryId : string) (ls : Storage)
  : Completion (option LessonProgress) * Storage :=
  if String.eqb categoryId EmptyString then (Normal None, ls)
  else
    let storageKey := STORAGE_PREFIX +:+ categoryId in
    match load_attempt storageKey ls with
    | Normal (r, ls') => (Normal r, ls')
    | Throw _ =>
        (Normal None,
         match removeItem storageKey ls with
         | Normal ls' => ls'
         | Throw _ => ls
         end)
    end.

(** The two module-level maps, the host's timers and clock, and the
    storage.  A timer is its handle, the time it is due and the category
    its callback passes to [debouncedWriteProgress].  Handles are positive,
    hence truthy. *)
Record World := mkWorld {
  debounceTimers : gmap string positive;
  pendingWrites : gmap string LessonProgress;
  timers : gmap positive (Z * string);
  nextTimer : positive;
  clock : Z;
  localStorage : Storage
}.

Definition initial_world (ls : Storage) : World :=
  mkWorld ∅ ∅ ∅ 1%positive 0%Z ls.

(** [debouncedWriteProgress] *)
Definition debouncedWriteProgress (categoryId : string) (w : World) : World :=
  match pendingWrites w !! categoryId with
  | None => w
  | Some data =>
      let storageKey := STORAGE_PREFIX +:+ categoryId in
      let serialized := JSON_stringify (progress_object data) in
      let ls :=
        match setItem storageKey serialized (localStorage w) with
        | Normal ls' => ls'
        | Throw _ => localStorage w
        end in
      mkWorld (delete categoryId (debounceTimers w))
              (delete categoryId (pendingWrites w))
              (timers w) (nextTimer w) (clock w) ls
  end.

(** [saveProgress] *)
Definition saveProgress (categoryId : string) (data : LessonProgress) (w : World)
  : World :=
  if String.eqb categoryId EmptyString then w
  else
    let pending := <[categoryId := data]> (pendingWrites w) in
    let cleared :=
      match debounceTimers w !! categoryId with
      | Some existingTimer => delete existingTimer (timers w)
      | None => timers w
      end in
    let timer := nextTimer w in
    mkWorld (<[categoryId := timer]> (debounceTimers w))
            pending
            (<[timer := ((clock w + DEBOUNCE_MS)%Z, categoryId)]> cleared)
            (Pos.succ timer) (clock w) (localStorage w).

(** What happens around the module: a call of [saveProgress], time
    passing, and the host running a timer that is due. *)
Inductive Event :=
| Save (categoryId : string) (data : LessonProgress)
| Wait (milliseconds : Z)
| Fire (timer : positive).

Definition step (w : World) (e : Event) : option World :=
  match e with
  | Save categoryId data => Some (saveProgress categoryId data w)
  | Wait ms =>
      if (0 <=? ms)%Z then
        Some (mkWorld (debounceTimers w) (pendingWrites w) (timers w) (nextTimer w)
                      (clock w + ms)%Z (localStorage w))
      else None
  | Fire timer =>
      match timers w !! timer with
      | Some (due, categoryId) =>
          if (due <=? clock w)%Z then
            Some (debouncedWriteProgress categoryId
                    (mkWorld (debounceTimers w) (pendingWrites w)
                             (delete timer (timers w)) (nextTimer w) (clock w)
                             (localStorage w)))
          else None
      | None => None
      end
  end.

(** A sequence of events; [None] when the host could not have produced
    it. *)
Fixpoint exec (w : World) (events : list Event) : option World :=
  match events with
  | [] => Some w
  | e :: rest =>
      match step w e with
      | Some w' => exec w' rest
      | None => None
      end
  end.

End ProgressStorage.

(** ** The settings panel *)

Module SettingsPanel.
Import Js LocalStorage.

Definition DEFAULT_GESTURE_SENSITIVITY : number := of_decimal false 12 (-2).
Definition GESTURE_SENSITIVITY : string := "gestureSensitivity".

(** [loadNumberFromStorage] *)
Definition loadNumberFromStorage (key : string) (defaultValue : number)
    (ls : Storage) : number :=
  match getItem key ls with
  | Normal (Some stored) =>
      let parsed := parseFloat stored in
      if negb (isNaN parsed) then parsed else defaultValue
  | Normal None => defaultValue
  | Throw _ => defaultValue
  end.

(** [saveToStorage] for a number. *)
Definition saveToStorage (key : string) (value : number) (ls : Storage) : Storage :=
  match setItem key (Number_toString value) ls with
  | Normal ls' => ls'
  | Throw _ => ls
  end.

(** The initial value of the panel's [gestureSensitivity] state. *)
Definition initialGestureSensitivity (ls : Storage) : number :=
  loadNumberFromStorage GESTURE_SENSITIVITY DEFAULT_GESTURE_SENSITIVITY ls.

End SettingsPanel.

(** ** The camera feed component: landmark conversion, keyboard and
    sensitivity *)

Module CameraFeedControls.
Import Js LocalStorage CameraFeed.

(** *** [convertMediaPipeLandmarks]

    A landmark object of MediaPipe is the list of its own properties; the
    converted landmark holds the four values the conversion reads, which
    are [undefined] for the properties the object lacks. *)
Definition MpLandmark := list (string * JsValue).

Record PoseLandmark := mkPoseLandmark {
  x : JsValue;
  y : JsValue;
  z : JsValue;
  visibility : JsValue
}.

Definition read (landmark : MpLandmark) (name : string) : JsValue :=
  match own_property name landmark with
  | Some v => v
  | None => JUndefined
  end.

(** The function given to [map]. *)
Definition convert_landmark (landmark : MpLandmark) : PoseLandmark :=
  mkPoseLandmark (read landmark "x") (read landmark "y") (read landmark "z")
                 (read landmark "visibility").

(** An array of landmark objects as the caller holds it: the identity of
    the array, which [===] compares, and the elements it has at the time of
    the call. *)
Record MpArray := mkMpArray {
  reference : positive;
  elements : list MpLandmark
}.

(** The closure variables; [lastInput] holds the array itself, not a
    copy. *)
Record ConvertMemo := mkConvertMemo {
  lastInput : option positive;
  lastOutput : option (list PoseLandmark)
}.

Definition initial_convert_memo : ConvertMemo := mkConvertMemo None None.

(** [convertMediaPipeLandmarks]: the result and the closure state after
    the call. *)
Definition convertMediaPipeLandmarks (mpLandmarks : MpArray) (m : ConvertMemo)
  : list PoseLandmark * ConvertMemo :=
  let result := map convert_landmark (elements mpLandmarks) in
  let fresh := (result, mkConvertMemo (Some (reference mpLandmarks)) (Some result)) in
  if bool_decide (lastInput m = Some (reference mpLandmarks)) then
    match lastOutput m with
    | Some cached => (cached, m)
    | None => fresh
    end
  else fresh.

(** Successive calls, with their results. *)
Fixpoint convert_sequence (calls : list MpArray) (m : ConvertMemo)
  : list (list PoseLandmark) * ConvertMemo :=
  match calls with
  | [] => ([], m)
  | mpLandmarks :: rest =>
      let '(r, m1) := convertMediaPipeLandmarks mpLandmarks m in
      let '(rs, m2) := convert_sequence rest m1 in
      (r :: rs, m2)
  end.

(** *** Keyboard simulation

    [toLowerCase] on the letters A to Z.  The other letters are left as
    they are: what they map to occurs in no property name looked up here. *)
Definition lower (c : ascii) : ascii :=
  let n := nat_of_ascii c in
  if (65 <=? n) && (n <=? 90) then ascii_of_nat (n + 32) else c.

Fixpoint toLowerCase (s : string) : string :=
  match s with
  | EmptyString => EmptyString
  | String c rest => String (lower c) (toLowerCase rest)
  end.

(** The object literal [keyToGesture]. *)
Definition keyToGesture : list (string * GestureType) :=
  [("r", REST); ("n", NEXT); ("p", PREV); ("s", SELECT)].

(** The names an object literal inherits from [Object.prototype]. *)
Definition Object_prototype : list string :=
  ["constructor"; "__defineGetter__"; "__defineSetter__"; "hasOwnProperty";
   "__lookupGetter__"; "__lookupSetter__"; "isPrototypeOf";
   "propertyIsEnumerable"; "toString"; "valueOf"; "__proto__";
   "toLocaleString"].

(** What [keyToGesture[name]] finds: a gesture of the literal, a value
    inherited from the prototype (a function or an object, which is truthy
    and no gesture), or [undefined]. *)
Inductive Found := Own (gesture : GestureType) | Inherited | Missing.

Fixpoint own_gesture (name : string) (literal : list (string * GestureType))
  : option GestureType :=
  match literal with
  | [] => None
  | (k, g) :: rest => if String.eqb k name then Some g else own_gesture name rest
  end.

Definition lookup_key (name : string) : Found :=
  match own_gesture name keyToGesture with
  | Some g => Own g
  | None =>
      if existsb (String.eqb name) Object_prototype then Inherited else Missing
  end.

(** The listener [handleKeyDown] on an event whose [key] is given.  The
    result is [None] where [setGesture] would be handed an inherited value:
    the pose context is not defined on values that are no gestures. *)
Definition onKeyDown (key : string) (s : Session) : option Session :=
  match lookup_key (toLowerCase key) with
  | Own gesture => Some (handleKeyDown gesture s)
  | Inherited => None
  | Missing => Some s
  end.

(** *** The [numericSensitivity] state *)

(** The test [!isNaN(v) && v >= 0 && v <= 1]. *)
Definition accepted (v : number) : bool :=
  negb (isNaN v) && ge v (of_Z 0) && le v (of_Z 1).

(** [handleStorageChange]; [key] and [newValue] are the fields of the
    event, [None] for [null].  The result is the state after the call. *)
Definition handleStorageChange (key newValue : option string)
    (numericSensitivity : number) : number :=
  match key, newValue with
  | Some k, Some text =>
      if String.eqb k "gestureSensitivity" then
        let parsed := parseFloat text in
        if accepted parsed then parsed else numericSensitivity
      else numericSensitivity
  | _, _ => numericSensitivity
  end.

(** [checkSensitivity], which the interval runs every 500 ms. *)
Definition checkSensitivity (ls : Storage) (numericSensitivity : number) : number :=
  match getItem "gestureSensitivity" ls with
  | Normal (Some stored) =>
      let parsed := parseFloat stored in
      if accepted parsed then parsed else numericSensitivity
  | Normal None => numericSensitivity
  | Throw _ => numericSensitivity
  end.

(** What reaches the state after the component has mounted: a storage
    event, or a tick of the interval with the storage as it is then. *)
Inductive SensitivityEvent :=
| StorageChanged (key newValue : option string)
| IntervalTick (ls : Storage).

Definition sensitivity_step (numericSensitivity : number) (e : SensitivityEvent)
  : number :=
  match e with
  | StorageChanged key newValue => handleStorageChange key newValue numericSensitivity
  | IntervalTick ls => checkSensitivity ls numericSensitivity
  end.

(** The state after mounting on a storage and a sequence of events. *)
Definition sensitivity_after (mounted : Storage) (events : list SensitivityEvent)
  : number :=
  fold_left sensitivity_step events (initialNumericSensitivity mounted).

End CameraFeedControls.

(** ** The camera feed component: frames and the effect on the ref *)

Module CameraFeedSchedule.
Import CameraFeed.

Section Classifier.

Variable Landmarks : Type.
Variable inferGestureFromLandmarks : Landmarks -> spec_float -> GestureType.

(** What happens to the session while the component is mounted.  A frame
    is processed: the dispatch code calls [processPoseResults].  Or React
    runs the effect [currentGestureRef.current = currentGesture]: it does so
    some time after the render that a call of [setGesture] has caused, and
    the callbacks that process frames do not wait for it, so the two come in
    any order. *)
Inductive Happening :=
| Frame (poseLandmarks : option Landmarks)
| Effect.

Definition happen (gestureSensitivityFactor : spec_float) (s : Session)
    (h : Happening) : Session :=
  match h with
  | Frame poseLandmarks =>
      processPoseResults inferGestureFromLandmarks poseLandmarks
                         gestureSensitivityFactor s
  | Effect => syncCurrentGestureRef s
  end.

Definition play (gestureSensitivityFactor : spec_float) (hs : list Happening)
    (s : Session) : Session :=
  fold_left (happen gestureSensitivityFactor) hs s.

End Classifier.

Arguments Frame {Landmarks} _.
Arguments Effect {Landmarks}.
Arguments happen {Landmarks} _ _ _ _.
Arguments play {Landmarks} _ _ _ _.

End CameraFeedSchedule.

(** ** The settings panel: stored settings and the reset *)

Module SettingsControls.
Import Js LocalStorage SettingsPanel.

Definition DEFAULT_SHOW_CAMERA : bool := true.
Definition SHOW_CAMERA : string := "showCamera".
Definition DARK_MODE : string := "darkMode".

(** [loadBooleanFromStorage] *)
Definition loadBooleanFromStorage (key : string) (defaultValue : bool)
    (ls : Storage) : bool :=
  match getItem key ls with
  | Normal (Some stored) => String.eqb stored "true"
  | Normal None => defaultValue
  | Throw _ => defaultValue
  end.

(** The values [saveToStorage] takes, and [String(value)]. *)
Inductive Setting :=
| Text (s : string)
| Number (v : number)
| Boolean (b : bool).

Definition String_of (value : Setting) : string :=
  match value with
  | Text s => s
  | Number v => Number_toString v
  | Boolean b => if b then "true" else "false"
  end.

(** [saveToStorage] *)
Definition saveToStorage (key : string) (value : Setting) (ls : Storage) : Storage :=
  match setItem key (String_of value) ls with
  | Normal ls' => ls'
  | Throw _ => ls
  end.

(** [loadShowCamera] *)
Definition loadShowCamera (ls : Storage) : bool :=
  loadBooleanFromStorage SHOW_CAMERA DEFAULT_SHOW_CAMERA ls.

(** [loadGestureSensitivity] *)
Definition loadGestureSensitivity (ls : Storage) : number :=
  loadNumberFromStorage GESTURE_SENSITIVITY DEFAULT_GESTURE_SENSITIVITY ls.

(** [handleSensitivityChange]: the [gestureSensitivity] state after the
    handler has run on an input whose value is [text].  The telemetry event
    it logs goes to a context outside the component. *)
Definition handleSensitivityChange (text : string) (gestureSensitivity : number)
  : number :=
  let value := parseFloat text in
  if negb (isNaN value) && ge value (of_Z 0) && le value (of_Z 1)
  then value
  else gestureSensitivity.

(** The effect that saves the sensitivity when the state has changed. *)
Definition saveSensitivityEffect (gestureSensitivity : number) (ls : Storage)
  : Storage :=
  saveToStorage GESTURE_SENSITIVITY (Number gestureSensitivity) ls.

(** The effect that saves the camera switch when the state has changed. *)
Definition saveShowCameraEffect (showCamera : bool) (ls : Storage) : Storage :=
  saveToStorage SHOW_CAMERA (Boolean showCamera) ls.

(** [handleShowCameraToggle]: the [showCamera] state and the storage after
    the handler, and the fields [key] and [newValue] of the storage event
    it dispatches. *)
Definition handleShowCameraToggle (showCamera : bool) (ls : Storage)
  : bool * Storage * (string * string) :=
  let newValue := negb showCamera in
  (newValue, saveToStorage SHOW_CAMERA (Boolean newValue) ls,
   (SHOW_CAMERA, String_of (Boolean newValue))).

(** [localStorage.length] and [localStorage.key(i)].  The order of the
    keys is the host's; it is fixed while the keys stay the same, which they
    do during the loops that use it. *)
Definition keys_of (ls : Storage) : list string := (map_to_list (items ls)).*1.

Definition Storage_length (ls : Storage) : Completion nat :=
  if denied ls then Throw SecurityError else Normal (length (keys_of ls)).

Definition Storage_key (i : nat) (ls : Storage) : Completion (option string) :=
  if denied ls then Throw SecurityError else Normal (keys_of ls !! i).

(** [key && key.startsWith('progress:')] *)
Definition is_progress_key (key : option string) : bool :=
  match key with
  | Some k =>
      negb (String.eqb k EmptyString)
      && match starts_with "progress:" k with Some _ => true | None => false end
  | None => false
  end.

(** The loop of [resetAllProgress] over the indices from [i], with
    [remaining] iterations left. *)
Fixpoint collect_progress_keys (remaining i : nat) (ls : Storage)
    (keysToRemove : list string) : Completion (list string) :=
  match remaining with
  | 0 => Normal keysToRemove
  | S remaining' =>
      let* key := Storage_key i ls in
      collect_progress_keys remaining' (S i) ls
        (if is_progress_key key
         then match key with
              | Some k => keysToRemove ++ [k]
              | None => keysToRemove
              end
         else keysToRemove)
  end.

(** [keysToRemove.forEach((key) => localStorage.removeItem(key))] *)
Fixpoint remove_each (keysToRemove : list string) (ls : Storage)
  : Completion Storage :=
  match keysToRemove with
  | [] => Normal ls
  | key :: rest => let* ls' := removeItem key ls in remove_each rest ls'
  end.

(** [resetAllProgress]: the storage after the call, or the error it
    throws again after logging it. *)
Definition resetAllProgress (ls : Storage) : Completion Storage :=
  let* n := Storage_length ls in
  let* keysToRemove := collect_progress_keys n 0 ls [] in
  let* ls1 := remove_each keysToRemove ls in
  removeItem "gestureLog" ls1.

(** The counting loop of [handleResetAllProgress]; an error ends it and
    is ignored. *)
Fixpoint count_progress_keys (remaining i : nat) (ls : Storage)
    (progressCount : nat) : nat :=
  match remaining with
  | 0 => progressCount
  | S remaining' =>
      match Storage_key i ls with
      | Normal key =>
          count_progress_keys remaining' (S i) ls
            (if is_progress_key key then S progressCount else progressCount)
      | Throw _ => progressCount
      end
  end.

Definition progressCount (ls : Storage) : nat :=
  match Storage_length ls with
  | Normal n => count_progress_keys n 0 ls 0
  | Throw _ => 0
  end.

End SettingsControls.

(** * The vocabulary of the properties *)

(** ** The majority vote *)

Module MajoritySpec.
Import CameraFeed.

(** The number of occurrences of a gesture in a history. *)
Fixpoint occurrences (g : GestureType) (history : list GestureType) : nat :=
  match history with
  | [] => 0
  | x :: rest => (if decide (x = g) then 1 else 0) + occurrences g rest
  end.

(** The position of a gesture among the entries of the [counts] object. *)
Definition entry_index (g : GestureType) : nat :=
  match g with REST => 0 | NEXT => 1 | PREV => 2 | SELECT => 3 end.

(** The enumerated gesture values, in their fixed order. *)
Definition enumeration : list GestureType := [REST; NEXT; PREV; SELECT].

(** The majority as the design document words it: over the values of the
    enumeration, in their order, the value with the strictly highest count;
    the first value met with the current maximum stays. *)
Definition spec_majority (history : list GestureType) : GestureType :=
  fold_left (fun best g =>
               if occurrences best history <? occurrences g history then g else best)
            enumeration REST.

(** The closure of [computeMajorityGesture] holds the result for the
    history it holds. *)
Definition memo_consistent (m : Memo) : Prop :=
  lastResult m = majority_uncached (lastHistory m).

End MajoritySpec.

(** ** The temporal smoother *)

Module SmootherSpec.
Import CameraFeed MajoritySpec.

(** The last [n] elements of a list. *)
Definition lastn {A} (n : nat) (l : list A) : list A := drop (length l - n) l.

(** A gesture holds a strict majority of a window of at least
    [MIN_HISTORY_LENGTH] entries. *)
Definition window_majority (g : GestureType) (window : list GestureType) : Prop :=
  MIN_HISTORY_LENGTH <= length window /\ length window < 2 * occurrences g window.

(** What holds of the session whenever a frame is processed after React
    has committed: the closure of [computeMajorityGesture] is consistent, the
    history has at most [MAX_HISTORY_LENGTH] entries, and the ref holds the
    stable gesture. *)
Definition session_ok (s : Session) : Prop :=
  memo_consistent (majorityMemo s)
  /\ length (gestureHistoryRef s) <= MAX_HISTORY_LENGTH
  /\ currentGestureRef s = currentGesture s.

(** The history after a push and the shift that may follow it. *)
Definition pushed_history (h : list GestureType) (g : GestureType)
  : list GestureType :=
  if MAX_HISTORY_LENGTH <? length (h ++ [g]) then tail (h ++ [g]) else h ++ [g].

Section Classifier.

Context {Landmarks : Type}.
Variable inferGestureFromLandmarks : Landmarks -> spec_float -> GestureType.
Variable sensitivity : spec_float.

(** The gestures the classifier reports for the frames that show a pose. *)
Definition observed (frames : list (option Landmarks)) : list GestureType :=
  omap (fun r => match r with
                 | Some lm => Some (inferGestureFromLandmarks lm sensitivity)
                 | None => None
                 end) frames.

(** A gesture keeps a strict majority of the window after each of the
    frames. *)
Fixpoint majority_throughout (g : GestureType) (frames : list Landmarks)
    (s : Session) : Prop :=
  match frames with
  | [] => True
  | lm :: rest =>
      window_majority g
        (gestureHistoryRef (observe inferGestureFromLandmarks sensitivity s (Some lm)))
      /\ majority_throughout g rest
           (observe inferGestureFromLandmarks sensitivity s (Some lm))
  end.

End Classifier.

End SmootherSpec.

(** ** Frame dispatch *)

Module DispatchSpec.
Import CameraFeed.

(** The host holds a requested callback exactly when [globalRafId] holds
    its handle. *)
Definition scheduled_matches {Landmarks : Type} (d : Dispatch Landmarks) : Prop :=
  animationFrames d = match globalRafId d with Some h => [h] | None => [] end.

Section Classifier.

Context {Landmarks : Type}.
Variable inferGestureFromLandmarks : Landmarks -> spec_float -> GestureType.
Variable numericSensitivity : Js.number.

(** Results arriving one after the other, each with the time of its
    arrival. *)
Definition arrive (frames : list (option Landmarks * Js.number))
    (d : Dispatch Landmarks) : Dispatch Landmarks :=
  fold_left (fun d' frame =>
               onResults inferGestureFromLandmarks numericSensitivity
                         (fst frame) (snd frame) d')
            frames d.

End Classifier.

(** The results of the last of some arrivals. *)
Fixpoint last_results {Landmarks : Type} (first : option Landmarks)
    (rest : list (option Landmarks * Js.number)) : option Landmarks :=
  match rest with
  | [] => first
  | (results, _) :: rest' => last_results results rest'
  end.

End DispatchSpec.

(** ** Progress storage *)

Module ProgressSpec.
Import Js LocalStorage ProgressStorage.

(** The stored text denotes an object with the three fields of a
    [LessonProgress], of the right types. *)
Definition has_progress_shape (parsed : JsValue) : Prop :=
  exists properties i c t,
    parsed = JObject properties
    /\ own_property "index" properties = Some (JNumber i)
    /\ own_property "completed" properties = Some (JBool c)
    /\ own_property "showTranslation" properties = Some (JBool t).

(** The stored text is no JSON text, or denotes a value of another
    shape. *)
Definition malformed (stored : string) : Prop :=
  match JSON_parse stored with
  | None => True
  | Some parsed => ~ has_progress_shape parsed
  end.

(** The key of a category's entry. *)
Definition storage_key (categoryId : string) : string :=
  STORAGE_PREFIX +:+ categoryId.

(** The storage takes reads and writes. *)
Definition healthy (ls : Storage) : Prop := denied ls = false /\ full ls = false.

(** The module's timer map and the host's timers describe each other, a
    category with a timer has a pending write, and handles not yet handed
    out are not in use. *)
Definition timers_agree (w : World) : Prop :=
  (forall categoryId t,
      debounceTimers w !! categoryId = Some t ->
      is_Some (pendingWrites w !! categoryId)
      /\ exists due, timers w !! t = Some (due, categoryId))
  /\ (forall t due categoryId,
        timers w !! t = Some (due, categoryId) ->
        debounceTimers w !! categoryId = Some t)
  /\ (forall t, (nextTimer w <= t)%positive -> timers w !! t = None).

(** A burst of calls for one category: the first call, then each further
    call after a delay. *)
Fixpoint burst (categoryId : string) (first : LessonProgress)
    (rest : list (Z * LessonProgress)) : list Event :=
  Save categoryId first ::
  match rest with
  | [] => []
  | (delay, data) :: rest' => Wait delay :: burst categoryId data rest'
  end.

(** The value of the last call of a burst. *)
Fixpoint last_value (first : LessonProgress) (rest : list (Z * LessonProgress))
  : LessonProgress :=
  match rest with
  | [] => first
  | (_, data) :: rest' => last_value data rest'
  end.

(** After a call of [saveProgress] for a category with a value, which got
    the timer [t0]: either the write is pending and [t0] is the
    category's timer, or [t0] has fired and the storage holds the value. *)
Definition progress_state (categoryId : string) (v : LessonProgress)
    (t0 : positive) (fired : bool) (w : World) : Prop :=
  timers_agree w
  /\ healthy (localStorage w)
  /\ (t0 < nextTimer w)%positive
  /\ if fired then
       debounceTimers w !! categoryId = None
       /\ timers w !! t0 = None
       /\ items (localStorage w) !! storage_key categoryId
          = Some (JSON_stringify (progress_object v))
     else
       pendingWrites w !! categoryId = Some v
       /\ debounceTimers w !! categoryId = Some t0.

(** The serialisation of a value reads back as the object it was made
    from, as a test. *)
Definition reads_back (v : LessonProgress) : bool :=
  match JSON_parse (JSON_stringify (progress_object v)) with
  | Some (JObject [(k1, JNumber x); (k2, JBool c); (k3, JBool t)]) =>
      String.eqb k1 "index" && String.eqb k2 "completed"
      && String.eqb k3 "showTranslation"
      && bool_decide (x = index v)
      && Bool.eqb c (completed v) && Bool.eqb t (showTranslation v)
  | _ => false
  end.

(** The values with a given index. *)
Definition with_index (i : number) : list LessonProgress :=
  [mkLessonProgress i false false; mkLessonProgress i false true;
   mkLessonProgress i true false; mkLessonProgress i true true].

(** An event that is no call of [saveProgress] for the category. *)
Definition other_request (categoryId : string) (e : Event) : Prop :=
  forall data, e <> Save categoryId data.

End ProgressSpec.

(** ** Inputs of the scenarios *)

Module Inputs.
Import Js LocalStorage CameraFeed ProgressStorage SettingsPanel.

(** A classifier that reports the gesture it is shown. *)
Definition shown (g : GestureType) (_ : spec_float) : GestureType := g.

(** The session after NEXT, NEXT, NEXT. *)
Definition three_next : Session :=
  observe_all shown Js.NaN [Some NEXT; Some NEXT; Some NEXT] initial_session.

(** One frame, processed at once. *)
Definition two_late_frames : list (CameraFeed.Event GestureType) :=
  [PoseResults (Some REST) (Js.of_Z 100)].

(** An entry that is no JSON text. *)
Definition garbled : Storage :=
  mkStorage {[ "progress:animals" := "{index: 3" ]} false false [].

(** The same text under the key of the empty category. *)
Definition garbled_no_category : Storage :=
  mkStorage {[ "progress:" := "{index: 3" ]} false false [].

(** An entry whose text is the empty string. *)
Definition empty_entry : Storage :=
  mkStorage {[ "progress:animals" := EmptyString ]} false false [].

Definition animals_first : LessonProgress := mkLessonProgress (of_Z 2) false true.
Definition animals_second : LessonProgress := mkLessonProgress (of_Z 3) false true.
Definition animals_nan : LessonProgress := mkLessonProgress NaN false true.

(** The quiet period passes and the first timer fires. *)
Definition one_request : list ProgressStorage.Event := [Wait 200; Fire 1%positive].

Definition after_one_request : World :=
  match exec (saveProgress "animals" animals_second (initial_world empty_storage))
             one_request with
  | Some w => w
  | None => initial_world empty_storage
  end.

Definition after_nan_request : World :=
  match exec (saveProgress "animals" animals_nan (initial_world empty_storage))
             one_request with
  | Some w => w
  | None => initial_world empty_storage
  end.

(** A stored sensitivity of 5. *)
Definition stored_five : Storage :=
  mkStorage {[ GESTURE_SENSITIVITY := "5" ]} false false [].

End Inputs.

(** ** Stability of the commands *)

Module StabilitySpec.
Import CameraFeed.

(** Each gesture of the list differs from the one before it, the first
    from [previous]. *)
Fixpoint changes (previous : GestureType) (l : list GestureType) : Prop :=
  match l with
  | [] => True
  | g :: rest => g <> previous /\ changes g rest
  end.

End StabilitySpec.

(** ** Runs of frames and of the effect *)

Module ScheduleSpec.
Import CameraFeed CameraFeedSchedule.

(** The frames of a run, in their order. *)
Definition frames_of {Landmarks : Type} (hs : list (Happening Landmarks))
  : list (option Landmarks) :=
  omap (fun h => match h with Frame r => Some r | Effect => None end) hs.

(** The effect runs after every frame, before the next frame. *)
Fixpoint effect_after_each_frame {Landmarks : Type}
    (hs : list (Happening Landmarks)) : Prop :=
  match hs with
  | [] => True
  | Effect :: rest => effect_after_each_frame rest
  | Frame _ :: Effect :: rest => effect_after_each_frame rest
  | Frame _ :: _ => False
  end.

End ScheduleSpec.

(** ** Keyboard and landmark conversion *)

Module ControlsSpec.
Import Js LocalStorage CameraFeed CameraFeedControls.

(** The keys of the keyboard simulation as the user presses them. *)
Definition key_bindings : list (string * GestureType) :=
  [("r", REST); ("R", REST); ("n", NEXT); ("N", NEXT);
   ("p", PREV); ("P", PREV); ("s", SELECT); ("S", SELECT)].

(** An array that is passed again right after a call has the elements it
    had at that call. *)
Fixpoint unchanged_while_held (calls : list MpArray) : Prop :=
  match calls with
  | [] => True
  | a :: rest =>
      match rest with
      | [] => True
      | b :: _ => reference a = reference b -> elements a = elements b
      end
      /\ unchanged_while_held rest
  end.

(** The closure holds the conversion of the array it holds. *)
Definition holds (previous : option MpArray) (m : ConvertMemo) : Prop :=
  match previous with
  | None => m = initial_convert_memo
  | Some a =>
      lastInput m = Some (reference a)
      /\ lastOutput m = Some (map convert_landmark (elements a))
  end.

End ControlsSpec.

(** ** Arrival and processing of frames *)

Module ArrivalSpec.
Import CameraFeed.

(** The results handed to the callback by the events, in the order of
    their arrival. *)
Definition arrivals {Landmarks : Type} (events : list (Event Landmarks))
  : list (option Landmarks) :=
  omap (fun e => match e with
                 | PoseResults results _ => Some results
                 | _ => None
                 end) events.

(** The results that wait for the requested callback. *)
Definition waiting {Landmarks : Type} (d : Dispatch Landmarks)
  : list (option Landmarks) :=
  match globalPendingResults d with
  | Some results => [results]
  | None => []
  end.

(** The arrivals so far are the results that wait, preceded by arrivals
    among which the processed results occur in order. *)
Definition accounted {Landmarks : Type} (d : Dispatch Landmarks)
    (arrived : list (option Landmarks)) : Prop :=
  exists earlier, arrived = earlier ++ waiting d /\ sublist (processed d) earlier.

End ArrivalSpec.

(** ** Reading stored progress *)

Module LoadSpec.
Import Js LocalStorage ProgressStorage ProgressSpec.

(** The storage can be read and holds, under the key of a category that
    has a name, a JSON text of an object whose properties [index],
    [completed] and [showTranslation] are those of a value. *)
Definition holds_progress (categoryId : string) (ls : Storage) (v : LessonProgress)
  : Prop :=
  categoryId <> EmptyString
  /\ denied ls = false
  /\ exists stored properties,
       items ls !! storage_key categoryId = Some stored
       /\ JSON_parse stored = Some (JObject properties)
       /\ own_property "index" properties = Some (JNumber (index v))
       /\ own_property "completed" properties = Some (JBool (completed v))
       /\ own_property "showTranslation" properties = Some (JBool (showTranslation v)).

(** The storage without the entry of a category. *)
Definition without (categoryId : string) (ls : Storage) : Storage :=
  mkStorage (delete (storage_key categoryId) (items ls)) (denied ls) (full ls)
            (written ls).

End LoadSpec.

(** ** Debounced writes *)

Module DebounceSpec.
Import Js LocalStorage ProgressStorage ProgressSpec.

(** The category an event works for: the one of the call, or the one of
    the timer that fires. *)
Definition concerns (w : World) (e : Event) : option string :=
  match e with
  | Save categoryId _ => Some categoryId
  | Wait _ => None
  | Fire t => match timers w !! t with
              | Some (_, categoryId) => Some categoryId
              | None => None
              end
  end.

(** None of the events works for the category, from a state on. *)
Fixpoint never_concerns (categoryId : string) (w : World) (events : list Event)
  : Prop :=
  match events with
  | [] => True
  | e :: rest =>
      concerns w e <> Some categoryId
      /\ match step w e with
         | Some w' => never_concerns categoryId w' rest
         | None => True
         end
  end.

(** A category with a pending write has a name and a timer, and no timer
    is due later than the debounce period from now. *)
Definition pending_scheduled (w : World) : Prop :=
  (forall categoryId data,
      pendingWrites w !! categoryId = Some data ->
      categoryId <> EmptyString /\ is_Some (debounceTimers w !! categoryId))
  /\ (forall t due categoryId,
        timers w !! t = Some (due, categoryId) ->
        (due <= clock w + DEBOUNCE_MS)%Z).

(** The entry is the serialisation of a value that one of the events
    asked to save, under the key of its category. *)
Definition requested (events : list Event) (entry : string * string) : Prop :=
  exists categoryId data,
    In (Save categoryId data) events
    /\ categoryId <> EmptyString
    /\ entry = (storage_key categoryId, JSON_stringify (progress_object data)).

(** The pending writes were asked for by the events, and so were the
    entries written since the storage was [ls]. *)
Definition accounted_for (ls : Storage) (events : list Event) (w : World) : Prop :=
  (forall categoryId data,
      pendingWrites w !! categoryId = Some data ->
      categoryId <> EmptyString /\ In (Save categoryId data) events)
  /\ exists new,
       written (localStorage w) = written ls ++ new
       /\ Forall (requested events) new.

(** The time that passes during some events. *)
Fixpoint elapsed (events : list Event) : Z :=
  match events with
  | [] => 0
  | Wait ms :: rest => ms + elapsed rest
  | _ :: rest => elapsed rest
  end.

(** After a call for a category at time [called] that got the timer [t0]:
    the write is pending with that timer, due a debounce period after the
    call, or the category has no timer. *)
Definition awaiting (categoryId : string) (data : LessonProgress) (t0 : positive)
    (called : Z) (w : World) : Prop :=
  (pendingWrites w !! categoryId = Some data
   /\ debounceTimers w !! categoryId = Some t0
   /\ timers w !! t0 = Some ((called + DEBOUNCE_MS)%Z, categoryId))
  \/ (forall t due, timers w !! t <> Some (due, categoryId)).

End DebounceSpec.

(** ** Stored settings *)

Module SettingsSpec.
Import Js LocalStorage SettingsPanel SettingsControls.

(** The camera switch pressed [n] times, the save effect running after
    each press: the state and the storage after the presses. *)
Fixpoint toggles (n : nat) (showCamera : bool) (ls : Storage) : bool * Storage :=
  match n with
  | 0 => (showCamera, ls)
  | S n' =>
      let '(newValue, ls', _) := handleShowCameraToggle showCamera ls in
      toggles n' newValue (saveShowCameraEffect newValue ls')
  end.

(** The positions of the sensitivity slider: 0, 0.01, ..., 1. *)
Definition slider_position (k : nat) : number := of_decimal false (Z.of_nat k) (-2).

(** The text of a number reads back as the number. *)
Definition number_reads_back (v : number) : bool :=
  bool_decide (parseFloat (Number_toString v) = v).

End SettingsSpec.

(** ** Further inputs *)

Module Scenarios.
Import Js LocalStorage CameraFeed CameraFeedControls CameraFeedSchedule.
Import ProgressStorage SettingsPanel.
Import Inputs.

(** The session after seven frames that show NEXT. *)
Definition seven_next : Session :=
  observe_all shown Js.NaN (map Some [NEXT; NEXT; NEXT; NEXT; NEXT; NEXT; NEXT])
              initial_session.

(** Four frames that show NEXT. *)
Definition four_next_frames : list (Happening GestureType) :=
  [Frame (Some NEXT); Frame (Some NEXT); Frame (Some NEXT); Frame (Some NEXT)].

(** The session after the key n, the effect, and three frames that show
    PREV. *)
Definition after_key_and_prev : Session :=
  play shown Js.NaN [Effect; Frame (Some PREV); Frame (Some PREV); Frame (Some PREV)]
       (handleKeyDown NEXT initial_session).

(** Two arrays of one landmark each. *)
Definition first_array : MpArray :=
  mkMpArray 1 [[("x", JNumber (of_Z 1)); ("y", JNumber (of_Z 2));
                ("z", JNumber (of_Z 0)); ("visibility", JNumber (of_Z 1))]].

Definition second_array : MpArray :=
  mkMpArray 2 [[("x", JNumber (of_Z 3)); ("y", JNumber (of_Z 4))]].

(** A well-formed entry that carries one more property. *)
Definition annotated_entry : Storage :=
  mkStorage {[ "progress:animals" :=
                 JSON_stringify
                   (JObject [("note", JString "kept"); ("index", JNumber (of_Z 3));
                             ("completed", JBool false);
                             ("showTranslation", JBool true)]) ]}
            false false [].

(** A storage that takes no more data. *)
Definition full_storage : Storage := mkStorage ∅ false true [].

(** Two calls for one category, then one for another. *)
Definition three_calls : list ProgressStorage.Event :=
  [Save "animals" animals_first; Wait 50; Save "animals" animals_second;
   Save "birds" animals_first].

Definition after_three_calls : World :=
  match exec (initial_world empty_storage) three_calls with
  | Some w => w
  | None => initial_world empty_storage
  end.

(** A call on the full storage, and the quiet period after it. *)
Definition waiting_on_full : World :=
  match exec (initial_world full_storage) [Save "animals" animals_first; Wait 200] with
  | Some w => w
  | None => initial_world full_storage
  end.

(** After the three calls: a further call for the first category, and its
    timer firing after the quiet period. *)
Definition animals_busy : list ProgressStorage.Event :=
  [Save "animals" animals_first; Wait 200; Fire 4%positive].

Definition after_animals_busy : World :=
  match exec after_three_calls animals_busy with
  | Some w => w
  | None => after_three_calls
  end.

(** A call, and the quiet period after it. *)
Definition after_quiet_period : World :=
  match exec (saveProgress "animals" animals_second (initial_world empty_storage))
             [Wait 200] with
  | Some w => w
  | None => initial_world empty_storage
  end.

(** A storage with progress of two categories, the gesture log and a
    setting. *)
Definition mixed_storage : Storage :=
  mkStorage {[ "progress:animals" := "a"; "progress:birds" := "b";
               "gestureLog" := "[]"; "gestureSensitivity" := "0.2" ]}
            false false [].

End Scenarios.

(** * Properties *)

(** ** The majority vote *)

Module MajorityFacts.
Import CameraFeed MajoritySpec.

Lemma occurrences_app g h1 h2 :
  occurrences g (h1 ++ h2) = occurrences g h1 + occurrences g h2.
Proof.
  induction h1 as [|x h1 IH]; simpl; [reflexivity|].
  rewrite IH. lia.
Qed.

Lemma occurrences_le_length g h : occurrences g h <= length h.
Proof.
  induction h as [|x h IH]; simpl; [lia|].
  destruct (decide (x = g)); lia.
Qed.

Lemma occurrences_total h :
  occurrences REST h + occurrences NEXT h + occurrences PREV h
    + occurrences SELECT h = length h.
Proof.
  induction h as [|x h IH]; simpl; [reflexivity|].
  destruct x; simpl; lia.
Qed.

Lemma count_loop_spec history : forall a b c d,
  fold_left (fun counts gesture => increment gesture counts) history
            [(REST, a); (NEXT, b); (PREV, c); (SELECT, d)]
  = [(REST, a + occurrences REST history); (NEXT, b + occurrences NEXT history);
     (PREV, c + occurrences PREV history); (SELECT, d + occurrences SELECT history)].
Proof.
  induction history as [|x history IH]; intros a b c d.
  - simpl. rewrite !Nat.add_0_r. reflexivity.
  - destruct x; simpl; rewrite IH; simpl; rewrite ?Nat.add_succ_r; reflexivity.
Qed.

Lemma count_gestures_spec history :
  count_gestures history
  = [(REST, occurrences REST history); (NEXT, occurrences NEXT history);
     (PREV, occurrences PREV history); (SELECT, occurrences SELECT history)].
Proof. unfold count_gestures, initial_counts. apply count_loop_spec. Qed.

(** What the selection loop picks from four counts. *)
Lemma select_majority_spec history :
  let g := select_majority (count_gestures history) in
  (forall g', occurrences g' history <= occurrences g history)
  /\ (forall g', entry_index g' < entry_index g ->
                 occurrences g' history < occurrences g history).
Proof.
  rewrite count_gestures_spec. unfold select_majority. simpl.
  set (r := occurrences REST history).
  set (n := occurrences NEXT history).
  set (p := occurrences PREV history).
  set (s := occurrences SELECT history).
  cbv beta iota delta [select_step fold_left].
  repeat match goal with
         | |- context [?a <? ?b] => destruct (Nat.ltb_spec a b)
         end;
    cbv zeta; simpl fst; (split; intros []; simpl; lia).
Qed.

Lemma every_from_lookup (l0 l : list GestureType) : forall i,
  every_from (fun g k => bool_decide (l0 !! k = Some g)) i l = true
  <-> (forall j g, l !! j = Some g -> l0 !! (i + j) = Some g).
Proof.
  induction l as [|x l IH]; intros i; simpl.
  - split; [intros _ j g Hj; destruct j; discriminate | reflexivity].
  - rewrite andb_true_iff, bool_decide_eq_true, IH. split.
    + intros [Hx Hl] [|j] g Hj; simpl in Hj.
      * injection Hj as <-. rewrite Nat.add_0_r. exact Hx.
      * replace (i + S j) with (S i + j) by lia. apply Hl, Hj.
    + intros H. split.
      * specialize (H 0 x eq_refl). rewrite Nat.add_0_r in H. exact H.
      * intros j g Hj. replace (S i + j) with (i + S j) by lia. apply H, Hj.
Qed.

(** The cache test succeeds exactly on a history equal to the stored copy. *)
Lemma cache_test_iff history (m : Memo) :
  (length history =? length (lastHistory m))
    && every (fun g i => bool_decide (lastHistory m !! i = Some g)) history = true
  <-> history = lastHistory m.
Proof.
  unfold every. rewrite andb_true_iff, Nat.eqb_eq, every_from_lookup. split.
  - intros [Hlen Hall]. apply list_eq_same_length with (length history); auto.
    intros i x y _ Hx Hy. apply Hall in Hx. simpl in Hx. congruence.
  - intros ->. split; [reflexivity|]. intros j g Hj. exact Hj.
Qed.

Lemma computeMajorityGesture_result history m :
  memo_consistent m ->
  fst (computeMajorityGesture history m) = majority_uncached history.
Proof.
  intros Hm. unfold computeMajorityGesture.
  destruct (_ && _) eqn:Hhit.
  - apply cache_test_iff in Hhit. subst history. exact Hm.
  - destruct history; reflexivity.
Qed.

Lemma computeMajorityGesture_consistent history m :
  memo_consistent m -> memo_consistent (snd (computeMajorityGesture history m)).
Proof.
  intros Hm. unfold computeMajorityGesture.
  destruct (_ && _); [exact Hm|].
  destruct history; reflexivity.
Qed.

Lemma initial_memo_consistent : memo_consistent initial_memo.
Proof. reflexivity. Qed.

Lemma call_sequence_results calls : forall m,
  memo_consistent m ->
  fst (call_sequence calls m) = map majority_uncached calls.
Proof.
  induction calls as [|history calls IH]; intros m Hm; simpl; [reflexivity|].
  pose proof (computeMajorityGesture_result history m Hm) as Hr.
  pose proof (computeMajorityGesture_consistent history m Hm) as Hc.
  destruct (computeMajorityGesture history m) as [r m1]. simpl in Hr, Hc.
  specialize (IH m1 Hc). destruct (call_sequence calls m1) as [rs m2].
  simpl in *. congruence.
Qed.

(** C1: on a non-empty history [computeMajorityGesture] returns a gesture
    whose number of occurrences is maximal, and every gesture that comes
    before it in the order REST, NEXT, PREV, SELECT of the [counts] entries
    occurs strictly less often: among the gestures of maximal count the
    first one in that order is returned. *)
Theorem computeMajorityGesture_majority (history : list GestureType) (m : Memo) :
  history <> [] ->
  memo_consistent m ->
  exists g,
    fst (computeMajorityGesture history m) = Some g
    /\ (forall g', occurrences g' history <= occurrences g history)
    /\ (forall g', entry_index g' < entry_index g ->
                   occurrences g' history < occurrences g history).
Proof.
  intros Hne Hm. rewrite computeMajorityGesture_result by exact Hm.
  destruct history as [|x history]; [congruence|].
  exists (select_majority (count_gestures (x :: history))).
  split; [reflexivity|]. apply select_majority_spec.
Qed.

Lemma computeMajorityGesture_majority_witness :
  exists g,
    fst (computeMajorityGesture [PREV; NEXT; PREV; NEXT] initial_memo) = Some g
    /\ (forall g', occurrences g' [PREV; NEXT; PREV; NEXT]
                   <= occurrences g [PREV; NEXT; PREV; NEXT])
    /\ (forall g', entry_index g' < entry_index g ->
                   occurrences g' [PREV; NEXT; PREV; NEXT]
                   < occurrences g [PREV; NEXT; PREV; NEXT]).
Proof.
  apply (computeMajorityGesture_majority [PREV; NEXT; PREV; NEXT] initial_memo).
  - discriminate.
  - reflexivity.
Defined.

(** The tie of the witness goes to NEXT, which precedes PREV among the
    entries, although PREV was seen first. *)
Example tie_goes_to_entry_order :
  fst (computeMajorityGesture [PREV; NEXT; PREV; NEXT] initial_memo) = Some NEXT.
Proof. reflexivity. Qed.

(** The selection loop picks what the design document's wording picks. *)
Lemma select_majority_spec_majority history :
  select_majority (count_gestures history) = spec_majority history.
Proof.
  rewrite count_gestures_spec. unfold select_majority, spec_majority, enumeration.
  cbv beta iota delta [select_step fold_left].
  rewrite Nat.ltb_irrefl.
  repeat match goal with
         | |- context [?a <? ?b] =>
             lazymatch a with context [if _ then _ else _] => fail | _ => idtac end;
             destruct (Nat.ltb_spec a b); cbv iota
         end;
    cbv zeta; simpl fst; try reflexivity; lia.
Qed.

(** C9: whatever the sequence of calls, starting from the closure as the
    module creates it, each call of the memoised [computeMajorityGesture]
    returns what the computation below the cache test returns on the
    history of that call; that is [null] for an empty history and, for
    any other, the majority as the design document words it. *)
Theorem memoised_equals_uncached (calls : list (list GestureType)) :
  fst (call_sequence calls initial_memo) = map majority_uncached calls
  /\ fst (call_sequence calls initial_memo)
     = map (fun history => match history with
                           | [] => None
                           | _ => Some (spec_majority history)
                           end) calls.
Proof.
  rewrite (call_sequence_results calls initial_memo initial_memo_consistent).
  split; [reflexivity|]. apply map_ext. intros [|g history]; [reflexivity|].
  unfold majority_uncached. rewrite select_majority_spec_majority. reflexivity.
Qed.

End MajorityFacts.

(** ** The temporal smoother *)

Module SmootherFacts.
Import CameraFeed MajoritySpec SmootherSpec Inputs MajorityFacts.

Lemma lastn_length {A} n (l : list A) : length (lastn n l) = Nat.min n (length l).
Proof. unfold lastn. rewrite length_drop. lia. Qed.

Lemma lastn_app_lastn {A} n (a b : list A) :
  lastn n (lastn n a ++ b) = lastn n (a ++ b).
Proof.
  unfold lastn at 2.
  rewrite <- (drop_app_le a b (length a - n)) by lia.
  unfold lastn. rewrite drop_drop, length_drop, length_app.
  f_equal. lia.
Qed.

Lemma strict_majority_selected g history :
  length history < 2 * occurrences g history ->
  select_majority (count_gestures history) = g.
Proof.
  intros Hmaj.
  destruct (select_majority_spec history) as [Hmax _].
  specialize (Hmax g). pose proof (occurrences_total history) as Htot.
  destruct (select_majority (count_gestures history)), g;
    try reflexivity; lia.
Qed.

Lemma window_majority_uncached g window :
  window_majority g window -> majority_uncached window = Some g.
Proof.
  intros [Hlen Hmaj]. unfold MIN_HISTORY_LENGTH in Hlen.
  destruct window as [|x window]; [simpl in Hlen; lia|].
  unfold majority_uncached. f_equal. apply strict_majority_selected, Hmaj.
Qed.

Section WithClassifier.

Context {Landmarks : Type}.
Variable inferGestureFromLandmarks : Landmarks -> spec_float -> GestureType.
Variable sensitivity : spec_float.

Local Abbreviation infer lm := (inferGestureFromLandmarks lm sensitivity).
Local Abbreviation processFrame := (processPoseResults inferGestureFromLandmarks).
Local Abbreviation observe1 := (observe inferGestureFromLandmarks sensitivity).
Local Abbreviation observeAll := (observe_all inferGestureFromLandmarks sensitivity).
Local Abbreviation observed := (SmootherSpec.observed inferGestureFromLandmarks sensitivity).
Local Abbreviation majority_throughout :=
  (SmootherSpec.majority_throughout inferGestureFromLandmarks sensitivity).

Lemma process_history lm s :
  gestureHistoryRef (processFrame (Some lm) sensitivity s)
  = pushed_history (gestureHistoryRef s) (infer lm).
Proof.
  unfold processPoseResults, pushed_history.
  destruct (MIN_HISTORY_LENGTH <=? _); [|reflexivity].
  destruct (computeMajorityGesture _ _) as [[g|] memo]; [|reflexivity].
  destruct (decide _); reflexivity.
Qed.

Lemma observe_history r s :
  gestureHistoryRef (observe1 s r)
  = match r with
    | Some lm => pushed_history (gestureHistoryRef s) (infer lm)
    | None => gestureHistoryRef s
    end.
Proof.
  unfold observe. simpl. destruct r; [apply process_history | reflexivity].
Qed.

Lemma pushed_history_lastn h g :
  length h <= MAX_HISTORY_LENGTH ->
  pushed_history h g = lastn MAX_HISTORY_LENGTH (h ++ [g]).
Proof.
  unfold pushed_history, lastn, MAX_HISTORY_LENGTH. intros Hlen.
  rewrite length_app. simpl length.
  destruct (Nat.ltb_spec 7 (length h + 1)).
  - replace (length h + 1 - 7) with 1 by lia.
    destruct h; reflexivity.
  - replace (length h + 1 - 7) with 0 by lia. reflexivity.
Qed.

Lemma pushed_history_length h g :
  length h <= length (pushed_history h g).
Proof.
  unfold pushed_history, MAX_HISTORY_LENGTH.
  destruct (Nat.ltb_spec 7 (length (h ++ [g]))) as [H|H].
  - destruct h; simpl; rewrite ?length_app; simpl; lia.
  - rewrite length_app. simpl. lia.
Qed.

Lemma observe_all_cons r frames s :
  observeAll (r :: frames) s = observeAll frames (observe1 s r).
Proof. reflexivity. Qed.

Lemma observe_all_history frames : forall s,
  length (gestureHistoryRef s) <= MAX_HISTORY_LENGTH ->
  gestureHistoryRef (observeAll frames s)
  = lastn MAX_HISTORY_LENGTH (gestureHistoryRef s ++ observed frames).
Proof.
  induction frames as [|r frames IH]; intros s Hlen.
  - simpl. rewrite app_nil_r. unfold lastn.
    replace (_ - _) with 0 by lia. reflexivity.
  - rewrite observe_all_cons, IH; rewrite observe_history.
    + destruct r as [lm|]; [|reflexivity].
      rewrite pushed_history_lastn by exact Hlen.
      rewrite lastn_app_lastn, <- app_assoc. reflexivity.
    + destruct r as [lm|]; [|exact Hlen].
      rewrite pushed_history_lastn by exact Hlen.
      rewrite lastn_length. lia.
Qed.

Lemma observe_all_history_grows frames : forall s,
  length (gestureHistoryRef s) <= length (gestureHistoryRef (observeAll frames s)).
Proof.
  induction frames as [|r frames IH]; intros s; [reflexivity|].
  rewrite observe_all_cons. etransitivity; [|apply IH].
  rewrite observe_history. destruct r; [apply pushed_history_length | reflexivity].
Qed.

(** What a frame with a pose does to the sink, from a consistent
    closure of [computeMajorityGesture]. *)
Lemma process_spec lm s :
  memo_consistent (majorityMemo s) ->
  let h := pushed_history (gestureHistoryRef s) (infer lm) in
  let s' := processFrame (Some lm) sensitivity s in
  memo_consistent (majorityMemo s')
  /\ currentGestureRef s' = currentGestureRef s
  /\ (if MIN_HISTORY_LENGTH <=? length h then
        match majority_uncached h with
        | Some m =>
            if decide (m = currentGestureRef s)
            then emitted s' = emitted s /\ currentGesture s' = currentGesture s
            else emitted s' = emitted s ++ [m] /\ currentGesture s' = m
        | None => emitted s' = emitted s /\ currentGesture s' = currentGesture s
        end
      else emitted s' = emitted s /\ currentGesture s' = currentGesture s).
Proof.
  intros Hm. unfold processPoseResults, pushed_history. cbv zeta.
  destruct (MIN_HISTORY_LENGTH <=? _); [|auto].
  match goal with
  | |- context [computeMajorityGesture ?h ?m] =>
      pose proof (computeMajorityGesture_result h m Hm) as Hr;
      pose proof (computeMajorityGesture_consistent h m Hm) as Hc;
      destruct (computeMajorityGesture h m) as [maj memo]
  end.
  simpl in Hr, Hc. rewrite <- Hr.
  destruct maj as [g|]; [|auto].
  destruct (decide (g = currentGestureRef s)); simpl; auto.
Qed.

Lemma process_below_min r s :
  length (gestureHistoryRef (processFrame r sensitivity s)) < MIN_HISTORY_LENGTH ->
  emitted (processFrame r sensitivity s) = emitted s
  /\ currentGesture (processFrame r sensitivity s) = currentGesture s.
Proof.
  destruct r as [lm|]; [|auto].
  rewrite process_history.
  unfold processPoseResults, pushed_history. cbv zeta. intros Hlen.
  destruct (Nat.leb_spec MIN_HISTORY_LENGTH
              (length (if MAX_HISTORY_LENGTH <? length (gestureHistoryRef s ++ [infer lm])
                       then tail (gestureHistoryRef s ++ [infer lm])
                       else gestureHistoryRef s ++ [infer lm]))); [lia|auto].
Qed.

Lemma observe_all_below_min frames : forall s,
  length (gestureHistoryRef (observeAll frames s)) < MIN_HISTORY_LENGTH ->
  emitted (observeAll frames s) = emitted s
  /\ currentGesture (observeAll frames s) = currentGesture s.
Proof.
  induction frames as [|r frames IH]; intros s Hlen; [auto|].
  rewrite observe_all_cons in *.
  pose proof (observe_all_history_grows frames (observe1 s r)) as Hgrow.
  destruct (IH _ Hlen) as [He Hc]. rewrite He, Hc.
  unfold observe. simpl. apply process_below_min.
  change (gestureHistoryRef (observe1 s r))
    with (gestureHistoryRef (processFrame r sensitivity s)) in Hgrow at 1. lia.
Qed.

Lemma observed_length frames : length (observed frames) <= length frames.
Proof.
  induction frames as [|[lm|] frames IH]; simpl; [lia| |]; unfold observed in *;
    simpl; lia.
Qed.

Lemma observe_fields r s :
  emitted (observe1 s r) = emitted (processFrame r sensitivity s)
  /\ currentGesture (observe1 s r) = currentGesture (processFrame r sensitivity s)
  /\ currentGestureRef (observe1 s r) = currentGesture (processFrame r sensitivity s)
  /\ majorityMemo (observe1 s r) = majorityMemo (processFrame r sensitivity s).
Proof. repeat split. Qed.

(** The hypotheses of the theorems on the smoother hold of every session
    that frames and key presses, each followed by a commit, lead to. *)
Lemma session_ok_initial : session_ok initial_session.
Proof. repeat split. unfold MAX_HISTORY_LENGTH. simpl. lia. Qed.

Lemma session_ok_observe r s : session_ok s -> session_ok (observe1 s r).
Proof.
  intros (Hm & Hlen & Hsync). unfold session_ok.
  rewrite observe_history.
  destruct (observe_fields r s) as (_ & -> & -> & ->).
  split; [|split; [|reflexivity]].
  - destruct r as [lm|]; [apply (process_spec lm s Hm) | exact Hm].
  - destruct r as [lm|]; [|exact Hlen].
    rewrite pushed_history_lastn by exact Hlen. rewrite lastn_length. lia.
Qed.

Lemma session_ok_key_press g s :
  session_ok s -> session_ok (syncCurrentGestureRef (handleKeyDown g s)).
Proof.
  intros (Hm & _ & _). repeat split; [exact Hm|].
  unfold MAX_HISTORY_LENGTH. simpl. lia.
Qed.

(** C5: as long as the history, after the frame's gesture has been
    appended, is shorter than [MIN_HISTORY_LENGTH], processing frames
    never calls [setGesture] and leaves the stable gesture as it was;
    in particular this is so for up to three frames processed on an empty
    history. *)
Theorem no_emission_below_min_history (s : Session) (frames : list (option Landmarks)) :
  (length (gestureHistoryRef (observeAll frames s)) < MIN_HISTORY_LENGTH ->
   emitted (observeAll frames s) = emitted s
   /\ currentGesture (observeAll frames s) = currentGesture s)
  /\ (gestureHistoryRef s = [] -> length frames < MIN_HISTORY_LENGTH ->
      emitted (observeAll frames s) = emitted s
      /\ currentGesture (observeAll frames s) = currentGesture s).
Proof.
  split; [apply observe_all_below_min|].
  intros Hempty Hfew. apply observe_all_below_min.
  rewrite observe_all_history by (rewrite Hempty; simpl; unfold MAX_HISTORY_LENGTH; lia).
  rewrite lastn_length, Hempty, app_nil_l.
  pose proof (observed_length frames). lia.
Qed.

(** C6: from a history of at most [MAX_HISTORY_LENGTH] entries, the
    history after any frames is the last [MAX_HISTORY_LENGTH] entries of
    what was there followed by what was observed, oldest first; it never
    has more than [MAX_HISTORY_LENGTH] entries, has exactly that many once
    that many gestures have been observed, and a gesture pushed on a full
    history drops the oldest entry and nothing else. *)
Theorem history_window_bounded (s : Session) (frames : list (option Landmarks)) :
  length (gestureHistoryRef s) <= MAX_HISTORY_LENGTH ->
  let s' := observeAll frames s in
  gestureHistoryRef s'
  = lastn MAX_HISTORY_LENGTH (gestureHistoryRef s ++ observed frames)
  /\ length (gestureHistoryRef s') <= MAX_HISTORY_LENGTH
  /\ (MAX_HISTORY_LENGTH <= length (observed frames) ->
      length (gestureHistoryRef s') = MAX_HISTORY_LENGTH)
  /\ (forall lm, length (gestureHistoryRef s') = MAX_HISTORY_LENGTH ->
        gestureHistoryRef (observe1 s' (Some lm))
        = tail (gestureHistoryRef s') ++ [infer lm]).
Proof.
  intros Hlen s'. subst s'.
  pose proof (observe_all_history frames s Hlen) as Hh.
  assert (length (gestureHistoryRef (observeAll frames s))
          = Nat.min MAX_HISTORY_LENGTH
              (length (gestureHistoryRef s) + length (observed frames))) as Hl
    by (rewrite Hh, lastn_length, length_app; reflexivity).
  split; [exact Hh|]. split; [lia|]. split; [lia|].
  intros lm Hfull. rewrite observe_history. unfold pushed_history.
  rewrite length_app. simpl length. rewrite Hfull.
  destruct (Nat.ltb_spec MAX_HISTORY_LENGTH (MAX_HISTORY_LENGTH + 1)); [|lia].
  destruct (gestureHistoryRef (observeAll frames s)); [discriminate|reflexivity].
Qed.

Lemma observe_majority g lm s :
  memo_consistent (majorityMemo s) ->
  currentGestureRef s = currentGesture s ->
  window_majority g (gestureHistoryRef (observe1 s (Some lm))) ->
  let s' := observe1 s (Some lm) in
  memo_consistent (majorityMemo s')
  /\ currentGestureRef s' = g /\ currentGesture s' = g
  /\ emitted s' = emitted s ++ (if decide (g = currentGesture s) then [] else [g]).
Proof.
  intros Hm Hsync Hwin. rewrite observe_history in Hwin.
  destruct (process_spec lm s Hm) as (Hm' & _ & Hsink).
  rewrite (window_majority_uncached _ _ Hwin) in Hsink.
  destruct Hwin as [Hmin _].
  destruct (Nat.leb_spec MIN_HISTORY_LENGTH
              (length (pushed_history (gestureHistoryRef s) (infer lm)))); [|lia].
  cbv zeta.
  destruct (observe_fields (Some lm) s) as (-> & -> & -> & ->).
  rewrite <- Hsync.
  destruct (decide (g = currentGestureRef s)) as [->|Hne];
    destruct Hsink as [He Hc]; rewrite He, Hc, ?app_nil_r; auto.
Qed.

Lemma observe_all_majority g frames : forall s,
  memo_consistent (majorityMemo s) ->
  currentGestureRef s = currentGesture s ->
  currentGesture s = g ->
  majority_throughout g frames s ->
  emitted (observeAll (map Some frames) s) = emitted s
  /\ currentGesture (observeAll (map Some frames) s) = g
  /\ currentGestureRef (observeAll (map Some frames) s) = g.
Proof.
  induction frames as [|lm frames IH]; intros s Hm Hsync Hcur Hmaj.
  - simpl. split; [reflexivity|]. split; congruence.
  - destruct Hmaj as [Hwin Hrest]. simpl map. rewrite observe_all_cons.
    destruct (observe_majority g lm s Hm Hsync Hwin) as (Hm' & Href & Hc & He).
    destruct (IH _ Hm' (eq_trans Href (eq_sym Hc)) Hc Hrest) as (He' & Hc' & Href').
    rewrite He', He, Hcur. destruct (decide (g = g)); [|congruence].
    rewrite app_nil_r. auto.
Qed.

(** A run in which React runs the effect after every frame ([observe]),
    from a session whose closure is consistent and whose ref holds the
    stable gesture.  A frame calls [setGesture] at most once, with the
    majority computed for its window, and only when that differs from the
    stable gesture.  When a gesture holds a strict majority of the window
    (of at least [MIN_HISTORY_LENGTH] entries) after each of a sequence of
    frames, the stable gesture after them is that gesture, and [setGesture]
    has been called with it once, on the first frame, if it was not the
    stable gesture already, and not at all otherwise. *)
Theorem stable_majority_emitted_once (g : GestureType) (lm : Landmarks)
    (frames : list Landmarks) (s : Session) :
  memo_consistent (majorityMemo s) ->
  currentGestureRef s = currentGesture s ->
  (emitted (observe1 s (Some lm)) = emitted s
   \/ exists m,
        majority_uncached (gestureHistoryRef (observe1 s (Some lm))) = Some m
        /\ m <> currentGesture s
        /\ emitted (observe1 s (Some lm)) = emitted s ++ [m]
        /\ currentGesture (observe1 s (Some lm)) = m)
  /\ (majority_throughout g (lm :: frames) s ->
      emitted (observeAll (map Some (lm :: frames)) s)
      = emitted s ++ (if decide (g = currentGesture s) then [] else [g])
      /\ currentGesture (observeAll (map Some (lm :: frames)) s) = g
      /\ emitted (observe1 s (Some lm))
         = emitted (observeAll (map Some (lm :: frames)) s)).
Proof.
  intros Hm Hsync. split.
  - rewrite observe_history.
    destruct (process_spec lm s Hm) as (_ & _ & Hsink).
    destruct (observe_fields (Some lm) s) as (-> & -> & _ & _).
    rewrite <- Hsync.
    destruct (MIN_HISTORY_LENGTH <=? _); [|left; apply Hsink].
    destruct (majority_uncached _) as [m|]; [|left; apply Hsink].
    destruct (decide (m = currentGestureRef s)); [left; apply Hsink|].
    right. exists m. destruct Hsink. auto.
  - intros [Hwin Hrest]. simpl map. rewrite observe_all_cons.
    destruct (observe_majority g lm s Hm Hsync Hwin) as (Hm' & Href & Hc & He).
    destruct (observe_all_majority g frames _ Hm' (eq_trans Href (eq_sym Hc)) Hc Hrest)
      as (He' & Hc' & _).
    rewrite He', He. auto.
Qed.

End WithClassifier.

Example scenario_next_next_next_rest :
  let s3 := observe_all shown Js.NaN [Some NEXT; Some NEXT; Some NEXT] initial_session in
  let s4 := observe shown Js.NaN s3 (Some REST) in
  emitted s3 = [] /\ emitted s4 = [NEXT] /\ currentGesture s4 = NEXT.
Proof. repeat split. Qed.

Lemma no_emission_below_min_history_witness :
  emitted (observe_all shown Js.NaN [Some NEXT; Some SELECT; Some NEXT] initial_session) = []
  /\ currentGesture (observe_all shown Js.NaN [Some NEXT; Some SELECT; Some NEXT]
                       initial_session) = REST.
Proof.
  apply (no_emission_below_min_history shown Js.NaN initial_session
           [Some NEXT; Some SELECT; Some NEXT]).
  - reflexivity.
  - unfold MIN_HISTORY_LENGTH. simpl. lia.
Defined.

Lemma history_window_bounded_witness :
  length (gestureHistoryRef
            (observe_all shown Js.NaN
               (map Some [REST; NEXT; NEXT; PREV; NEXT; NEXT; SELECT; NEXT])
               initial_session)) = MAX_HISTORY_LENGTH.
Proof.
  apply (history_window_bounded shown Js.NaN initial_session
           (map Some [REST; NEXT; NEXT; PREV; NEXT; NEXT; SELECT; NEXT])).
  - unfold MAX_HISTORY_LENGTH. simpl. lia.
  - unfold MAX_HISTORY_LENGTH. simpl. lia.
Defined.

Lemma stable_majority_emitted_once_witness :
  emitted (observe_all shown Js.NaN (map Some [REST; NEXT; PREV]) three_next) = [NEXT]
  /\ currentGesture (observe_all shown Js.NaN (map Some [REST; NEXT; PREV]) three_next) = NEXT
  /\ emitted (observe shown Js.NaN three_next (Some REST))
     = emitted (observe_all shown Js.NaN (map Some [REST; NEXT; PREV]) three_next).
Proof.
  apply (stable_majority_emitted_once shown Js.NaN NEXT REST [NEXT; PREV] three_next).
  - reflexivity.
  - reflexivity.
  - unfold SmootherSpec.majority_throughout, window_majority, MIN_HISTORY_LENGTH.
    vm_compute. repeat split; lia.
Defined.

(** C4 at five frames that show NEXT, processed from the mount before
    React has run the effect that stores the gesture in the ref.  NEXT
    holds a strict majority of the window from the fourth frame on.  The
    fourth frame calls [setGesture] with NEXT, which becomes the stable
    gesture, and the ref still holds REST; the fifth frame finds the
    majority different from the ref and calls [setGesture] with NEXT again.
    With a run of the effect between the two frames the fifth frame makes
    no call. *)
Theorem stale_ref_repeats_command :
  let mounted := CameraFeedSchedule.play shown Js.NaN Scenarios.four_next_frames
                   initial_session in
  let fifth := CameraFeedSchedule.Frame (Some NEXT) in
  window_majority NEXT (gestureHistoryRef mounted)
  /\ emitted mounted = [NEXT]
  /\ currentGesture mounted = NEXT
  /\ currentGestureRef mounted = REST
  /\ window_majority NEXT
       (gestureHistoryRef (CameraFeedSchedule.happen shown Js.NaN mounted fifth))
  /\ emitted (CameraFeedSchedule.happen shown Js.NaN mounted fifth) = [NEXT; NEXT]
  /\ emitted (CameraFeedSchedule.play shown Js.NaN [CameraFeedSchedule.Effect; fifth]
                mounted) = [NEXT].
Proof.
  cbv zeta. unfold window_majority, MIN_HISTORY_LENGTH.
  repeat split; vm_compute; try reflexivity; lia.
Qed.

End SmootherFacts.

(** ** Frame dispatch *)

Module DispatchFacts.
Import CameraFeed DispatchSpec Inputs.

Section WithClassifier.

Context {Landmarks : Type}.
Variable inferGestureFromLandmarks : Landmarks -> spec_float -> GestureType.
Variable numericSensitivity : Js.number.

Local Abbreviation onResults1 := (onResults inferGestureFromLandmarks numericSensitivity).
Local Abbreviation runFrames := (runAnimationFrames inferGestureFromLandmarks numericSensitivity).
Local Abbreviation run1 := (run inferGestureFromLandmarks numericSensitivity).
Local Abbreviation arriveAll := (arrive inferGestureFromLandmarks numericSensitivity).

Lemma scheduled_matches_initial : scheduled_matches (initial_dispatch (Landmarks:=Landmarks)).
Proof. reflexivity. Qed.

Lemma onResults_scheduled results now d :
  scheduled_matches d -> scheduled_matches (onResults1 results now d).
Proof.
  unfold scheduled_matches, onResults. intros Hd.
  destruct (budget_elapsed d now); simpl; [exact Hd|].
  destruct (globalRafId d) eqn:Hid; simpl; rewrite Hd; reflexivity.
Qed.

Lemma runAnimationFrames_scheduled now d :
  scheduled_matches d -> scheduled_matches (runFrames now d).
Proof.
  unfold scheduled_matches, runAnimationFrames. intros ->.
  destruct (globalRafId d); simpl; [|reflexivity].
  unfold animationFrameCallback. simpl.
  destruct (globalPendingResults d); reflexivity.
Qed.

Lemma cleanup_scheduled (d : Dispatch Landmarks) :
  scheduled_matches d -> scheduled_matches (cleanup d).
Proof.
  unfold scheduled_matches, cleanup. intros Hd.
  destruct (globalRafId d) as [h|]; simpl; [|exact Hd].
  rewrite Hd. rewrite filter_cons, filter_nil.
  destruct (decide (h <> h)); [congruence|reflexivity].
Qed.

Lemma run_scheduled events : forall d,
  scheduled_matches d -> scheduled_matches (run1 events d).
Proof.
  induction events as [|e events IH]; intros d Hd; [exact Hd|].
  apply IH. destruct e; simpl.
  - apply onResults_scheduled, Hd.
  - apply runAnimationFrames_scheduled, Hd.
  - apply cleanup_scheduled, Hd.
Qed.

Lemma scheduled_at_most_one (d : Dispatch Landmarks) :
  scheduled_matches d -> length (animationFrames d) <= 1.
Proof.
  unfold scheduled_matches. intros ->. destruct (globalRafId d); simpl; lia.
Qed.

(** A call that comes before the budget has elapsed. *)
Lemma onResults_early results now d :
  scheduled_matches d ->
  budget_elapsed d now = false ->
  let d' := onResults1 results now d in
  (exists h, globalRafId d' = Some h /\ animationFrames d' = [h])
  /\ (is_Some (globalRafId d) -> animationFrames d' = animationFrames d)
  /\ globalPendingResults d' = Some results
  /\ globalLastFrameTime d' = globalLastFrameTime d
  /\ processed d' = processed d
  /\ session d' = session d.
Proof.
  unfold scheduled_matches, onResults. intros Hd ->.
  destruct (globalRafId d) as [h|] eqn:Hid; cbn; rewrite ?Hid, Hd.
  - split; [exists h; auto|]. auto 7.
  - split; [exists (nextHandle d); auto|].
    split; [intros []; discriminate|]. auto.
Qed.

(** The host's rendering opportunity with one callback requested and
    results pending. *)
Lemma runAnimationFrames_pending now d h results :
  animationFrames d = [h] ->
  globalPendingResults d = Some results ->
  let d' := runFrames now d in
  processed d' = processed d ++ [results]
  /\ session d'
     = processPoseResults inferGestureFromLandmarks results numericSensitivity (session d)
  /\ animationFrames d' = [] /\ globalPendingResults d' = None
  /\ globalRafId d' = None.
Proof.
  unfold runAnimationFrames, animationFrameCallback. intros -> Hp. cbn.
  rewrite Hp. cbn. auto.
Qed.

Lemma budget_elapsed_same (d d' : Dispatch Landmarks) now :
  globalLastFrameTime d' = globalLastFrameTime d ->
  budget_elapsed d' now = budget_elapsed d now.
Proof. unfold budget_elapsed. intros ->. reflexivity. Qed.

(** Any number of results that come before the budget has elapsed. *)
Lemma arrive_early rest : forall r1 t1 (d : Dispatch Landmarks),
  scheduled_matches d ->
  Forall (fun frame => budget_elapsed d (snd frame) = false) ((r1, t1) :: rest) ->
  let d1 := onResults1 r1 t1 d in
  let dn := arriveAll rest d1 in
  animationFrames dn = animationFrames d1
  /\ globalPendingResults dn = Some (last_results r1 rest)
  /\ globalLastFrameTime dn = globalLastFrameTime d
  /\ processed dn = processed d
  /\ session dn = session d.
Proof.
  induction rest as [|[r2 t2] rest IH]; intros r1 t1 d Hd Hearly;
    inversion Hearly as [|? ? Hfirst Hrest]; subst; simpl in Hfirst.
  - destruct (onResults_early r1 t1 d Hd Hfirst) as (_ & _ & Hp & Ht & Hpr & Hs).
    unfold arrive. cbn [fold_left last_results]. auto.
  - destruct (onResults_early r1 t1 d Hd Hfirst) as ((h & Hid & Hq) & _ & _ & Ht & Hpr & Hs).
    cbv zeta. set (d1 := onResults1 r1 t1 d) in *.
    assert (scheduled_matches d1) as Hd1 by (apply onResults_scheduled, Hd).
    assert (Forall (fun frame => budget_elapsed d1 (snd frame) = false) ((r2, t2) :: rest))
      as Hearly1.
    { eapply Forall_impl; [exact Hrest|]. intros frame Hf. simpl.
      rewrite (budget_elapsed_same d d1) by exact Ht. exact Hf. }
    destruct (IH r2 t2 d1 Hd1 Hearly1) as (Hq' & Hp' & Ht' & Hpr' & Hs').
    inversion Hearly1 as [|? ? Hsecond _]; subst; simpl in Hsecond.
    destruct (onResults_early r2 t2 d1 Hd1 Hsecond) as (_ & Hsame & _).
    change (arriveAll ((r2, t2) :: rest) d1) with (arriveAll rest (onResults1 r2 t2 d1)).
    rewrite Hq', Hp', Ht', Hpr', Hs'.
    split; [apply Hsame; rewrite Hid; eauto|]. cbn [last_results].
    split; [reflexivity|].
    split; [congruence|]. split; congruence.
Qed.

(** Results that come when the budget has elapsed are processed at once;
    results that come early after them wait for the host's callback.  Both
    are processed, in the order of their arrival. *)
Lemma onResults_on_time_then_early r1 t1 r2 t2 t3 (d : Dispatch Landmarks) :
  scheduled_matches d ->
  budget_elapsed d t1 = true ->
  budget_elapsed (onResults1 r1 t1 d) t2 = false ->
  processed (onResults1 r1 t1 d) = processed d ++ [r1]
  /\ processed (runFrames t3 (onResults1 r2 t2 (onResults1 r1 t1 d)))
     = processed d ++ [r1; r2].
Proof.
  intros Hd Hnow Hearly.
  assert (scheduled_matches (onResults1 r1 t1 d)) as Hd1
    by (apply onResults_scheduled, Hd).
  destruct (onResults_early r2 t2 _ Hd1 Hearly) as ((h & _ & Hq) & _ & Hp & _ & Hpr & _).
  destruct (runAnimationFrames_pending t3 _ h r2 Hq Hp) as (Hp3 & _).
  rewrite Hp3, Hpr. unfold onResults at 1 2. rewrite Hnow. cbn.
  rewrite <- app_assoc. auto.
Qed.


End WithClassifier.


End DispatchFacts.

(** ** Progress storage *)

Module ProgressFacts.
Import Js LocalStorage ProgressStorage ProgressSpec Inputs.

Lemma storage_key_inj c1 c2 : storage_key c1 = storage_key c2 -> c1 = c2.
Proof. unfold storage_key. apply (inj (String.append STORAGE_PREFIX)). Qed.

Lemma eqb_empty_false s : s <> EmptyString -> String.eqb s EmptyString = false.
Proof. intros H. destruct (String.eqb_spec s EmptyString); congruence. Qed.

Lemma timers_agree_initial ls : timers_agree (initial_world ls).
Proof.
  unfold timers_agree, initial_world. simpl.
  split; [intros c t H; rewrite lookup_empty in H; discriminate|].
  split; [intros t due c H; rewrite lookup_empty in H; discriminate|].
  intros t _. apply lookup_empty.
Qed.

Lemma saveProgress_agree categoryId data w :
  timers_agree w -> timers_agree (saveProgress categoryId data w).
Proof.
  intros Hw. unfold saveProgress.
  destruct (String.eqb categoryId EmptyString); [exact Hw|].
  destruct Hw as (H1 & H2 & H3).
  unfold timers_agree. simpl.
  assert (timers w !! nextTimer w = None) as Hfresh by (apply H3; lia).
  split; [|split].
  - intros c t Hc. destruct (decide (categoryId = c)) as [->|Hne].
    + rewrite lookup_insert_eq in Hc. injection Hc as <-.
      rewrite !lookup_insert_eq. eauto.
    + rewrite lookup_insert_ne in Hc by exact Hne.
      rewrite lookup_insert_ne by exact Hne.
      destruct (H1 c t Hc) as [Hp [due Ht]]. split; [exact Hp|].
      exists due. rewrite lookup_insert_ne by congruence.
      destruct (debounceTimers w !! categoryId) as [old|] eqn:Hold; [|exact Ht].
      rewrite lookup_delete_ne; [exact Ht|].
      intros ->. destruct (H1 _ _ Hold) as [_ [due' Ht']]. congruence.
  - intros t due c Ht. destruct (decide (nextTimer w = t)) as [<-|Hne].
    + rewrite lookup_insert_eq in Ht. injection Ht as <- <-.
      apply lookup_insert_eq.
    + rewrite lookup_insert_ne in Ht by exact Hne.
      assert (timers w !! t = Some (due, c) /\ debounceTimers w !! categoryId <> Some t)
        as [Ht' Hnot].
      { destruct (debounceTimers w !! categoryId) as [old|] eqn:Hold.
        - destruct (decide (old = t)) as [->|Hne'].
          + rewrite lookup_delete_eq in Ht. discriminate.
          + rewrite lookup_delete_ne in Ht by exact Hne'. split; congruence.
        - split; [exact Ht | discriminate]. }
      pose proof (H2 _ _ _ Ht') as Hd.
      rewrite lookup_insert_ne; [exact Hd|]. congruence.
  - intros t Ht. rewrite lookup_insert_ne by lia.
    assert (timers w !! t = None) as Hn by (apply H3; lia).
    destruct (debounceTimers w !! categoryId); [|exact Hn].
    rewrite lookup_delete, Hn. destruct (decide _); reflexivity.
Qed.

(** What a due timer does, in a world whose maps agree. *)
Lemma fire_spec w t due categoryId :
  timers_agree w ->
  timers w !! t = Some (due, categoryId) ->
  (due <=? clock w)%Z = true ->
  exists data,
    pendingWrites w !! categoryId = Some data
    /\ debounceTimers w !! categoryId = Some t
    /\ step w (Fire t)
       = Some (mkWorld (delete categoryId (debounceTimers w))
                       (delete categoryId (pendingWrites w))
                       (delete t (timers w)) (nextTimer w) (clock w)
                       match setItem (storage_key categoryId)
                                     (JSON_stringify (progress_object data))
                                     (localStorage w) with
                       | Normal ls' => ls'
                       | Throw _ => localStorage w
                       end).
Proof.
  intros (H1 & H2 & H3) Ht Hdue.
  pose proof (H2 _ _ _ Ht) as Hd.
  destruct (H1 _ _ Hd) as [[data Hp] _].
  exists data. split; [exact Hp|]. split; [exact Hd|].
  unfold step. rewrite Ht, Hdue. unfold debouncedWriteProgress. simpl.
  rewrite Hp. reflexivity.
Qed.

Lemma step_agree w e w' :
  timers_agree w -> step w e = Some w' -> timers_agree w'.
Proof.
  intros Hw Hstep. destruct e as [c data|ms|t].
  - injection Hstep as <-. apply saveProgress_agree, Hw.
  - simpl in Hstep. destruct (0 <=? ms)%Z; [|discriminate].
    injection Hstep as <-. exact Hw.
  - destruct (timers w !! t) as [[due c]|] eqn:Ht;
      [|simpl in Hstep; rewrite Ht in Hstep; discriminate].
    destruct (due <=? clock w)%Z eqn:Hdue;
      [|simpl in Hstep; rewrite Ht, Hdue in Hstep; discriminate].
    destruct (fire_spec w t due c Hw Ht Hdue) as (data & Hp & Hd & Heq).
    rewrite Heq in Hstep. injection Hstep as <-.
    destruct Hw as (H1 & H2 & H3). unfold timers_agree. simpl.
    split; [|split].
    + intros c' t' Hc'.
      destruct (decide (c = c')) as [->|Hne];
        [rewrite lookup_delete_eq in Hc'; discriminate|].
      rewrite lookup_delete_ne in Hc' by exact Hne.
      rewrite lookup_delete_ne by exact Hne.
      destruct (H1 _ _ Hc') as [Hp' [due' Ht']]. split; [exact Hp'|].
      exists due'. rewrite lookup_delete_ne; [exact Ht'|]. congruence.
    + intros t' due' c' Ht'.
      destruct (decide (t = t')) as [->|Hne];
        [rewrite lookup_delete_eq in Ht'; discriminate|].
      rewrite lookup_delete_ne in Ht' by exact Hne.
      pose proof (H2 _ _ _ Ht') as Hd'.
      rewrite lookup_delete_ne; [exact Hd'|]. congruence.
    + intros t' Hle. rewrite lookup_delete, (H3 t' Hle).
      destruct (decide _); reflexivity.
Qed.

Lemma exec_agree events : forall w w',
  timers_agree w -> exec w events = Some w' -> timers_agree w'.
Proof.
  induction events as [|e events IH]; intros w w' Hw Hexec; simpl in Hexec.
  - injection Hexec as <-. exact Hw.
  - destruct (step w e) as [w1|] eqn:Hstep; [|discriminate].
    apply (IH w1 w' (step_agree _ _ _ Hw Hstep) Hexec).
Qed.

Lemma setItem_healthy key value ls :
  healthy ls ->
  setItem key value ls
  = Normal (mkStorage (<[key := value]> (items ls)) false false
                      (written ls ++ [(key, value)])).
Proof. intros [Hd Hf]. unfold setItem. rewrite Hd, Hf. reflexivity. Qed.

Lemma removeItem_allowed key ls :
  denied ls = false ->
  removeItem key ls
  = Normal (mkStorage (delete key (items ls)) (denied ls) (full ls) (written ls)).
Proof. intros Hd. unfold removeItem. rewrite Hd. reflexivity. Qed.

Lemma getItem_allowed key ls :
  denied ls = false -> getItem key ls = Normal (items ls !! key).
Proof. intros Hd. unfold getItem. rewrite Hd. reflexivity. Qed.

(** The validation of [loadProgress] on a parsed value of another
    shape: the entry is removed, or the reading of a property throws. *)
Lemma load_attempt_malformed key stored parsed ls :
  denied ls = false ->
  items ls !! key = Some stored ->
  stored <> EmptyString ->
  JSON_parse stored = Some parsed ->
  ~ has_progress_shape parsed ->
  load_attempt key ls
  = Normal (None, mkStorage (delete key (items ls)) (denied ls) (full ls) (written ls))
  \/ exists e, load_attempt key ls = Throw e.
Proof.
  intros Hd Hitem Hne Hparse Hshape. unfold load_attempt, parse_json.
  rewrite (getItem_allowed _ _ Hd). cbn [bind].
  rewrite Hitem, (eqb_empty_false _ Hne), Hparse, (removeItem_allowed _ _ Hd).
  cbn [bind].
  destruct parsed as [| |b|x|str|elements|properties];
    try (right; eexists; reflexivity); try (left; reflexivity).
  unfold and_then, typeof_is, get_property. cbn [bind].
  destruct (own_property "index" properties) as [i|] eqn:Hi; [|left; reflexivity].
  destruct i; try (left; reflexivity).
  destruct (own_property "completed" properties) as [c|] eqn:Hc; [|left; reflexivity].
  destruct c; try (left; reflexivity).
  destruct (own_property "showTranslation" properties) as [t|] eqn:Ht;
    [|left; reflexivity].
  destruct t; try (left; reflexivity).
  exfalso. apply Hshape. unfold has_progress_shape. eauto 10.
Qed.

(** C7, as the code has it: [loadProgress] never throws, whatever the
    storage holds or does; for the empty category it returns [null] and
    leaves the storage alone; and for any other category and a storage that
    can be read, a stored text that is not the empty string and is malformed
    makes [loadProgress] return [null] and remove the entry, leaving the
    rest of the storage as it was. *)
Theorem malformed_progress_removed (categoryId stored : string) (ls : Storage) :
  (exists r, fst (loadProgress categoryId ls) = Normal r)
  /\ (categoryId = EmptyString -> loadProgress categoryId ls = (Normal None, ls))
  /\ (categoryId <> EmptyString ->
      denied ls = false ->
      items ls !! storage_key categoryId = Some stored ->
      stored <> EmptyString ->
      malformed stored ->
      loadProgress categoryId ls
      = (Normal None,
         mkStorage (delete (storage_key categoryId) (items ls))
                   (denied ls) (full ls) (written ls))).
Proof.
  split; [|split].
  - unfold loadProgress. destruct (String.eqb categoryId EmptyString); [eauto|].
    cbv zeta. destruct (load_attempt _ ls) as [[r ls']|e]; eauto.
  - intros ->. reflexivity.
  - intros Hcat Hd Hitem Hne Hmal. unfold loadProgress.
    rewrite (eqb_empty_false _ Hcat). cbv zeta. fold (storage_key categoryId).
    unfold malformed in Hmal. destruct (JSON_parse stored) as [parsed|] eqn:Hparse.
    + destruct (load_attempt_malformed _ _ _ _ Hd Hitem Hne Hparse Hmal)
        as [-> | [e ->]]; [reflexivity|].
      rewrite (removeItem_allowed _ _ Hd). reflexivity.
    + unfold load_attempt, parse_json.
      rewrite (getItem_allowed _ _ Hd). cbn [bind].
      rewrite Hitem, (eqb_empty_false _ Hne), Hparse, (removeItem_allowed _ _ Hd).
      reflexivity.
Qed.

Lemma malformed_progress_removed_witness :
  loadProgress "animals" garbled
  = (Normal None,
     mkStorage (delete (storage_key "animals") (items garbled))
               (denied garbled) (full garbled) (written garbled)).
Proof.
  apply (malformed_progress_removed "animals" "{index: 3" garbled).
  - discriminate.
  - reflexivity.
  - reflexivity.
  - discriminate.
  - vm_compute. exact I.
Defined.

(** C7 fails as stated.  An entry whose text is the empty string is no
    JSON text, and an entry under the prefix alone may hold text that is
    none; in both cases [loadProgress] returns [null] and leaves the storage
    as it is, the entry included. *)
Lemma malformed_entries_left_in_place :
  (items empty_entry !! storage_key "animals" = Some EmptyString
   /\ malformed EmptyString
   /\ loadProgress "animals" empty_entry = (Normal None, empty_entry))
  /\ (items garbled_no_category !! storage_key EmptyString = Some "{index: 3"
      /\ malformed "{index: 3"
      /\ loadProgress EmptyString garbled_no_category = (Normal None, garbled_no_category)).
Proof.
  split; (split; [reflexivity|]; split; [vm_compute; exact I | reflexivity]).
Qed.

(** *** The debounced write *)

Lemma saveProgress_spec categoryId data w :
  categoryId <> EmptyString ->
  let w1 := saveProgress categoryId data w in
  localStorage w1 = localStorage w
  /\ clock w1 = clock w
  /\ nextTimer w1 = Pos.succ (nextTimer w)
  /\ pendingWrites w1 !! categoryId = Some data
  /\ debounceTimers w1 !! categoryId = Some (nextTimer w)
  /\ timers w1 !! nextTimer w = Some ((clock w + DEBOUNCE_MS)%Z, categoryId).
Proof.
  intros Hcat. unfold saveProgress. rewrite (eqb_empty_false _ Hcat). simpl.
  rewrite !lookup_insert_eq. auto 7.
Qed.

Lemma burst_exec categoryId rest : forall first w,
  categoryId <> EmptyString ->
  timers_agree w ->
  Forall (fun call => (0 <= fst call < DEBOUNCE_MS)%Z) rest ->
  exists w1 t,
    exec w (burst categoryId first rest) = Some w1
    /\ timers_agree w1
    /\ localStorage w1 = localStorage w
    /\ pendingWrites w1 !! categoryId = Some (last_value first rest)
    /\ debounceTimers w1 !! categoryId = Some t
    /\ timers w1 !! t = Some ((clock w1 + DEBOUNCE_MS)%Z, categoryId).
Proof.
  induction rest as [|[delay data] rest IH]; intros first w Hcat Hw Hquiet.
  - destruct (saveProgress_spec categoryId first w Hcat) as (Hls & Hclock & _ & Hp & Hd & Ht).
    exists (saveProgress categoryId first w), (nextTimer w). simpl.
    split; [reflexivity|]. split; [apply saveProgress_agree, Hw|].
    rewrite Hclock. auto.
  - inversion Hquiet as [|? ? Hdelay Hrest]; subst. simpl in Hdelay.
    set (w0 := saveProgress categoryId first w).
    set (w0' := mkWorld (debounceTimers w0) (pendingWrites w0) (timers w0)
                        (nextTimer w0) (clock w0 + delay)%Z (localStorage w0)).
    assert (timers_agree w0) as Hw0 by (apply saveProgress_agree, Hw).
    assert (timers_agree w0') as Hw0' by exact Hw0.
    destruct (IH data w0' Hcat Hw0' Hrest) as (w1 & t & Hexec & Hw1 & Hls & Hp & Hd & Ht).
    exists w1, t. split.
    + change (burst categoryId first ((delay, data) :: rest))
        with (Save categoryId first :: Wait delay :: burst categoryId data rest).
      change (exec w (Save categoryId first :: Wait delay :: burst categoryId data rest))
        with (match step w0 (Wait delay) with
              | Some w' => exec w' (burst categoryId data rest)
              | None => None
              end).
      simpl step. destruct (Z.leb_spec 0 delay); [exact Hexec | lia].
    + split; [exact Hw1|]. split; [|auto].
      rewrite Hls. subst w0' w0. simpl.
      apply (saveProgress_spec categoryId first w Hcat).
Qed.

(** C3: let [saveProgress] be called for one category, which is not the
    empty string, once and then again any number of times, each call less
    than [DEBOUNCE_MS] after the one before, in a world whose maps agree
    and whose storage takes writes.  Nothing is written during the calls.
    After them the host runs one timer for the category, due
    [DEBOUNCE_MS] after the last call, which cannot fire earlier; when it
    fires, one entry is written, under the key of the category and with
    the serialised value of the last call, and neither a timer nor a
    pending write for the category is left. *)
Theorem debounced_burst_writes_last (categoryId : string) (first : LessonProgress)
    (rest : list (Z * LessonProgress)) (w : World) :
  categoryId <> EmptyString ->
  timers_agree w ->
  healthy (localStorage w) ->
  Forall (fun call => (0 <= fst call < DEBOUNCE_MS)%Z) rest ->
  exists w1 t,
    exec w (burst categoryId first rest) = Some w1
    /\ written (localStorage w1) = written (localStorage w)
    /\ timers w1 !! t = Some ((clock w1 + DEBOUNCE_MS)%Z, categoryId)
    /\ (forall t' due, timers w1 !! t' = Some (due, categoryId) -> t' = t)
    /\ (forall delay, (0 <= delay < DEBOUNCE_MS)%Z ->
          exec w1 [Wait delay; Fire t] = None)
    /\ (forall delay, (DEBOUNCE_MS <= delay)%Z ->
          exists w2,
            exec w1 [Wait delay; Fire t] = Some w2
            /\ written (localStorage w2)
               = written (localStorage w)
                 ++ [(storage_key categoryId,
                      JSON_stringify (progress_object (last_value first rest)))]
            /\ items (localStorage w2) !! storage_key categoryId
               = Some (JSON_stringify (progress_object (last_value first rest)))
            /\ (forall t' due, timers w2 !! t' <> Some (due, categoryId))
            /\ pendingWrites w2 !! categoryId = None
            /\ debounceTimers w2 !! categoryId = None).
Proof.
  intros Hcat Hw Hls Hquiet.
  destruct (burst_exec categoryId rest first w Hcat Hw Hquiet)
    as (w1 & t & Hexec & Hw1 & Hsame & Hp & Hd & Ht).
  exists w1, t. split; [exact Hexec|]. split; [rewrite Hsame; reflexivity|].
  split; [exact Ht|].
  assert (forall t' due, timers w1 !! t' = Some (due, categoryId) -> t' = t) as Hone.
  { intros t' due Ht'. destruct Hw1 as (_ & H2 & _).
    pose proof (H2 _ _ _ Ht') as Hd'. congruence. }
  split; [exact Hone|]. unfold DEBOUNCE_MS in *. split.
  - intros delay Hdelay. simpl. destruct (Z.leb_spec 0 delay); [|lia].
    simpl. rewrite Ht. destruct (Z.leb_spec (clock w1 + 200) (clock w1 + delay)); [lia|].
    reflexivity.
  - intros delay Hdelay.
    set (w1' := mkWorld (debounceTimers w1) (pendingWrites w1) (timers w1)
                        (nextTimer w1) (clock w1 + delay)%Z (localStorage w1)).
    assert (step w1 (Wait delay) = Some w1') as Hwait
      by (simpl; destruct (Z.leb_spec 0 delay); [reflexivity | lia]).
    assert ((clock w1 + 200 <=? clock w1')%Z = true) as Hdue
      by (apply Z.leb_le; simpl; lia).
    destruct (fire_spec w1' t _ categoryId Hw1 Ht Hdue) as (data & Hp' & _ & Hfire).
    change (pendingWrites w1') with (pendingWrites w1) in Hp'.
    assert (data = last_value first rest) as -> by congruence.
    rewrite setItem_healthy in Hfire by (simpl; rewrite Hsame; exact Hls).
    eexists. split.
    + change (exec w1 [Wait delay; Fire t])
        with (match step w1 (Wait delay) with
              | Some w' => match step w' (Fire t) with
                           | Some w'' => Some w''
                           | None => None
                           end
              | None => None
              end).
      rewrite Hwait, Hfire. reflexivity.
    + simpl. rewrite Hsame, lookup_insert_eq, !lookup_delete_eq.
      split; [reflexivity|]. split; [reflexivity|]. split; [|auto].
      intros t' due Ht'. destruct (decide (t = t')) as [->|Hne].
      * rewrite lookup_delete_eq in Ht'. discriminate.
      * rewrite lookup_delete_ne in Ht' by exact Hne.
        apply Hone in Ht'. congruence.
Qed.

Lemma debounced_burst_writes_last_witness :
  exists w1 t,
    exec (initial_world empty_storage)
         (burst "animals" animals_first [(50%Z, animals_second)]) = Some w1
    /\ written (localStorage w1) = []
    /\ timers w1 !! t = Some ((clock w1 + DEBOUNCE_MS)%Z, "animals")
    /\ (forall t' due, timers w1 !! t' = Some (due, "animals") -> t' = t)
    /\ (forall delay, (0 <= delay < DEBOUNCE_MS)%Z ->
          exec w1 [Wait delay; Fire t] = None)
    /\ (forall delay, (DEBOUNCE_MS <= delay)%Z ->
          exists w2,
            exec w1 [Wait delay; Fire t] = Some w2
            /\ written (localStorage w2)
               = [] ++ [(storage_key "animals",
                         JSON_stringify (progress_object animals_second))]
            /\ items (localStorage w2) !! storage_key "animals"
               = Some (JSON_stringify (progress_object animals_second))
            /\ (forall t' due, timers w2 !! t' <> Some (due, "animals"))
            /\ pendingWrites w2 !! "animals" = None
            /\ debounceTimers w2 !! "animals" = None).
Proof.
  apply (debounced_burst_writes_last "animals" animals_first
           [(50%Z, animals_second)] (initial_world empty_storage)).
  - discriminate.
  - apply timers_agree_initial.
  - split; reflexivity.
  - repeat constructor; simpl; unfold DEBOUNCE_MS; lia.
Defined.

(** The scenario of the design document: a request with index 2, one
    with index 3 after 50 ms, the timer 200 ms later; the storage holds one
    value, with index 3, and one write has been made. *)
Example scenario_two_requests :
  match exec (initial_world empty_storage)
             [Save "animals" animals_first; Wait 50; Save "animals" animals_second;
              Wait 200; Fire 2%positive] with
  | Some w =>
      map_to_list (items (localStorage w))
      = [("progress:animals", JSON_stringify (progress_object animals_second))]
      /\ length (written (localStorage w)) = 1
      /\ fst (loadProgress "animals" (localStorage w)) = Normal (Some animals_second)
  | None => False
  end.
Proof. vm_compute. auto. Qed.

(** *** Saving, then loading *)

Lemma progress_state_step categoryId v t0 fired w e w' :
  progress_state categoryId v t0 fired w ->
  other_request categoryId e ->
  step w e = Some w' ->
  exists fired',
    progress_state categoryId v t0 fired' w'
    /\ (fired = true -> fired' = true)
    /\ (e = Fire t0 -> fired' = true).
Proof.
  intros (Hw & Hls & Hlt & Hst) Hother Hstep.
  pose proof (step_agree _ _ _ Hw Hstep) as Hw'.
  destruct e as [c data|ms|t].
  - (* a request for another category *)
    assert (c <> categoryId) as Hc by (intros ->; apply (Hother data); reflexivity).
    injection Hstep as <-. exists fired.
    split; [|split; [auto | discriminate]].
    split; [exact Hw'|]. unfold saveProgress in *.
    destruct (String.eqb c EmptyString); [auto|]. simpl.
    split; [exact Hls|]. split; [lia|].
    destruct fired.
    + destruct Hst as (Hd & Ht & Hi). rewrite lookup_insert_ne by exact Hc.
      split; [exact Hd|]. split; [|exact Hi].
      rewrite lookup_insert_ne by lia.
      destruct (debounceTimers w !! c); [|exact Ht].
      rewrite lookup_delete, Ht. destruct (decide _); reflexivity.
    + destruct Hst as (Hp & Hd). rewrite !lookup_insert_ne by exact Hc. auto.
  - (* time passes *)
    simpl in Hstep. destruct (0 <=? ms)%Z; [|discriminate].
    injection Hstep as <-. exists fired.
    split; [|split; [auto | discriminate]].
    split; [exact Hw|]. split; [exact Hls|]. split; [exact Hlt|].
    destruct fired; exact Hst.
  - (* a timer fires *)
    destruct (timers w !! t) as [[due c]|] eqn:Ht;
      [|simpl in Hstep; rewrite Ht in Hstep; discriminate].
    destruct (due <=? clock w)%Z eqn:Hdue;
      [|simpl in Hstep; rewrite Ht, Hdue in Hstep; discriminate].
    destruct (fire_spec w t due c Hw Ht Hdue) as (data & Hp & Hd & Heq).
    rewrite Heq in Hstep. injection Hstep as <-.
    rewrite (setItem_healthy _ _ _ Hls) in *.
    destruct fired.
    + destruct Hst as (Hnone & Ht0 & Hi). exists true.
      split; [|auto].
      assert (c <> categoryId) as Hc by congruence.
      split; [exact Hw'|]. simpl.
      split; [split; reflexivity|]. split; [exact Hlt|].
      rewrite lookup_delete_ne by exact Hc.
      split; [exact Hnone|]. split.
      * rewrite lookup_delete, Ht0. destruct (decide _); reflexivity.
      * rewrite lookup_insert_ne; [exact Hi|].
        intros Hk. apply storage_key_inj in Hk. congruence.
    + destruct Hst as (Hpend & Hd0).
      destruct (decide (c = categoryId)) as [->|Hc].
      * assert (t = t0) as -> by congruence.
        assert (data = v) as -> by congruence.
        exists true. split; [|auto].
        split; [exact Hw'|]. simpl.
        split; [split; reflexivity|]. split; [exact Hlt|].
        rewrite !lookup_delete_eq, lookup_insert_eq. auto.
      * exists false. split; [|split; [discriminate|]].
        -- split; [exact Hw'|]. simpl.
           split; [split; reflexivity|]. split; [exact Hlt|].
           rewrite !lookup_delete_ne by exact Hc. auto.
        -- intros Heq'. injection Heq' as ->.
           destruct Hw as (H1 & _ & _).
           destruct (H1 _ _ Hd0) as [_ [due' Ht0]]. congruence.
Qed.

Lemma progress_state_exec categoryId v t0 events : forall fired w w',
  progress_state categoryId v t0 fired w ->
  Forall (other_request categoryId) events ->
  exec w events = Some w' ->
  exists fired',
    progress_state categoryId v t0 fired' w'
    /\ (fired = true -> fired' = true)
    /\ (In (Fire t0) events -> fired' = true).
Proof.
  induction events as [|e events IH]; intros fired w w' Hst Hall Hexec.
  - injection Hexec as <-. exists fired. split; [exact Hst|]. split; [auto|intros []].
  - inversion Hall as [|? ? He Hrest]; subst. simpl in Hexec.
    destruct (step w e) as [w1|] eqn:Hstep; [|discriminate].
    destruct (progress_state_step _ _ _ _ _ _ _ Hst He Hstep) as (f1 & Hst1 & Hkeep1 & Hfire1).
    destruct (IH f1 w1 w' Hst1 Hrest Hexec) as (f2 & Hst2 & Hkeep2 & Hfire2).
    exists f2. split; [exact Hst2|]. split; [auto|].
    intros [Heq|Hin]; auto.
Qed.

(** What [loadProgress] returns for an entry that [debouncedWriteProgress]
    wrote, when the text reads back as the object it was made from. *)
Lemma loadProgress_written categoryId v ls :
  categoryId <> EmptyString ->
  denied ls = false ->
  JSON_parse (JSON_stringify (progress_object v)) = Some (progress_object v) ->
  items ls !! storage_key categoryId = Some (JSON_stringify (progress_object v)) ->
  loadProgress categoryId ls = (Normal (Some v), ls).
Proof.
  intros Hcat Hd Hround Hitem. unfold loadProgress.
  rewrite (eqb_empty_false _ Hcat). cbv zeta. fold (storage_key categoryId).
  unfold load_attempt, parse_json. rewrite (getItem_allowed _ _ Hd). cbn [bind].
  rewrite Hitem.
  assert (JSON_stringify (progress_object v) <> EmptyString) as Hne.
  { intros Hempty. rewrite Hempty in Hround. vm_compute in Hround. discriminate. }
  rewrite (eqb_empty_false _ Hne), Hround.
  destruct v as [i c t]. reflexivity.
Qed.

Lemma reads_back_sound v :
  reads_back v = true ->
  JSON_parse (JSON_stringify (progress_object v)) = Some (progress_object v).
Proof.
  unfold reads_back.
  destruct (JSON_parse _) as [[| | | | | |[|[k1 [| | |x| | |]] [|[k2 [| |c| | | |]]
                                 [|[k3 [| |t| | | |]] [|]]]]]|];
    try discriminate.
  rewrite !andb_true_iff, !String.eqb_eq, bool_decide_eq_true.
  intros [[[[[-> ->] ->] ->] Hc] Ht].
  apply Bool.eqb_prop in Hc, Ht. subst. destruct v. reflexivity.
Qed.

(** The serialisation reads back for the card indices 0 to 999. *)
Lemma small_index_reads_back (n : nat) (c t : bool) :
  n < 1000 ->
  JSON_parse (JSON_stringify (progress_object (mkLessonProgress (of_Z (Z.of_nat n)) c t)))
  = Some (progress_object (mkLessonProgress (of_Z (Z.of_nat n)) c t)).
Proof.
  intros Hn. apply reads_back_sound.
  assert (forallb (fun k => forallb reads_back (with_index (of_Z (Z.of_nat k))))
                  (seq 0 1000) = true) as Hall by (vm_compute; reflexivity).
  rewrite forallb_forall in Hall.
  assert (In n (seq 0 1000)) as Hin by (apply in_seq; lia).
  specialize (Hall n Hin). rewrite forallb_forall in Hall. apply Hall.
  unfold with_index. destruct c, t; cbn [In]; auto.
Qed.

(** It does not read back when the index is NaN or an infinity. *)
Lemma nonfinite_index_unreadable v :
  isFinite (index v) = false ->
  JSON_parse (JSON_stringify (progress_object v)) <> Some (progress_object v).
Proof.
  destruct v as [[s|s| |s m e] c t]; simpl; try discriminate; intros _;
    try destruct s; destruct c, t; vm_compute; discriminate.
Qed.

(** C10, as the code has it: let [saveProgress] be called for a category
    that is not the empty string with a value whose serialisation reads
    back as the object it was made from (an index of NaN or of an infinity
    is written as [null] and does not), in a world whose maps agree and
    whose storage takes reads and writes.  After any events that include
    the firing of the timer this call has set and no further call of
    [saveProgress] for the category, [loadProgress] returns the value, and
    leaves the storage as it is. *)
Theorem save_then_load (categoryId : string) (v : LessonProgress)
    (w w' : World) (events : list Event) :
  categoryId <> EmptyString ->
  timers_agree w ->
  healthy (localStorage w) ->
  JSON_parse (JSON_stringify (progress_object v)) = Some (progress_object v) ->
  Forall (other_request categoryId) events ->
  In (Fire (nextTimer w)) events ->
  exec (saveProgress categoryId v w) events = Some w' ->
  loadProgress categoryId (localStorage w') = (Normal (Some v), localStorage w').
Proof.
  intros Hcat Hw Hls Hround Hall Hfire Hexec.
  destruct (saveProgress_spec categoryId v w Hcat) as (Hsame & _ & Hnext & Hp & Hd & _).
  assert (progress_state categoryId v (nextTimer w) false (saveProgress categoryId v w))
    as Hst.
  { split; [apply saveProgress_agree, Hw|]. split; [rewrite Hsame; exact Hls|].
    split; [lia|]. auto. }
  destruct (progress_state_exec _ _ _ _ _ _ _ Hst Hall Hexec) as (fired & Hst' & _ & Hf).
  rewrite (Hf Hfire) in Hst'. destruct Hst' as (_ & [Hden _] & _ & _ & _ & Hitem).
  apply loadProgress_written; assumption.
Qed.

Lemma save_then_load_witness :
  loadProgress "animals" (localStorage after_one_request)
  = (Normal (Some animals_second), localStorage after_one_request).
Proof.
  apply (save_then_load "animals" animals_second (initial_world empty_storage)
           after_one_request one_request).
  - discriminate.
  - apply timers_agree_initial.
  - split; reflexivity.
  - vm_compute. reflexivity.
  - repeat constructor; intros data; discriminate.
  - right. left. reflexivity.
  - vm_compute. reflexivity.
Defined.

(** C10 fails as stated: an index of NaN is written as [null], which
    [loadProgress] rejects.  After [saveProgress] with such a value and the
    firing of its timer, the entry holds the text with [null], and
    [loadProgress] returns [null] and removes the entry. *)
Lemma nan_index_not_restored :
  exec (saveProgress "animals" animals_nan (initial_world empty_storage)) one_request
  = Some after_nan_request
  /\ JSON_parse (JSON_stringify (progress_object animals_nan))
     = Some (JObject [("index", JNull); ("completed", JBool false);
                      ("showTranslation", JBool true)])
  /\ items (localStorage after_nan_request) !! storage_key "animals"
     = Some (JSON_stringify (progress_object animals_nan))
  /\ fst (loadProgress "animals" (localStorage after_nan_request)) = Normal None
  /\ items (snd (loadProgress "animals" (localStorage after_nan_request)))
       !! storage_key "animals" = None.
Proof. vm_compute. auto 6. Qed.

End ProgressFacts.

(** ** The stored gesture sensitivity *)

Module SensitivityFacts.
Import Js LocalStorage SettingsPanel Inputs.

(** The camera feed's initial sensitivity is a number between 0 and 1,
    whatever the storage holds or does. *)
Lemma initialNumericSensitivity_in_range (ls : Storage) :
  let r := CameraFeed.initialNumericSensitivity ls in
  isNaN r = false /\ ge r (of_Z 0) = true /\ le r (of_Z 1) = true.
Proof.
  assert (isNaN (of_decimal false 12 (-2)) = false
          /\ ge (of_decimal false 12 (-2)) (of_Z 0) = true
          /\ le (of_decimal false 12 (-2)) (of_Z 1) = true) as Hdefault
    by (vm_compute; auto).
  unfold CameraFeed.initialNumericSensitivity.
  destruct (getItem "gestureSensitivity" ls) as [[stored|]|e];
    [|exact Hdefault|exact Hdefault].
  cbv zeta. generalize (parseFloat stored). intros parsed.
  destruct (isNaN parsed) eqn:Hnan; [exact Hdefault|].
  destruct (ge parsed (of_Z 0)) eqn:Hge; [|exact Hdefault].
  destruct (le parsed (of_Z 1)) eqn:Hle; [|exact Hdefault].
  cbn [negb andb]. auto.
Qed.

(** The panel's loader falls back to the default for an absent entry, for
    a text that is no number, and for a storage that cannot be read. *)
Lemma loadNumberFromStorage_default key defaultValue (ls : Storage) :
  (getItem key ls = Normal None \/ (exists e, getItem key ls = Throw e)
   \/ exists stored, getItem key ls = Normal (Some stored)
                     /\ isNaN (parseFloat stored) = true) ->
  loadNumberFromStorage key defaultValue ls = defaultValue.
Proof.
  unfold loadNumberFromStorage.
  intros [-> | [[e ->] | (stored & -> & Hnan)]]; try reflexivity.
  cbv zeta. rewrite Hnan. reflexivity.
Qed.

(** C8 at a stored sensitivity of 5: the settings panel's loader returns
    5, which is above 1, where the camera feed's initialiser returns the
    default; and the panel writes the 5 back. *)
Theorem panel_sensitivity_out_of_range :
  initialGestureSensitivity stored_five = of_Z 5
  /\ le (initialGestureSensitivity stored_five) (of_Z 1) = false
  /\ CameraFeed.initialNumericSensitivity stored_five = DEFAULT_GESTURE_SENSITIVITY
  /\ items (saveToStorage GESTURE_SENSITIVITY (initialGestureSensitivity stored_five)
                          stored_five) !! GESTURE_SENSITIVITY = Some "5".
Proof. vm_compute. auto. Qed.

End SensitivityFacts.

(** ** The majority vote: what is returned *)

Module VoteFacts.
Import CameraFeed MajoritySpec MajorityFacts.

Lemma occurrences_pos_In g h : 0 < occurrences g h <-> In g h.
Proof.
  induction h as [|x h IH]; simpl; [split; [lia|tauto]|].
  destruct (decide (x = g)) as [->|Hne].
  - split; [auto|lia].
  - rewrite Nat.add_0_l, IH. split; [auto|]. intros [?|?]; [congruence|auto].
Qed.

Lemma occurrences_Permutation g h1 h2 :
  h1 ≡ₚ h2 -> occurrences g h1 = occurrences g h2.
Proof.
  induction 1; simpl; try lia.
Qed.

Lemma spec_majority_counts h1 h2 :
  (forall g, occurrences g h1 = occurrences g h2) ->
  spec_majority h1 = spec_majority h2.
Proof.
  intros Heq. unfold spec_majority, enumeration. simpl.
  rewrite !Heq. 
  repeat match goal with |- context [occurrences ?a h1] => rewrite (Heq a) end.
  reflexivity.
Qed.

(** X1: [computeMajorityGesture] never reports a gesture that the window
    does not contain: on a closure whose cache is consistent, a result is
    one of the entries of the history, and there is no result exactly for
    the empty history. *)
Theorem majority_was_observed (history : list GestureType) (m : Memo) :
  memo_consistent m ->
  match fst (computeMajorityGesture history m) with
  | Some g => In g history
  | None => history = []
  end.
Proof.
  intros Hm. rewrite computeMajorityGesture_result by exact Hm.
  destruct history as [|x rest]; [reflexivity|].
  unfold majority_uncached.
  pose proof (select_majority_spec (x :: rest)) as [Hmax _].
  apply occurrences_pos_In.
  specialize (Hmax x).
  assert (0 < occurrences x (x :: rest))
    by (simpl; rewrite decide_True by reflexivity; lia).
  lia.
Qed.

(** X2: the majority depends on how often each gesture occurs, not on the
    order of the window: two histories that are permutations of each other
    get the same result, whatever consistent caches the calls find. *)
Theorem majority_order_irrelevant (h1 h2 : list GestureType) (m1 m2 : Memo) :
  h1 ≡ₚ h2 ->
  memo_consistent m1 -> memo_consistent m2 ->
  fst (computeMajorityGesture h1 m1) = fst (computeMajorityGesture h2 m2).
Proof.
  intros Hp H1 H2. rewrite !computeMajorityGesture_result by assumption.
  unfold majority_uncached.
  destruct h1 as [|x1 r1], h2 as [|x2 r2]; try reflexivity.
  - apply Permutation_nil_cons in Hp. destruct Hp.
  - symmetry in Hp. apply Permutation_nil_cons in Hp. destruct Hp.
  - rewrite !select_majority_spec_majority. f_equal.
    apply spec_majority_counts. intros g. apply occurrences_Permutation, Hp.
Qed.

Lemma majority_was_observed_witness :
  match fst (computeMajorityGesture [PREV; NEXT; NEXT] initial_memo) with
  | Some g => In g [PREV; NEXT; NEXT]
  | None => [PREV; NEXT; NEXT] = []
  end.
Proof.
  apply (majority_was_observed [PREV; NEXT; NEXT] initial_memo).
  reflexivity.
Defined.

Lemma majority_order_irrelevant_witness :
  fst (computeMajorityGesture [NEXT; PREV; NEXT] initial_memo)
  = fst (computeMajorityGesture [PREV; NEXT; NEXT] initial_memo).
Proof.
  apply (majority_order_irrelevant [NEXT; PREV; NEXT] [PREV; NEXT; NEXT]
           initial_memo initial_memo).
  - apply perm_swap.
  - reflexivity.
  - reflexivity.
Defined.

End VoteFacts.

(** ** The temporal smoother: stability *)

Module StabilityFacts.
Import CameraFeed MajoritySpec SmootherSpec MajorityFacts SmootherFacts.

Lemma occurrences_replicate g n : occurrences g (replicate n g) = n.
Proof.
  induction n as [|n IH]; simpl; [reflexivity|].
  rewrite decide_True by reflexivity. lia.
Qed.

Lemma occurrences_tail g h : occurrences g h <= S (occurrences g (tail h)).
Proof. destruct h as [|x h]; simpl; [lia|]. destruct (decide (x = g)); lia. Qed.

Section WithClassifier.

Context {Landmarks : Type}.
Variable inferGestureFromLandmarks : Landmarks -> spec_float -> GestureType.
Variable sensitivity : spec_float.

Local Abbreviation infer lm := (inferGestureFromLandmarks lm sensitivity).
Local Abbreviation processFrame := (processPoseResults inferGestureFromLandmarks).
Local Abbreviation observe1 := (observe inferGestureFromLandmarks sensitivity).
Local Abbreviation observeAll := (observe_all inferGestureFromLandmarks sensitivity).
Local Abbreviation observed := (SmootherSpec.observed inferGestureFromLandmarks sensitivity).
Local Abbreviation majority_throughout :=
  (SmootherSpec.majority_throughout inferGestureFromLandmarks sensitivity).

Lemma tail_length {A} (l : list A) : length (tail l) = length l - 1.
Proof. destruct l; simpl; lia. Qed.

Lemma pushed_full h x :
  length h = MAX_HISTORY_LENGTH -> pushed_history h x = tail h ++ [x].
Proof.
  intros Hlen. unfold pushed_history. rewrite length_app, Hlen. simpl.
  destruct h; [discriminate Hlen|reflexivity].
Qed.

Lemma majority_survives g (frames : list Landmarks) : forall s,
  length (gestureHistoryRef s) = MAX_HISTORY_LENGTH ->
  MIN_HISTORY_LENGTH + length frames <= occurrences g (gestureHistoryRef s) ->
  majority_throughout g frames s.
Proof.
  induction frames as [|lm frames IH]; intros s Hlen Hocc; [exact I|].
  assert (gestureHistoryRef (observe1 s (Some lm))
          = tail (gestureHistoryRef s) ++ [infer lm]) as Hh.
  { rewrite observe_history. apply pushed_full, Hlen. }
  assert (length (gestureHistoryRef (observe1 s (Some lm))) = MAX_HISTORY_LENGTH)
    as Hlen'.
  { rewrite Hh, length_app, tail_length, Hlen. reflexivity. }
  assert (MIN_HISTORY_LENGTH + length frames
          <= occurrences g (gestureHistoryRef (observe1 s (Some lm)))) as Hocc'.
  { rewrite Hh, occurrences_app.
    pose proof (occurrences_tail g (gestureHistoryRef s)).
    cbn [length] in Hocc. lia. }
  split; [|apply IH; assumption].
  split; rewrite Hlen'; unfold MAX_HISTORY_LENGTH, MIN_HISTORY_LENGTH in *; lia.
Qed.


End WithClassifier.
Lemma session_ok_seven_next : session_ok Scenarios.seven_next.
Proof. split; [|split]; vm_compute; [reflexivity|lia|reflexivity]. Qed.


End StabilityFacts.

(** ** The temporal smoother: runs of frames and of the effect *)

Module ScheduleFacts.
Import CameraFeed CameraFeedSchedule MajoritySpec SmootherSpec StabilitySpec ScheduleSpec.
Import MajorityFacts SmootherFacts StabilityFacts.

Lemma last_cons {A} (l : list A) : forall x d, List.last (x :: l) d = List.last l x.
Proof.
  induction l as [|y l IH]; intros x d; [reflexivity|].
  change (List.last (x :: y :: l) d) with (List.last (y :: l) d).
  rewrite (IH y d), (IH y x). reflexivity.
Qed.

Lemma window_push g w :
  length w <= MAX_HISTORY_LENGTH ->
  window_majority g w -> window_majority g (pushed_history w g).
Proof.
  unfold window_majority, pushed_history, MIN_HISTORY_LENGTH, MAX_HISTORY_LENGTH.
  intros Hlen [Hmin Hmaj]. rewrite length_app. cbn [length].
  destruct (Nat.ltb_spec 7 (length w + 1)).
  - destruct w as [|x w]; [simpl in Hmin; lia|]. cbn [app tail].
    rewrite length_app, occurrences_app. simpl in *.
    rewrite decide_True by reflexivity. destruct (decide (x = g)); lia.
  - rewrite length_app, occurrences_app. simpl.
    rewrite decide_True by reflexivity. lia.
Qed.

Lemma window_of_same g h n :
  MIN_HISTORY_LENGTH <= n ->
  window_majority g (lastn MAX_HISTORY_LENGTH (h ++ replicate n g)).
Proof.
  unfold window_majority, MIN_HISTORY_LENGTH, MAX_HISTORY_LENGTH. intros Hn.
  rewrite lastn_length, length_app, length_replicate.
  split; [lia|].
  unfold lastn. rewrite length_app, length_replicate.
  pose proof (occurrences_le_length g
                (drop (length h + n - 7) (h ++ replicate n g))) as Hle.
  rewrite length_drop, length_app, length_replicate in Hle.
  assert (occurrences g (drop (length h + n - 7) (h ++ replicate n g)) >= 4) as H4.
  { destruct (decide (length h + n <= 7)) as [Hsmall|Hbig].
    - replace (length h + n - 7) with 0 by lia. rewrite drop_0.
      rewrite occurrences_app, occurrences_replicate. lia.
    - replace (h ++ replicate n g)
        with ((h ++ replicate (n - 4) g) ++ replicate 4 g).
      2:{ rewrite <- app_assoc. f_equal. rewrite <- replicate_add. f_equal. lia. }
      rewrite drop_app_le by (rewrite length_app, length_replicate; lia).
      rewrite occurrences_app, occurrences_replicate. lia. }
  lia.
Qed.

Lemma all_same_replicate {A} (x : A) l :
  Forall (fun y => y = x) l -> l = replicate (length l) x.
Proof. induction 1 as [|y l -> _ IH]; simpl; [reflexivity|]. f_equal. exact IH. Qed.

Section WithClassifier.

Context {Landmarks : Type}.
Variable inferGestureFromLandmarks : Landmarks -> spec_float -> GestureType.
Variable sensitivity : spec_float.

Local Abbreviation infer lm := (inferGestureFromLandmarks lm sensitivity).
Local Abbreviation processFrame := (processPoseResults inferGestureFromLandmarks).
Local Abbreviation play1 := (play inferGestureFromLandmarks sensitivity).
Local Abbreviation observed := (SmootherSpec.observed inferGestureFromLandmarks sensitivity).

Lemma play_app a b s : play1 (a ++ b) s = play1 b (play1 a s).
Proof. unfold play. apply fold_left_app. Qed.

Lemma play_cons h hs s :
  play1 (h :: hs) s = play1 hs (happen inferGestureFromLandmarks sensitivity s h).
Proof. reflexivity. Qed.

Lemma observed_frames_cons h (hs : list (Happening Landmarks)) :
  observed (frames_of (h :: hs))
  = match h with
    | Frame (Some lm) => [infer lm]
    | _ => []
    end ++ observed (frames_of hs).
Proof. destruct h as [[lm|]|]; reflexivity. Qed.

Lemma observed_frames_app (a b : list (Happening Landmarks)) :
  observed (frames_of (a ++ b)) = observed (frames_of a) ++ observed (frames_of b).
Proof.
  unfold frames_of, SmootherSpec.observed. rewrite !omap_app. reflexivity.
Qed.

(** One happening: the history, the closure and the bound on the
    history. *)
Lemma happen_history h s :
  length (gestureHistoryRef s) <= MAX_HISTORY_LENGTH ->
  gestureHistoryRef (happen inferGestureFromLandmarks sensitivity s h)
  = match h with
    | Frame (Some lm) => pushed_history (gestureHistoryRef s) (infer lm)
    | _ => gestureHistoryRef s
    end
  /\ length (gestureHistoryRef (happen inferGestureFromLandmarks sensitivity s h))
     <= MAX_HISTORY_LENGTH.
Proof.
  intros Hlen. destruct h as [[lm|]|]; cbn [happen]; try (split; [reflexivity|exact Hlen]).
  rewrite (process_history inferGestureFromLandmarks sensitivity).
  split; [reflexivity|].
  rewrite pushed_history_lastn by exact Hlen. rewrite lastn_length. lia.
Qed.

Lemma happen_memo h s :
  memo_consistent (majorityMemo s) ->
  memo_consistent (majorityMemo (happen inferGestureFromLandmarks sensitivity s h)).
Proof.
  intros Hm. destruct h as [[lm|]|]; cbn [happen]; try exact Hm.
  apply (process_spec inferGestureFromLandmarks sensitivity lm s Hm).
Qed.

Lemma play_history hs : forall s,
  length (gestureHistoryRef s) <= MAX_HISTORY_LENGTH ->
  gestureHistoryRef (play1 hs s)
  = lastn MAX_HISTORY_LENGTH (gestureHistoryRef s ++ observed (frames_of hs))
  /\ length (gestureHistoryRef (play1 hs s)) <= MAX_HISTORY_LENGTH.
Proof.
  induction hs as [|h hs IH]; intros s Hlen.
  - simpl. rewrite app_nil_r. unfold lastn.
    replace (_ - _) with 0 by lia. rewrite drop_0. auto.
  - rewrite play_cons. destruct (happen_history h s Hlen) as [Hh Hlen'].
    destruct (IH _ Hlen') as [IHh IHlen]. split; [|exact IHlen].
    rewrite IHh, Hh, observed_frames_cons.
    destruct h as [[lm|]|]; try reflexivity.
    rewrite pushed_history_lastn by exact Hlen.
    rewrite lastn_app_lastn, <- app_assoc. reflexivity.
Qed.

Lemma play_memo hs : forall s,
  memo_consistent (majorityMemo s) -> memo_consistent (majorityMemo (play1 hs s)).
Proof.
  induction hs as [|h hs IH]; intros s Hm; [exact Hm|].
  rewrite play_cons. apply IH, happen_memo, Hm.
Qed.

(** A frame of the gesture that holds the majority of the window it
    makes. *)
Lemma frame_of_majority g lm s :
  memo_consistent (majorityMemo s) ->
  infer lm = g ->
  window_majority g (pushed_history (gestureHistoryRef s) g) ->
  (currentGestureRef s = currentGesture s \/ currentGesture s = g) ->
  currentGesture (processFrame (Some lm) sensitivity s) = g.
Proof.
  intros Hm Hg Hwin Href.
  pose proof (process_spec inferGestureFromLandmarks sensitivity lm s Hm)
    as (_ & _ & Hcase).
  cbv zeta in Hcase. rewrite Hg in Hcase.
  pose proof Hwin as [Hlen _].
  apply Nat.leb_le in Hlen. rewrite Hlen in Hcase.
  rewrite (window_majority_uncached g _ Hwin) in Hcase.
  destruct (decide (g = currentGestureRef s)) as [Heq|Hne].
  - destruct Hcase as [_ ->]. destruct Href as [Hr|Hc]; congruence.
  - apply Hcase.
Qed.

(** Once the gesture is the stable one and holds the majority, frames of
    the gesture and runs of the effect keep it. *)
Lemma settled_stays g hs : forall s,
  memo_consistent (majorityMemo s) ->
  length (gestureHistoryRef s) <= MAX_HISTORY_LENGTH ->
  window_majority g (gestureHistoryRef s) ->
  currentGesture s = g ->
  Forall (fun g' => g' = g) (observed (frames_of hs)) ->
  currentGesture (play1 hs s) = g.
Proof.
  induction hs as [|h hs IH]; intros s Hm Hlen Hwin Hc Hall; [exact Hc|].
  rewrite play_cons. rewrite observed_frames_cons in Hall.
  apply Forall_app in Hall as [Hh Hall].
  destruct (happen_history h s Hlen) as [Hhist Hlen'].
  apply IH; try assumption.
  - apply happen_memo, Hm.
  - rewrite Hhist. destruct h as [[lm|]|]; try exact Hwin.
    pose proof (Forall_inv Hh) as Hg. simpl in Hg. rewrite Hg.
    apply window_push; assumption.
  - destruct h as [[lm|]|]; cbn [happen]; try exact Hc.
    pose proof (Forall_inv Hh) as Hg. simpl in Hg.
    apply (frame_of_majority g lm s Hm Hg); [|right; exact Hc].
    apply window_push; assumption.
Qed.

(** With the ref up to date and a window that the next frame of the
    gesture turns into a majority, the first such frame makes the gesture
    the stable one. *)
Lemma primed_switches g hs : forall s,
  memo_consistent (majorityMemo s) ->
  length (gestureHistoryRef s) <= MAX_HISTORY_LENGTH ->
  window_majority g (pushed_history (gestureHistoryRef s) g) ->
  currentGestureRef s = currentGesture s ->
  Forall (fun g' => g' = g) (observed (frames_of hs)) ->
  1 <= length (observed (frames_of hs)) ->
  currentGesture (play1 hs s) = g.
Proof.
  induction hs as [|h hs IH]; intros s Hm Hlen Hwin Hr Hall Hone;
    [simpl in Hone; lia|].
  rewrite play_cons. rewrite observed_frames_cons in Hall, Hone.
  apply Forall_app in Hall as [Hh Hall].
  destruct h as [[lm|]|]; cbn [happen].
  - pose proof (Forall_inv Hh) as Hg. simpl in Hg.
    destruct (happen_history (Frame (Some lm)) s Hlen) as [Hhist Hlen'].
    cbn [happen] in Hhist, Hlen'.
    apply settled_stays; try assumption.
    + apply (happen_memo (Frame (Some lm)) s Hm).
    + rewrite Hhist, Hg. exact Hwin.
    + apply (frame_of_majority g lm s Hm Hg); [|left; exact Hr].
      exact Hwin.
  - apply IH; assumption.
  - apply IH; try assumption. reflexivity.
Qed.

(** X3: four frames in a row are enough to switch, once the effect has
    run.  Take any run of frames and of the effect in which every frame
    with a pose is classified as one gesture, from any session with a
    consistent closure and a history within its bound, whatever the ref
    holds.  If the effect runs when at least [MIN_HISTORY_LENGTH - 1] such
    frames have been processed and at least one more follows, the stable
    gesture at the end is that gesture. *)
Theorem four_frames_switch (g : GestureType)
    (before after : list (Happening Landmarks)) (s : Session) :
  memo_consistent (majorityMemo s) ->
  length (gestureHistoryRef s) <= MAX_HISTORY_LENGTH ->
  Forall (fun g' => g' = g) (observed (frames_of (before ++ after))) ->
  MIN_HISTORY_LENGTH <= length (observed (frames_of before)) + 1 ->
  1 <= length (observed (frames_of after)) ->
  currentGesture (play1 (before ++ Effect :: after) s) = g.
Proof.
  intros Hm Hlen Hall Hbefore Hafter.
  rewrite observed_frames_app in Hall.
  apply Forall_app in Hall as [Hall1 Hall2].
  rewrite play_app, play_cons. cbn [happen].
  destruct (play_history before s Hlen) as [Hhist Hlen1].
  apply primed_switches; try assumption.
  - apply (play_memo before s Hm).
  - cbn [syncCurrentGestureRef gestureHistoryRef].
    rewrite pushed_history_lastn by exact Hlen1.
    rewrite Hhist, lastn_app_lastn, <- app_assoc.
    rewrite (all_same_replicate g _ Hall1).
    change [g] with (replicate 1 g). rewrite <- replicate_add.
    apply window_of_same. exact Hbefore.
  - reflexivity.
Qed.

Lemma last_app_default {A} (a b : list A) d :
  List.last (a ++ b) d = List.last b (List.last a d).
Proof.
  revert d. induction a as [|x a IH]; intros d; [reflexivity|].
  rewrite <- app_comm_cons, !last_cons. apply IH.
Qed.

(** The commands of one happening. *)
Lemma happen_commands h s :
  memo_consistent (majorityMemo s) ->
  exists new,
    emitted (happen inferGestureFromLandmarks sensitivity s h) = emitted s ++ new
    /\ currentGesture (happen inferGestureFromLandmarks sensitivity s h)
       = List.last new (currentGesture s)
    /\ (new = [] \/ exists m, new = [m] /\ m <> currentGestureRef s)
    /\ (h <> Effect ->
        currentGestureRef (happen inferGestureFromLandmarks sensitivity s h)
        = currentGestureRef s)
    /\ (h = Effect -> new = []).
Proof.
  intros Hm. destruct h as [[lm|]|]; cbn [happen].
  - pose proof (process_spec inferGestureFromLandmarks sensitivity lm s Hm)
      as (_ & Href & Hcase).
    cbv zeta in Hcase.
    assert ((emitted (processFrame (Some lm) sensitivity s) = emitted s
             /\ currentGesture (processFrame (Some lm) sensitivity s) = currentGesture s)
            \/ exists m, m <> currentGestureRef s
                 /\ emitted (processFrame (Some lm) sensitivity s) = emitted s ++ [m]
                 /\ currentGesture (processFrame (Some lm) sensitivity s) = m)
      as [(He & Hc) | (m & Hne & He & Hc)].
    { destruct (MIN_HISTORY_LENGTH <=? _); [|left; exact Hcase].
      destruct (majority_uncached _) as [m|]; [|left; exact Hcase].
      destruct (decide (m = currentGestureRef s)) as [_|Hne]; [left; exact Hcase|].
      right. exists m. tauto. }
    + exists []. rewrite He, Hc, app_nil_r. simpl.
      split; [reflexivity|]. split; [reflexivity|]. split; [left; reflexivity|].
      split; [intros _; exact Href|discriminate].
    + exists [m]. rewrite He, Hc. simpl.
      split; [reflexivity|]. split; [reflexivity|].
      split; [right; exists m; auto|]. split; [intros _; exact Href|discriminate].
  - exists []. rewrite app_nil_r. simpl. repeat split; auto.
  - exists []. rewrite app_nil_r. simpl. repeat split; auto.
    intros H. destruct H. reflexivity.
Qed.

(** Any run: the stable gesture is the last command. *)
Lemma play_commands hs : forall s,
  memo_consistent (majorityMemo s) ->
  exists new,
    emitted (play1 hs s) = emitted s ++ new
    /\ currentGesture (play1 hs s) = List.last new (currentGesture s).
Proof.
  induction hs as [|h hs IH]; intros s Hm.
  - exists []. rewrite app_nil_r. auto.
  - rewrite play_cons.
    destruct (happen_commands h s Hm) as (new1 & He1 & Hc1 & _).
    destruct (IH _ (happen_memo h s Hm)) as (new2 & He2 & Hc2).
    exists (new1 ++ new2). rewrite He2, He1, app_assoc, Hc2, Hc1, last_app_default.
    auto.
Qed.

(** A run without the effect: the ref stays and no command equals it. *)
Lemma play_without_effect hs : forall s,
  memo_consistent (majorityMemo s) ->
  Forall (fun h => h <> Effect) hs ->
  exists new,
    emitted (play1 hs s) = emitted s ++ new
    /\ currentGestureRef (play1 hs s) = currentGestureRef s
    /\ Forall (fun m => m <> currentGestureRef s) new.
Proof.
  induction hs as [|h hs IH]; intros s Hm Hall.
  - exists []. rewrite app_nil_r. auto.
  - rewrite play_cons. apply Forall_cons in Hall as [Hh Hall].
    destruct (happen_commands h s Hm) as (new1 & He1 & _ & Hnew1 & Href & _).
    destruct (IH _ (happen_memo h s Hm) Hall) as (new2 & He2 & Hr2 & Hn2).
    rewrite (Href Hh) in Hr2, Hn2.
    exists (new1 ++ new2). rewrite He2, He1, app_assoc.
    split; [reflexivity|]. split; [exact Hr2|].
    apply Forall_app. split; [|exact Hn2].
    destruct Hnew1 as [-> | (m & -> & Hne)]; repeat constructor. exact Hne.
Qed.

(** A run with the effect after every frame: every command is a
    change. *)
Lemma play_with_effects n : forall hs s,
  length hs <= n ->
  memo_consistent (majorityMemo s) ->
  currentGestureRef s = currentGesture s ->
  effect_after_each_frame hs ->
  exists new,
    emitted (play1 hs s) = emitted s ++ new
    /\ changes (currentGesture s) new.
Proof.
  induction n as [|n IH]; intros hs s Hlen Hm Hr Heff.
  - destruct hs; [|simpl in Hlen; lia]. exists []. rewrite app_nil_r. simpl. auto.
  - destruct hs as [|h hs]; [exists []; rewrite app_nil_r; simpl; auto|].
    destruct h as [r|].
    + destruct hs as [|[r'|] rest]; try (simpl in Heff; contradiction).
      rewrite !play_cons.
      destruct (happen_commands (Frame r) s Hm) as (new1 & He1 & Hc1 & Hnew1 & _).
      destruct (IH rest
                  (happen inferGestureFromLandmarks sensitivity
                     (happen inferGestureFromLandmarks sensitivity s (Frame r)) Effect))
        as (new2 & He2 & Hch2).
      * simpl in Hlen. lia.
      * apply happen_memo, happen_memo, Hm.
      * reflexivity.
      * exact Heff.
      * exists (new1 ++ new2).
        change (emitted (happen inferGestureFromLandmarks sensitivity
                           (happen inferGestureFromLandmarks sensitivity s (Frame r))
                           Effect))
          with (emitted (happen inferGestureFromLandmarks sensitivity s (Frame r)))
          in He2.
        change (currentGesture (happen inferGestureFromLandmarks sensitivity
                                  (happen inferGestureFromLandmarks sensitivity s (Frame r))
                                  Effect))
          with (currentGesture (happen inferGestureFromLandmarks sensitivity s (Frame r)))
          in Hch2.
        rewrite He2, He1, app_assoc. split; [reflexivity|].
        rewrite Hc1 in Hch2.
        destruct Hnew1 as [-> | (m & -> & Hne)]; simpl in *; [exact Hch2|].
        split; [congruence|exact Hch2].
    + rewrite play_cons.
      destruct (IH hs (happen inferGestureFromLandmarks sensitivity s Effect))
        as (new & He & Hch); try assumption.
      * simpl in Hlen. lia.
      * reflexivity.
      * exists new. auto.
Qed.

(** X5: the commands of a run of frames and of the effect, from a session
    with a consistent closure.  The stable gesture at the end is the last
    gesture [setGesture] was called with, or the one at the start if there
    was no call.  In a run without the effect every call carries a gesture
    that differs from what the ref holds, which need not be the stable
    gesture.  In a run in which the effect comes after every frame, from a
    ref that holds the stable gesture, every call carries a gesture that
    differs from the stable gesture before it: no command is repeated. *)
Theorem commands_are_changes (hs : list (Happening Landmarks)) (s : Session) :
  memo_consistent (majorityMemo s) ->
  exists new,
    emitted (play1 hs s) = emitted s ++ new
    /\ currentGesture (play1 hs s) = List.last new (currentGesture s)
    /\ (Forall (fun h => h <> Effect) hs ->
        Forall (fun m => m <> currentGestureRef s) new)
    /\ (currentGestureRef s = currentGesture s ->
        effect_after_each_frame hs ->
        changes (currentGesture s) new).
Proof.
  intros Hm. destruct (play_commands hs s Hm) as (new & He & Hc).
  exists new. split; [exact He|]. split; [exact Hc|]. split.
  - intros Hall.
    destruct (play_without_effect hs s Hm Hall) as (new' & He' & _ & Hn).
    rewrite He in He'. apply app_inv_head in He'. subst new'. exact Hn.
  - intros Hr Heff.
    destruct (play_with_effects (length hs) hs s (le_n _) Hm Hr Heff)
      as (new' & He' & Hch).
    rewrite He in He'. apply app_inv_head in He'. subst new'. exact Hch.
Qed.

End WithClassifier.
(** Without the effect the switch can be missed: after the key n and
    three frames that show PREV, four frames that show NEXT leave PREV as
    the stable gesture, set twice. *)
Lemma stale_ref_misses_switch :
  let s := play Inputs.shown Js.NaN Scenarios.four_next_frames
                Scenarios.after_key_and_prev in
  currentGesture s = PREV /\ emitted s = [NEXT; PREV; PREV].
Proof. vm_compute. auto. Qed.

Lemma four_frames_switch_witness :
  currentGesture
    (play Inputs.shown Js.NaN
       ([Frame (Some NEXT); Frame (Some NEXT); Frame (Some NEXT)]
        ++ Effect :: [Frame (Some NEXT)])
       Scenarios.after_key_and_prev)
  = NEXT.
Proof.
  apply (four_frames_switch Inputs.shown Js.NaN NEXT
           [Frame (Some NEXT); Frame (Some NEXT); Frame (Some NEXT)]
           [Frame (Some NEXT)] Scenarios.after_key_and_prev).
  - vm_compute. reflexivity.
  - vm_compute. lia.
  - repeat constructor.
  - vm_compute. lia.
  - vm_compute. lia.
Defined.

Lemma commands_are_changes_witness :
  exists new,
    emitted (play Inputs.shown Js.NaN
               (Scenarios.four_next_frames ++ [Frame (Some NEXT)]) initial_session)
    = emitted initial_session ++ new
    /\ currentGesture
         (play Inputs.shown Js.NaN
            (Scenarios.four_next_frames ++ [Frame (Some NEXT)]) initial_session)
       = List.last new (currentGesture initial_session)
    /\ (Forall (fun h => h <> Effect)
               (Scenarios.four_next_frames ++ [Frame (Some NEXT)]) ->
        Forall (fun m => m <> currentGestureRef initial_session) new)
    /\ (currentGestureRef initial_session = currentGesture initial_session ->
        effect_after_each_frame (Scenarios.four_next_frames ++ [Frame (Some NEXT)]) ->
        changes (currentGesture initial_session) new).
Proof.
  apply (commands_are_changes Inputs.shown Js.NaN
           (Scenarios.four_next_frames ++ [Frame (Some NEXT)]) initial_session).
  reflexivity.
Defined.

End ScheduleFacts.

(** ** Keyboard, sensitivity and landmark conversion *)

Module ControlsFacts.
Import Js LocalStorage CameraFeed CameraFeedControls ControlsSpec SmootherSpec.

Lemma own_gesture_In name literal g :
  own_gesture name literal = Some g -> In (name, g) literal.
Proof.
  induction literal as [|[k g0] rest IH]; simpl; [discriminate|].
  destruct (String.eqb k name) eqn:Hk.
  - apply String.eqb_eq in Hk. intros [= ->]. left. congruence.
  - auto.
Qed.

Lemma own_gesture_None name literal :
  own_gesture name literal = None -> forall g, ~ In (name, g) literal.
Proof.
  induction literal as [|[k g0] rest IH]; simpl; [tauto|].
  destruct (String.eqb k name) eqn:Hk; [discriminate|].
  intros Hn g [[= -> ->]|Hin]; [rewrite String.eqb_refl in Hk; discriminate|].
  exact (IH Hn g Hin).
Qed.

Lemma own_gesture_bound key g :
  In (key, g) key_bindings -> own_gesture key key_bindings = Some g.
Proof.
  unfold key_bindings. simpl.
  intros [H|[H|[H|[H|[H|[H|[H|[H|[]]]]]]]]]; injection H as <- <-; reflexivity.
Qed.

Lemma own_gesture_lower key :
  own_gesture (toLowerCase key) keyToGesture = own_gesture key key_bindings.
Proof.
  destruct key as [|c [|c' rest]].
  - reflexivity.
  - destruct c as [[] [] [] [] [] [] [] []]; vm_compute; reflexivity.
  - cbn [toLowerCase]. unfold keyToGesture, key_bindings. cbn [own_gesture].
    cbn [String.eqb].
    repeat match goal with
           | |- context [Ascii.eqb ?a ?b] => destruct (Ascii.eqb a b)
           end; reflexivity.
Qed.

Section WithClassifier.

Context {Landmarks : Type}.
Variable inferGestureFromLandmarks : Landmarks -> spec_float -> GestureType.
Variable sensitivity : spec_float.

Local Abbreviation observeAll := (observe_all inferGestureFromLandmarks sensitivity).

Lemma few_frames_after_clear frames s :
  gestureHistoryRef s = [] ->
  length frames < MIN_HISTORY_LENGTH ->
  emitted (observeAll frames s) = emitted s
  /\ currentGesture (observeAll frames s) = currentGesture s.
Proof.
  intros Hh Hlen.
  apply (SmootherFacts.observe_all_below_min inferGestureFromLandmarks sensitivity).
  rewrite SmootherFacts.observe_all_history
    by (rewrite Hh; unfold MAX_HISTORY_LENGTH; simpl; lia).
  rewrite Hh, app_nil_l, SmootherFacts.lastn_length.
  pose proof (SmootherFacts.observed_length inferGestureFromLandmarks sensitivity frames).
  lia.
Qed.

(** X6: the keyboard override.  The keys r, n, p and s, in either case,
    clear the history and set REST, NEXT, PREV and SELECT with one call of
    [setGesture], and the up to three frames that follow cannot change the
    gesture again; a key that is bound to nothing leaves the session alone,
    unless its lower case names a property of [Object.prototype]. *)
Theorem keyboard_override (key : string) (g : GestureType) (s : Session)
    (frames : list (option Landmarks)) :
  (In (key, g) key_bindings ->
   length frames < MIN_HISTORY_LENGTH ->
   exists s1,
     onKeyDown key s = Some s1
     /\ gestureHistoryRef s1 = []
     /\ currentGesture s1 = g
     /\ emitted s1 = emitted s ++ [g]
     /\ emitted (observeAll frames (syncCurrentGestureRef s1)) = emitted s ++ [g]
     /\ currentGesture (observeAll frames (syncCurrentGestureRef s1)) = g)
  /\ ((forall g', ~ In (key, g') key_bindings) ->
      onKeyDown key s = Some s
      \/ (onKeyDown key s = None /\ In (toLowerCase key) Object_prototype)).
Proof.
  unfold onKeyDown, lookup_key. rewrite own_gesture_lower. split.
  - intros Hin Hlen. rewrite (own_gesture_bound _ _ Hin).
    exists (handleKeyDown g s).
    destruct (few_frames_after_clear frames (syncCurrentGestureRef (handleKeyDown g s)))
      as [He Hc]; [reflexivity|exact Hlen|].
    rewrite He, Hc. repeat split.
  - intros Hout.
    destruct (own_gesture key key_bindings) as [g'|] eqn:Hown.
    { destruct (Hout g'). apply own_gesture_In, Hown. }
    destruct (existsb _ Object_prototype) eqn:Hin; [|left; reflexivity].
    right. split; [reflexivity|].
    apply existsb_exists in Hin. destruct Hin as (name & Hin & Heq).
    apply String.eqb_eq in Heq. subst name. exact Hin.
Qed.

End WithClassifier.

Lemma keyboard_override_witness :
  exists s1,
    onKeyDown "N" initial_session = Some s1
    /\ gestureHistoryRef s1 = []
    /\ currentGesture s1 = NEXT
    /\ emitted s1 = emitted initial_session ++ [NEXT]
    /\ emitted (observe_all Inputs.shown Js.NaN [Some REST; Some REST; Some REST]
                  (syncCurrentGestureRef s1))
       = emitted initial_session ++ [NEXT]
    /\ currentGesture (observe_all Inputs.shown Js.NaN [Some REST; Some REST; Some REST]
                         (syncCurrentGestureRef s1))
       = NEXT.
Proof.
  apply (proj1 (keyboard_override Inputs.shown Js.NaN "N" NEXT initial_session
                  [Some REST; Some REST; Some REST])).
  - simpl. tauto.
  - unfold MIN_HISTORY_LENGTH. simpl. lia.
Defined.

(** ** The sensitivity state *)

(** [parseFloat] skips the white space of more than one byte: a
    no-break space before 5, a byte order mark before 0.5. *)
Lemma parseFloat_skips_wide_space :
  parseFloat (String (ascii_of_nat 194) (String (ascii_of_nat 160) "5")) = of_Z 5
  /\ parseFloat (String (ascii_of_nat 239)
                   (String (ascii_of_nat 187) (String (ascii_of_nat 191) "0.5")))
     = of_decimal false 5 (-1).
Proof. vm_compute. auto. Qed.

Lemma accepted_spec v :
  accepted v = true
  <-> isNaN v = false /\ ge v (of_Z 0) = true /\ le v (of_Z 1) = true.
Proof.
  unfold accepted. rewrite !andb_true_iff, negb_true_iff. tauto.
Qed.

Lemma sensitivity_step_accepted v e :
  accepted v = true -> accepted (sensitivity_step v e) = true.
Proof.
  intros Hv. destruct e as [[k|] [text|]|ls]; simpl; try exact Hv.
  - destruct (String.eqb k _); [|exact Hv].
    destruct (accepted (parseFloat text)) eqn:Ha; [exact Ha|exact Hv].
  - unfold checkSensitivity.
    destruct (getItem _ ls) as [[stored|]|]; try exact Hv.
    cbv zeta. destruct (accepted (parseFloat stored)) eqn:Ha; [exact Ha|exact Hv].
Qed.

(** X7: the sensitivity handed to the classifier is always a number
    between 0 and 1: whatever the storage held when the component mounted,
    and whatever storage events and interval ticks follow, with whatever
    the storage holds or does then. *)
Theorem numericSensitivity_in_range (mounted : Storage)
    (events : list SensitivityEvent) :
  let v := sensitivity_after mounted events in
  isNaN v = false /\ ge v (of_Z 0) = true /\ le v (of_Z 1) = true.
Proof.
  cbv zeta. apply accepted_spec. unfold sensitivity_after.
  assert (accepted (initialNumericSensitivity mounted) = true) as Hinit.
  { apply accepted_spec. apply SensitivityFacts.initialNumericSensitivity_in_range. }
  revert Hinit. generalize (initialNumericSensitivity mounted).
  induction events as [|e events IH]; intros v Hv; [exact Hv|].
  simpl. apply IH, sensitivity_step_accepted, Hv.
Qed.

(** ** Landmark conversion *)

Lemma convert_memo_after a m :
  lastInput (snd (convertMediaPipeLandmarks a m)) = Some (reference a)
  /\ lastOutput (snd (convertMediaPipeLandmarks a m))
     = Some (fst (convertMediaPipeLandmarks a m)).
Proof.
  unfold convertMediaPipeLandmarks. cbv zeta.
  destruct (bool_decide (lastInput m = Some (reference a))) eqn:Hhit;
    [destruct (lastOutput m) as [cached|] eqn:Hout|]; simpl; auto.
  apply bool_decide_eq_true in Hhit. auto.
Qed.

Lemma convert_same_reference a b m :
  reference a = reference b ->
  convertMediaPipeLandmarks b (snd (convertMediaPipeLandmarks a m))
  = (fst (convertMediaPipeLandmarks a m), snd (convertMediaPipeLandmarks a m)).
Proof.
  intros Href. destruct (convert_memo_after a m) as [Hin Hout].
  generalize dependent (convertMediaPipeLandmarks a m). intros [r m1] Hin Hout.
  simpl in *. unfold convertMediaPipeLandmarks. cbv zeta.
  rewrite Hin, Href, bool_decide_eq_true_2, Hout by reflexivity. reflexivity.
Qed.

Lemma convert_sequence_plain calls : forall previous m,
  holds previous m ->
  unchanged_while_held (match previous with
                        | Some a => a :: calls
                        | None => calls
                        end) ->
  fst (convert_sequence calls m)
  = map (fun a => map convert_landmark (elements a)) calls.
Proof.
  induction calls as [|b calls IH]; intros previous m Hm Hun; [reflexivity|].
  cbn [convert_sequence].
  assert (convertMediaPipeLandmarks b m
          = (map convert_landmark (elements b),
             mkConvertMemo (Some (reference b))
                           (Some (map convert_landmark (elements b))))
          \/ convertMediaPipeLandmarks b m = (map convert_landmark (elements b), m)
             /\ holds (Some b) m) as Hcall.
  { unfold convertMediaPipeLandmarks. cbv zeta.
    destruct (bool_decide (lastInput m = Some (reference b))) eqn:Hhit; [|left; reflexivity].
    destruct (lastOutput m) as [cached|] eqn:Hout; [|left; reflexivity].
    right. apply bool_decide_eq_true in Hhit.
    destruct previous as [a|].
    - destruct Hm as [Hin Hres]. destruct Hun as [Hsame _].
      assert (elements a = elements b) as He by (apply Hsame; congruence).
      rewrite Hout in Hres. injection Hres as ->. rewrite He.
      split; [reflexivity|]. split; [exact Hhit|]. rewrite Hout, He. reflexivity.
    - rewrite Hm in Hout. discriminate Hout. }
  assert (unchanged_while_held (b :: calls)) as Hun'.
  { destruct previous; [apply Hun|exact Hun]. }
  destruct Hcall as [-> | [-> Hb]].
  - assert (holds (Some b)
              (mkConvertMemo (Some (reference b))
                             (Some (map convert_landmark (elements b))))) as Hb
      by (split; reflexivity).
    specialize (IH (Some b) _ Hb Hun').
    destruct (convert_sequence calls _) as [rs m2]. simpl in *. rewrite IH. reflexivity.
  - specialize (IH (Some b) m Hb Hun').
    destruct (convert_sequence calls m) as [rs m2]. simpl in *. rewrite IH. reflexivity.
Qed.

(** X8: [convertMediaPipeLandmarks] recognises an array by its identity.
    As long as an array that is passed again right after a call holds what
    it held then, every call returns the conversion of the elements of its
    argument; and a call with the array of the call before returns the
    result of that call, whatever the array holds now. *)
Theorem conversion_by_reference (calls : list MpArray) (a b : MpArray) (m : ConvertMemo) :
  (unchanged_while_held calls ->
   fst (convert_sequence calls initial_convert_memo)
   = map (fun c => map convert_landmark (elements c)) calls)
  /\ (reference a = reference b ->
      fst (convertMediaPipeLandmarks b (snd (convertMediaPipeLandmarks a m)))
      = fst (convertMediaPipeLandmarks a m)).
Proof.
  split.
  - intros Hun. apply (convert_sequence_plain calls None); [reflexivity|exact Hun].
  - intros Href. rewrite convert_same_reference by exact Href. reflexivity.
Qed.

Lemma conversion_by_reference_witness :
  fst (convert_sequence [Scenarios.first_array; Scenarios.first_array;
                         Scenarios.second_array] initial_convert_memo)
  = map (fun c => map convert_landmark (elements c))
        [Scenarios.first_array; Scenarios.first_array; Scenarios.second_array].
Proof.
  apply (proj1 (conversion_by_reference
                  [Scenarios.first_array; Scenarios.first_array; Scenarios.second_array]
                  Scenarios.first_array Scenarios.first_array initial_convert_memo)).
  simpl. repeat split; intros H; try reflexivity; discriminate H.
Defined.

End ControlsFacts.

(** ** Frame dispatch: order and teardown *)

Module ArrivalFacts.
Import CameraFeed DispatchSpec DispatchFacts ArrivalSpec.

Section WithClassifier.

Context {Landmarks : Type}.
Variable inferGestureFromLandmarks : Landmarks -> spec_float -> GestureType.
Variable numericSensitivity : Js.number.

Local Abbreviation onResults1 := (onResults inferGestureFromLandmarks numericSensitivity).
Local Abbreviation runFrames := (runAnimationFrames inferGestureFromLandmarks numericSensitivity).
Local Abbreviation run1 := (run inferGestureFromLandmarks numericSensitivity).
Local Abbreviation step1 := (step inferGestureFromLandmarks numericSensitivity).

Lemma run_snoc events e (d : Dispatch Landmarks) :
  run1 (events ++ [e]) d = step1 (run1 events d) e.
Proof. unfold run. rewrite fold_left_app. reflexivity. Qed.

Lemma arrivals_snoc (events : list (Event Landmarks)) e :
  arrivals (events ++ [e])
  = arrivals events ++ match e with
                       | PoseResults results _ => [results]
                       | _ => []
                       end.
Proof.
  unfold arrivals. rewrite omap_app. f_equal. destruct e; reflexivity.
Qed.

(** A rendering opportunity with no requested callback. *)
Lemma runAnimationFrames_idle now (d : Dispatch Landmarks) :
  animationFrames d = [] ->
  processed (runFrames now d) = processed d
  /\ session (runFrames now d) = session d
  /\ globalPendingResults (runFrames now d) = globalPendingResults d
  /\ globalRafId (runFrames now d) = globalRafId d
  /\ animationFrames (runFrames now d) = [].
Proof.
  intros Hf. unfold runAnimationFrames. rewrite Hf. simpl. auto.
Qed.

(** A requested callback that finds nothing waiting. *)
Lemma runAnimationFrames_nothing now (d : Dispatch Landmarks) h :
  animationFrames d = [h] ->
  globalPendingResults d = None ->
  processed (runFrames now d) = processed d
  /\ session (runFrames now d) = session d
  /\ globalPendingResults (runFrames now d) = None
  /\ globalRafId (runFrames now d) = None
  /\ animationFrames (runFrames now d) = [].
Proof.
  intros Hf Hp. unfold runAnimationFrames. rewrite Hf. simpl.
  unfold animationFrameCallback. simpl. rewrite Hp. simpl. auto.
Qed.

Lemma accounted_sublist (d : Dispatch Landmarks) arrived :
  accounted d arrived -> sublist (processed d) arrived.
Proof.
  intros (earlier & -> & Hs). apply sublist_inserts_r, Hs.
Qed.

Lemma step_accounted (d : Dispatch Landmarks) e arrived :
  scheduled_matches d ->
  accounted d arrived ->
  accounted (step1 d e)
            (arrived ++ match e with
                        | PoseResults results _ => [results]
                        | _ => []
                        end).
Proof.
  intros Hsched Hacc. pose proof (accounted_sublist d arrived Hacc) as Hsub.
  destruct e as [results now|now|]; cbn [step].
  - destruct (budget_elapsed d now) eqn:Hb.
    + exists (arrived ++ [results]). unfold onResults. rewrite Hb. unfold waiting. simpl.
      rewrite app_nil_r. split; [reflexivity|].
      apply sublist_app; [exact Hsub|reflexivity].
    + destruct (onResults_early inferGestureFromLandmarks numericSensitivity
                  results now d Hsched Hb) as (_ & _ & Hp & _ & Hproc & _).
      exists arrived. unfold waiting. rewrite Hp, Hproc. auto.
  - rewrite app_nil_r. unfold scheduled_matches in Hsched.
    destruct (globalRafId d) as [h|] eqn:Hraf.
    + destruct (globalPendingResults d) as [results|] eqn:Hp.
      * destruct (runAnimationFrames_pending inferGestureFromLandmarks numericSensitivity
                    now d h results Hsched Hp) as (Hproc & _ & _ & Hp' & _).
        destruct Hacc as (earlier & -> & Hs). unfold waiting at 1. rewrite Hp.
        exists (earlier ++ [results]). unfold waiting. rewrite Hp', Hproc, app_nil_r.
        split; [reflexivity|]. apply sublist_app; [exact Hs|reflexivity].
      * destruct (runAnimationFrames_nothing now d h Hsched Hp) as (Hproc & _ & Hp' & _).
        exists arrived. unfold waiting. rewrite Hp', Hproc, app_nil_r. auto.
    + destruct (runAnimationFrames_idle now d Hsched) as (Hproc & _ & Hp' & _).
      destruct Hacc as (earlier & -> & Hs).
      exists earlier. unfold waiting. rewrite Hp', Hproc. auto.
  - rewrite app_nil_r. exists arrived. unfold waiting, cleanup.
    destruct (globalRafId d); simpl; rewrite app_nil_r; auto.
Qed.

Lemma run_accounted events :
  scheduled_matches (run1 events initial_dispatch)
  /\ accounted (run1 events initial_dispatch) (arrivals events).
Proof.
  induction events as [|e events [Hs Ha]] using rev_ind.
  - split; [reflexivity|]. exists []. split; [reflexivity|]. simpl. constructor.
  - rewrite run_snoc, arrivals_snoc. split.
    + destruct e; cbn [step].
      * apply onResults_scheduled, Hs.
      * apply runAnimationFrames_scheduled, Hs.
      * apply cleanup_scheduled, Hs.
    + apply step_accounted; assumption.
Qed.

(** X9: frames are processed in the order of their arrival, each at most
    once: after any results, animation frames and cleanups, the arguments of
    the calls of [processPoseResults] are a subsequence of the results that
    arrived. *)
Theorem processed_in_arrival_order (events : list (Event Landmarks)) :
  sublist (processed (run1 events initial_dispatch)) (arrivals events).
Proof.
  apply accounted_sublist, run_accounted.
Qed.

Lemma animation_frames_idle times : forall (d : Dispatch Landmarks),
  animationFrames d = [] ->
  processed (run1 (map AnimationFrame times) d) = processed d
  /\ session (run1 (map AnimationFrame times) d) = session d.
Proof.
  induction times as [|now times IH]; intros d Hf; [auto|].
  cbn [map]. unfold run. cbn [fold_left step].
  destruct (runAnimationFrames_idle now d Hf) as (Hp & Hs & _ & _ & Hf').
  destruct (IH _ Hf') as [IHp IHs]. unfold run in IHp, IHs.
  rewrite IHp, IHs. auto.
Qed.

(** X11: the cleanup discards what waits.  After the cleanup of the effect
    no results are pending and no callback is requested, and the rendering
    opportunities that follow process nothing and leave the session as it
    was. *)
Theorem cleanup_discards_waiting (events : list (Event Landmarks))
    (times : list Js.number) :
  let d := cleanup (run1 events initial_dispatch) in
  globalPendingResults d = None
  /\ globalRafId d = None
  /\ animationFrames d = []
  /\ processed d = processed (run1 events initial_dispatch)
  /\ processed (run1 (map AnimationFrame times) d)
     = processed (run1 events initial_dispatch)
  /\ session (run1 (map AnimationFrame times) d)
     = session (run1 events initial_dispatch).
Proof.
  cbv zeta. destruct (run_accounted events) as [Hs _].
  set (d0 := run1 events initial_dispatch) in *.
  assert (animationFrames (cleanup d0) = []) as Hf.
  { pose proof (cleanup_scheduled d0 Hs) as Hc. unfold scheduled_matches in Hc.
    rewrite Hc. unfold cleanup. destruct (globalRafId d0); reflexivity. }
  destruct (animation_frames_idle times (cleanup d0) Hf) as [Hp Hse].
  rewrite Hp, Hse.
  repeat split; try assumption; unfold cleanup; destruct (globalRafId d0); reflexivity.
Qed.

(** X10: the latest results are not lost.  In any reachable state, results
    that arrive and are followed by a rendering opportunity have been
    processed by then, once and as the last ones: at once when the frame
    budget had elapsed, by the requested callback otherwise; nothing waits
    and no callback is left. *)
Theorem latest_results_processed (events : list (Event Landmarks))
    (results : option Landmarks) (now later : Js.number) :
  let d := run1 events initial_dispatch in
  let d' := run1 [PoseResults results now; AnimationFrame later] d in
  processed d' = processed d ++ [results]
  /\ globalPendingResults d' = None
  /\ animationFrames d' = [].
Proof.
  cbv zeta. destruct (run_accounted events) as [Hsched _].
  set (d := run1 events initial_dispatch) in *.
  unfold run. cbn [fold_left step].
  pose proof (onResults_scheduled inferGestureFromLandmarks numericSensitivity
                results now d Hsched) as Hsched1.
  destruct (budget_elapsed d now) eqn:Hb.
  - assert (processed (onResults1 results now d) = processed d ++ [results]
            /\ globalPendingResults (onResults1 results now d) = None) as [Hp Hw]
      by (unfold onResults; rewrite Hb; auto).
    unfold scheduled_matches in Hsched1.
    destruct (globalRafId (onResults1 results now d)) as [h|].
    + destruct (runAnimationFrames_nothing later _ h Hsched1 Hw) as (-> & _ & -> & _ & ->).
      auto.
    + destruct (runAnimationFrames_idle later _ Hsched1) as (-> & _ & -> & _ & ->).
      auto.
  - destruct (onResults_early inferGestureFromLandmarks numericSensitivity
                results now d Hsched Hb) as ((h & _ & Hf) & _ & Hw & _ & Hp & _).
    destruct (runAnimationFrames_pending inferGestureFromLandmarks numericSensitivity
                later _ h results Hf Hw) as (-> & _ & -> & -> & _).
    rewrite Hp. auto.
Qed.

End WithClassifier.
End ArrivalFacts.

(** ** Progress storage: reading *)

Module LoadFacts.
Import Js LocalStorage ProgressStorage ProgressSpec ProgressFacts LoadSpec.

Lemma load_attempt_denied key ls :
  denied ls = true -> load_attempt key ls = Throw SecurityError.
Proof. intros Hd. unfold load_attempt, getItem. rewrite Hd. reflexivity. Qed.

(** What the statements inside [try] come to on a storage that can be
    read. *)
Lemma load_attempt_allowed key ls :
  denied ls = false ->
  load_attempt key ls
  = match items ls !! key with
    | None => Normal (None, ls)
    | Some stored =>
        if String.eqb stored EmptyString then Normal (None, ls)
        else
          match JSON_parse stored with
          | None => Throw SyntaxError
          | Some (JUndefined | JNull) => Throw TypeError
          | Some (JObject properties) =>
              match own_property "index" properties,
                    own_property "completed" properties,
                    own_property "showTranslation" properties with
              | Some (JNumber i), Some (JBool c), Some (JBool t) =>
                  Normal (Some (mkLessonProgress i c t), ls)
              | _, _, _ =>
                  Normal (None, mkStorage (delete key (items ls)) (denied ls)
                                          (full ls) (written ls))
              end
          | Some _ =>
              Normal (None, mkStorage (delete key (items ls)) (denied ls)
                                      (full ls) (written ls))
          end
    end.
Proof.
  intros Hd. unfold load_attempt, parse_json.
  rewrite (getItem_allowed _ _ Hd). cbn [bind].
  destruct (items ls !! key) as [stored|]; [|reflexivity].
  destruct (String.eqb stored EmptyString); [reflexivity|].
  destruct (JSON_parse stored) as [parsed|]; [|reflexivity].
  cbn [bind]. rewrite (removeItem_allowed _ _ Hd).
  destruct parsed as [| |b|x|str|elements|properties]; try reflexivity.
  unfold and_then, typeof_is, get_property. cbn [bind].
  destruct (own_property "index" properties) as [[]|]; try reflexivity;
    destruct (own_property "completed" properties) as [[]|]; try reflexivity;
    destruct (own_property "showTranslation" properties) as [[]|]; reflexivity.
Qed.

(** The two outcomes of a call. *)
Lemma loadProgress_cases categoryId ls :
  (exists r, loadProgress categoryId ls = (Normal r, ls))
  \/ (categoryId <> EmptyString /\ denied ls = false
      /\ is_Some (items ls !! storage_key categoryId)
      /\ loadProgress categoryId ls = (Normal None, without categoryId ls)).
Proof.
  unfold loadProgress.
  destruct (String.eqb_spec categoryId EmptyString) as [->|Hcat]; [left; eauto|].
  cbv zeta. fold (storage_key categoryId).
  destruct (denied ls) eqn:Hd.
  - rewrite (load_attempt_denied _ _ Hd). unfold removeItem. rewrite Hd. left. eauto.
  - rewrite (load_attempt_allowed _ _ Hd), (removeItem_allowed _ _ Hd).
    destruct (items ls !! storage_key categoryId) as [stored|] eqn:Hitem;
      [|left; eauto].
    destruct (String.eqb stored EmptyString); [left; eauto|].
    unfold without. rewrite Hd.
    destruct (JSON_parse stored) as [[| |b|x|str|elements|properties]|];
      try (right; repeat split; eauto; fail).
    destruct (own_property "index" properties) as [[]|];
      try (right; repeat split; eauto; fail);
      destruct (own_property "completed" properties) as [[]|];
      try (right; repeat split; eauto; fail);
      destruct (own_property "showTranslation" properties) as [[]|];
      try (right; repeat split; eauto; fail).
    left. eauto.
Qed.

Lemma JSON_parse_empty : JSON_parse EmptyString = None.
Proof. vm_compute. reflexivity. Qed.

(** X13: what [loadProgress] accepts.  The call returns a value exactly
    when the category has a name, the storage can be read, and the entry is
    a JSON text of an object whose [index] is a number and whose [completed]
    and [showTranslation] are booleans; the value has these three fields,
    other properties of the object are ignored, and the storage is left as
    it was. *)
Theorem loadProgress_accepts (categoryId : string) (ls : Storage) (v : LessonProgress) :
  (fst (loadProgress categoryId ls) = Normal (Some v)
   <-> holds_progress categoryId ls v)
  /\ (holds_progress categoryId ls v -> snd (loadProgress categoryId ls) = ls).
Proof.
  assert (holds_progress categoryId ls v ->
          loadProgress categoryId ls = (Normal (Some v), ls)) as Hcomplete.
  { intros (Hcat & Hd & stored & properties & Hitem & Hparse & Hi & Hc & Ht).
    unfold loadProgress. rewrite (eqb_empty_false _ Hcat). cbv zeta.
    fold (storage_key categoryId).
    rewrite (load_attempt_allowed _ _ Hd), Hitem.
    assert (stored <> EmptyString) as Hne.
    { intros ->. rewrite JSON_parse_empty in Hparse. discriminate. }
    rewrite (eqb_empty_false _ Hne), Hparse, Hi, Hc, Ht.
    destruct v; reflexivity. }
  split; [split|].
  - unfold loadProgress.
    destruct (String.eqb_spec categoryId EmptyString) as [->|Hcat]; [discriminate|].
    cbv zeta. fold (storage_key categoryId).
    destruct (denied ls) eqn:Hd.
    { rewrite (load_attempt_denied _ _ Hd). discriminate. }
    rewrite (load_attempt_allowed _ _ Hd).
    destruct (items ls !! storage_key categoryId) as [stored|] eqn:Hitem;
      [|discriminate].
    destruct (String.eqb stored EmptyString); [discriminate|].
    destruct (JSON_parse stored) as [[| |b|x|str|elements|properties]|] eqn:Hparse;
      try discriminate.
    destruct (own_property "index" properties) as [[]|] eqn:Hi; try discriminate;
      destruct (own_property "completed" properties) as [[]|] eqn:Hc;
      try discriminate;
      destruct (own_property "showTranslation" properties) as [[]|] eqn:Ht;
      try discriminate.
    cbn [fst]. intros [= <-].
    split; [exact Hcat|]. split; [exact Hd|].
    exists stored, properties. cbn [index completed showTranslation].
    repeat split; assumption.
  - intros H. rewrite (Hcomplete H). reflexivity.
  - intros H. rewrite (Hcomplete H). reflexivity.
Qed.

(** X14: loading twice is loading once: on the storage that a call of
    [loadProgress] leaves, a second call for the same category returns the
    same result and leaves the same storage. *)
Theorem loadProgress_idempotent (categoryId : string) (ls : Storage) :
  loadProgress categoryId (snd (loadProgress categoryId ls))
  = loadProgress categoryId ls.
Proof.
  destruct (loadProgress_cases categoryId ls) as [[r H] | (Hcat & Hd & _ & H)];
    rewrite H; cbn [snd]; [exact H|].
  unfold loadProgress. rewrite (eqb_empty_false _ Hcat). cbv zeta.
  fold (storage_key categoryId).
  assert (denied (without categoryId ls) = false) as Hd' by exact Hd.
  rewrite (load_attempt_allowed _ _ Hd').
  unfold without at 1. cbn [items]. rewrite lookup_delete_eq. reflexivity.
Qed.

(** X15: what [loadProgress] leaves alone.  A call never throws and never
    writes; the entries under all other keys stay as they were, and the
    entry of the category stays or is removed. *)
Theorem loadProgress_frame (categoryId : string) (ls : Storage) :
  let ls' := snd (loadProgress categoryId ls) in
  (exists r, fst (loadProgress categoryId ls) = Normal r)
  /\ written ls' = written ls
  /\ denied ls' = denied ls /\ full ls' = full ls
  /\ (forall key, key <> storage_key categoryId ->
                  items ls' !! key = items ls !! key)
  /\ (items ls' !! storage_key categoryId = items ls !! storage_key categoryId
      \/ items ls' !! storage_key categoryId = None).
Proof.
  cbv zeta.
  destruct (loadProgress_cases categoryId ls) as [[r H] | (Hcat & Hd & _ & H)];
    rewrite H; cbn [fst snd].
  - eauto 10.
  - unfold without. cbn [written denied full items].
    repeat split; eauto.
    + intros key Hkey. apply lookup_delete_ne. congruence.
    + right. apply lookup_delete_eq.
Qed.

Lemma loadProgress_accepts_witness :
  fst (loadProgress "animals" Scenarios.annotated_entry)
  = Normal (Some (mkLessonProgress (of_Z 3) false true)).
Proof.
  apply (proj2 (proj1 (loadProgress_accepts "animals" Scenarios.annotated_entry
                         (mkLessonProgress (of_Z 3) false true)))).
  split; [discriminate|]. split; [reflexivity|].
  eexists _, _. repeat split; vm_compute; reflexivity.
Defined.

End LoadFacts.

(** ** Progress storage: debounced writes *)

Module DebounceFacts.
Import Js LocalStorage ProgressStorage ProgressSpec ProgressFacts DebounceSpec.

Lemma step_pending_scheduled w e w' :
  timers_agree w -> pending_scheduled w -> step w e = Some w' ->
  pending_scheduled w'.
Proof.
  intros Hagree [Hp Hdue] Hstep.
  destruct e as [categoryId data|ms|t]; simpl in Hstep.
  - injection Hstep as <-. unfold saveProgress.
    destruct (String.eqb_spec categoryId EmptyString) as [->|Hcat]; [split; assumption|].
    cbv zeta. split; cbn [pendingWrites debounceTimers timers clock].
    + intros c v Hc. destruct (decide (c = categoryId)) as [->|Hne].
      * rewrite lookup_insert_eq. split; [exact Hcat|eauto].
      * rewrite lookup_insert_ne in Hc by congruence.
        rewrite lookup_insert_ne by congruence. eauto.
    + intros t due c Ht. destruct (decide (t = nextTimer w)) as [->|Hne].
      * rewrite lookup_insert_eq in Ht. injection Ht as <- <-. lia.
      * rewrite lookup_insert_ne in Ht by congruence.
        destruct (debounceTimers w !! categoryId) as [old|].
        -- destruct (decide (t = old)) as [->|Hne'].
           ++ rewrite lookup_delete_eq in Ht. discriminate.
           ++ rewrite lookup_delete_ne in Ht by congruence. eauto.
        -- eauto.
  - destruct (0 <=? ms)%Z eqn:Hms; [|discriminate]. injection Hstep as <-.
    apply Z.leb_le in Hms. split; cbn [pendingWrites debounceTimers timers clock].
    + exact Hp.
    + intros t due c Ht. specialize (Hdue t due c Ht). lia.
  - destruct (timers w !! t) as [[due categoryId]|] eqn:Ht; [|discriminate].
    destruct (due <=? clock w)%Z eqn:Hle; [|discriminate].
    destruct (fire_spec w t due categoryId Hagree Ht Hle) as (data & _ & _ & Hfire).
    simpl in Hfire. rewrite Ht, Hle in Hfire. rewrite Hfire in Hstep.
    injection Hstep as <-. split; cbn [pendingWrites debounceTimers timers clock].
    + intros c v Hc. destruct (decide (c = categoryId)) as [->|Hne].
      * rewrite lookup_delete_eq in Hc. discriminate.
      * rewrite lookup_delete_ne in Hc by congruence.
        rewrite lookup_delete_ne by congruence. eauto.
    + intros t' due' c Ht'. destruct (decide (t' = t)) as [->|Hne].
      * rewrite lookup_delete_eq in Ht'. discriminate.
      * rewrite lookup_delete_ne in Ht' by congruence. eauto.
Qed.

Lemma exec_pending_scheduled events : forall w w',
  timers_agree w -> pending_scheduled w -> exec w events = Some w' ->
  timers_agree w' /\ pending_scheduled w'.
Proof.
  induction events as [|e events IH]; intros w w' Ha Hp Hexec; simpl in Hexec.
  - injection Hexec as <-. auto.
  - destruct (step w e) as [w1|] eqn:Hstep; [|discriminate].
    apply (IH w1 w'); [eapply step_agree; eauto|eapply step_pending_scheduled; eauto|exact Hexec].
Qed.

(** X16: pending writes and their timers.  In every state reached from
    the start of the module by calls, time passing and timers firing, a
    category with a pending write has a name and exactly one timer, which is
    the one the module holds for it and is due within [DEBOUNCE_MS] from
    now; a category without a pending write has no timer at all. *)
Theorem one_timer_per_pending_write (ls : Storage) (events : list Event) (w : World)
    (categoryId : string) :
  exec (initial_world ls) events = Some w ->
  match pendingWrites w !! categoryId with
  | Some _ =>
      categoryId <> EmptyString
      /\ exists t due,
           debounceTimers w !! categoryId = Some t
           /\ timers w !! t = Some (due, categoryId)
           /\ (due <= clock w + DEBOUNCE_MS)%Z
           /\ forall t' due', timers w !! t' = Some (due', categoryId) -> t' = t
  | None =>
      debounceTimers w !! categoryId = None
      /\ forall t due, timers w !! t <> Some (due, categoryId)
  end.
Proof.
  intros Hexec.
  destruct (exec_pending_scheduled events (initial_world ls) w) as [Ha [Hp Hdue]].
  { apply timers_agree_initial. }
  { split; [intros c v Hc; simpl in Hc; rewrite lookup_empty in Hc; discriminate|].
    intros t due c Ht. simpl in Ht. rewrite lookup_empty in Ht. discriminate. }
  { exact Hexec. }
  destruct Ha as (Hmod & Hhost & _).
  destruct (pendingWrites w !! categoryId) as [data|] eqn:Hpend.
  - destruct (Hp _ _ Hpend) as [Hcat [t Ht]]. split; [exact Hcat|].
    destruct (Hmod _ _ Ht) as [_ [due Hdue']].
    exists t, due. repeat split; eauto.
    intros t' due' Ht'. apply Hhost in Ht'. congruence.
  - assert (debounceTimers w !! categoryId = None) as Hnone.
    { destruct (debounceTimers w !! categoryId) as [t|] eqn:Ht; [|reflexivity].
      destruct (Hmod _ _ Ht) as [[v Hv] _]. congruence. }
    split; [exact Hnone|]. intros t due Ht. apply Hhost in Ht. congruence.
Qed.

Lemma setItem_other key value ls other :
  other <> key ->
  items match setItem key value ls with
        | Normal ls' => ls'
        | Throw _ => ls
        end !! other = items ls !! other.
Proof.
  intros Hne. unfold setItem. destruct (denied ls), (full ls); try reflexivity.
  cbn [items]. apply lookup_insert_ne. congruence.
Qed.

(** A step that works for another category. *)
Lemma step_other_category (w w' : World) (e : Event) (other : string) :
  timers_agree w ->
  step w e = Some w' ->
  concerns w e <> Some other ->
  pendingWrites w' !! other = pendingWrites w !! other
  /\ debounceTimers w' !! other = debounceTimers w !! other
  /\ items (localStorage w') !! storage_key other
     = items (localStorage w) !! storage_key other
  /\ forall t due, timers w' !! t = Some (due, other) <-> timers w !! t = Some (due, other).
Proof.
  intros Hagree Hstep Hother. pose proof Hagree as (Hmod & Hhost & Hfresh).
  destruct e as [categoryId data|ms|t]; simpl in Hstep, Hother.
  - injection Hstep as <-. unfold saveProgress.
    destruct (String.eqb categoryId EmptyString); [tauto|].
    assert (categoryId <> other) as Hne by congruence.
    cbv zeta. cbn [pendingWrites debounceTimers timers localStorage].
    rewrite !lookup_insert_ne by exact Hne.
    repeat split; try reflexivity.
    + intros Ht. destruct (decide (t = nextTimer w)) as [->|Hnt].
      * rewrite lookup_insert_eq in Ht. congruence.
      * rewrite lookup_insert_ne in Ht by congruence.
        destruct (debounceTimers w !! categoryId) as [old|]; [|exact Ht].
        destruct (decide (t = old)) as [->|Hno].
        -- rewrite lookup_delete_eq in Ht. discriminate.
        -- rewrite lookup_delete_ne in Ht by congruence. exact Ht.
    + intros Ht. assert (t <> nextTimer w) as Hnt.
      { intros ->. rewrite Hfresh in Ht by lia. discriminate. }
      rewrite lookup_insert_ne by congruence.
      destruct (debounceTimers w !! categoryId) as [old|] eqn:Hold; [|exact Ht].
      assert (t <> old) as Hno.
      { intros ->. destruct (Hmod _ _ Hold) as [_ [due' Hdue']]. congruence. }
      rewrite lookup_delete_ne by congruence. exact Ht.
  - destruct (0 <=? ms)%Z; [|discriminate]. injection Hstep as <-.
    cbn [pendingWrites debounceTimers timers localStorage]. tauto.
  - destruct (timers w !! t) as [[due categoryId]|] eqn:Ht; [|discriminate].
    destruct (due <=? clock w)%Z eqn:Hle; [|discriminate].
    assert (categoryId <> other) as Hne by congruence.
    destruct (fire_spec w t due categoryId Hagree Ht Hle) as (data & _ & _ & Hfire).
    simpl in Hfire. rewrite Ht, Hle in Hfire. rewrite Hfire in Hstep.
    injection Hstep as <-. cbn [pendingWrites debounceTimers timers localStorage].
    rewrite !lookup_delete_ne by exact Hne.
    rewrite setItem_other by (intros Hk; apply storage_key_inj in Hk; congruence).
    repeat split; try reflexivity.
    + intros Ht'. destruct (decide (t0 = t)) as [->|Hnt].
      * rewrite lookup_delete_eq in Ht'. discriminate.
      * rewrite lookup_delete_ne in Ht' by congruence. exact Ht'.
    + intros Ht'. assert (t0 <> t) as Hnt by congruence.
      rewrite lookup_delete_ne by congruence. exact Ht'.
Qed.

(** X17: categories do not disturb each other.  Calls of [saveProgress]
    for other categories, the firing of their timers and the passing of
    time, with a storage that may refuse the writes, leave the pending
    write, the timer and the stored entry of a category as they were. *)
Theorem categories_independent (w w' : World) (events : list Event)
    (other : string) :
  timers_agree w ->
  exec w events = Some w' ->
  never_concerns other w events ->
  pendingWrites w' !! other = pendingWrites w !! other
  /\ debounceTimers w' !! other = debounceTimers w !! other
  /\ items (localStorage w') !! storage_key other
     = items (localStorage w) !! storage_key other
  /\ forall t due, timers w' !! t = Some (due, other) <-> timers w !! t = Some (due, other).
Proof.
  revert w. induction events as [|e events IH]; intros w Hagree Hexec Hnever.
  - simpl in Hexec. injection Hexec as <-. tauto.
  - simpl in Hexec, Hnever. destruct Hnever as [Hother Hrest].
    destruct (step w e) as [w1|] eqn:Hstep; [|discriminate].
    destruct (step_other_category w w1 e other Hagree Hstep Hother)
      as (Hp & Hd & Hi & Ht).
    destruct (IH w1 (step_agree _ _ _ Hagree Hstep) Hexec Hrest)
      as (Hp' & Hd' & Hi' & Ht').
    rewrite Hp', Hd', Hi', Hp, Hd, Hi. repeat split; try reflexivity.
    + intros H. apply Ht, Ht', H.
    + intros H. apply Ht', Ht, H.
Qed.

(** X18: a write that the storage refuses is dropped.  When the timer of a
    category fires on a storage that cannot be accessed or is full, the
    call does not throw, the storage stays as it was, and the pending value
    and the timer are gone: nothing is left that would try again. *)
Theorem refused_write_is_dropped (w : World) (t : positive) (due : Z)
    (categoryId : string) :
  timers_agree w ->
  timers w !! t = Some (due, categoryId) ->
  (due <= clock w)%Z ->
  denied (localStorage w) = true \/ full (localStorage w) = true ->
  exists w',
    step w (Fire t) = Some w'
    /\ is_Some (pendingWrites w !! categoryId)
    /\ localStorage w' = localStorage w
    /\ pendingWrites w' !! categoryId = None
    /\ debounceTimers w' !! categoryId = None
    /\ forall t' due', timers w' !! t' <> Some (due', categoryId).
Proof.
  intros Hagree Ht Hdue Hrefused.
  destruct (fire_spec w t due categoryId Hagree Ht) as (data & Hp & Hd & Hfire).
  { apply Z.leb_le, Hdue. }
  eexists. split; [exact Hfire|].
  cbn [pendingWrites debounceTimers timers localStorage].
  rewrite !lookup_delete_eq. repeat split; eauto.
  - unfold setItem. destruct Hrefused as [-> | Hf]; [reflexivity|].
    rewrite Hf. destruct (denied (localStorage w)); reflexivity.
  - intros t' due' Ht'. destruct (decide (t' = t)) as [->|Hne].
    + rewrite lookup_delete_eq in Ht'. discriminate.
    + rewrite lookup_delete_ne in Ht' by congruence.
      destruct Hagree as (_ & Hhost & _). apply Hhost in Ht'. congruence.
Qed.

Lemma requested_more events events' entry :
  (forall e, In e events -> In e events') ->
  requested events entry -> requested events' entry.
Proof. intros Hsub (c & data & Hin & Hcat & ->). exists c, data. auto. Qed.

Lemma step_accounted_for ls past w e w' :
  accounted_for ls past w -> step w e = Some w' ->
  accounted_for ls (past ++ [e]) w'.
Proof.
  intros [Hp (new & Hw & Hnew)] Hstep.
  assert (forall e0, In e0 past -> In e0 (past ++ [e])) as Hsub
    by (intros e0 Hin; apply in_or_app; auto).
  assert (Forall (requested (past ++ [e])) new) as Hnew'.
  { eapply Forall_impl; [exact Hnew|]. intros entry. apply requested_more, Hsub. }
  destruct e as [categoryId data|ms|t]; simpl in Hstep.
  - injection Hstep as <-. unfold saveProgress.
    destruct (String.eqb_spec categoryId EmptyString) as [->|Hcat].
    + split; [|eauto]. intros c v Hc. destruct (Hp c v Hc). auto.
    + cbv zeta. split; cbn [pendingWrites localStorage]; [|eauto].
      intros c v Hc. destruct (decide (c = categoryId)) as [->|Hne].
      * rewrite lookup_insert_eq in Hc. injection Hc as ->.
        split; [exact Hcat|]. apply in_or_app. right. left. reflexivity.
      * rewrite lookup_insert_ne in Hc by congruence. destruct (Hp c v Hc). auto.
  - destruct (0 <=? ms)%Z; [|discriminate]. injection Hstep as <-.
    split; cbn [pendingWrites localStorage]; [|eauto].
    intros c v Hc. destruct (Hp c v Hc). auto.
  - destruct (timers w !! t) as [[due categoryId]|]; [|discriminate].
    destruct (due <=? clock w)%Z; [|discriminate]. injection Hstep as <-.
    unfold debouncedWriteProgress. cbn [pendingWrites localStorage debounceTimers].
    destruct (pendingWrites w !! categoryId) as [data|] eqn:Hpend.
    + cbv zeta. split; cbn [pendingWrites localStorage].
      * intros c v Hc. destruct (decide (c = categoryId)) as [->|Hne].
        -- rewrite lookup_delete_eq in Hc. discriminate.
        -- rewrite lookup_delete_ne in Hc by congruence. destruct (Hp c v Hc). auto.
      * destruct (Hp _ _ Hpend) as [Hcat Hin].
        unfold setItem. destruct (denied (localStorage w)); [eauto|].
        destruct (full (localStorage w)); [eauto|].
        exists (new ++ [(storage_key categoryId, JSON_stringify (progress_object data))]).
        cbn [written]. rewrite Hw, app_assoc. split; [reflexivity|].
        apply Forall_app. split; [exact Hnew'|].
        constructor; [|constructor]. exists categoryId, data. auto.
    + split; cbn [pendingWrites localStorage]; [|eauto].
      intros c v Hc. destruct (Hp c v Hc). auto.
Qed.

Lemma exec_accounted_for ls events : forall past w w',
  accounted_for ls past w -> exec w events = Some w' ->
  accounted_for ls (past ++ events) w'.
Proof.
  induction events as [|e events IH]; intros past w w' Hacc Hexec; simpl in Hexec.
  - injection Hexec as <-. rewrite app_nil_r. exact Hacc.
  - destruct (step w e) as [w1|] eqn:Hstep; [|discriminate].
    replace (past ++ e :: events) with ((past ++ [e]) ++ events)
      by (rewrite <- app_assoc; reflexivity).
    apply (IH _ w1 w'); [eapply step_accounted_for; eauto|exact Hexec].
Qed.

(** X19: where the stored entries come from.  Every entry written since
    the start of the module is the serialisation of a value that a call of
    [saveProgress] was given, for a category with a name, under the key of
    that category. *)
Theorem writes_were_requested (ls : Storage) (events : list Event) (w : World) :
  exec (initial_world ls) events = Some w ->
  exists new,
    written (localStorage w) = written ls ++ new
    /\ Forall (requested events) new.
Proof.
  intros Hexec.
  destruct (exec_accounted_for ls events [] (initial_world ls) w) as [_ H].
  - split.
    + intros c v Hc. simpl in Hc. rewrite lookup_empty in Hc. discriminate.
    + exists []. simpl. rewrite app_nil_r. auto.
  - exact Hexec.
  - exact H.
Qed.

Lemma timers_agree_after_three_calls : timers_agree Scenarios.after_three_calls.
Proof.
  apply (exec_agree Scenarios.three_calls (initial_world empty_storage));
    [apply timers_agree_initial|vm_compute; reflexivity].
Qed.

Lemma timers_agree_waiting_on_full : timers_agree Scenarios.waiting_on_full.
Proof.
  apply (exec_agree [Save "animals" Inputs.animals_first; Wait 200]
           (initial_world Scenarios.full_storage));
    [apply timers_agree_initial|vm_compute; reflexivity].
Qed.

Lemma one_timer_per_pending_write_witness :
  match pendingWrites Scenarios.after_three_calls !! "animals" with
  | Some _ =>
      "animals" <> EmptyString
      /\ exists t due,
           debounceTimers Scenarios.after_three_calls !! "animals" = Some t
           /\ timers Scenarios.after_three_calls !! t = Some (due, "animals")
           /\ (due <= clock Scenarios.after_three_calls + DEBOUNCE_MS)%Z
           /\ forall t' due',
                timers Scenarios.after_three_calls !! t' = Some (due', "animals") ->
                t' = t
  | None =>
      debounceTimers Scenarios.after_three_calls !! "animals" = None
      /\ forall t due, timers Scenarios.after_three_calls !! t <> Some (due, "animals")
  end.
Proof.
  apply (one_timer_per_pending_write empty_storage Scenarios.three_calls
           Scenarios.after_three_calls "animals").
  vm_compute. reflexivity.
Defined.

Lemma categories_independent_witness :
  pendingWrites Scenarios.after_animals_busy !! "birds"
  = pendingWrites Scenarios.after_three_calls !! "birds"
  /\ debounceTimers Scenarios.after_animals_busy !! "birds"
     = debounceTimers Scenarios.after_three_calls !! "birds"
  /\ items (localStorage Scenarios.after_animals_busy) !! storage_key "birds"
     = items (localStorage Scenarios.after_three_calls) !! storage_key "birds"
  /\ forall t due,
       timers Scenarios.after_animals_busy !! t = Some (due, "birds")
       <-> timers Scenarios.after_three_calls !! t = Some (due, "birds").
Proof.
  apply (categories_independent Scenarios.after_three_calls
           Scenarios.after_animals_busy Scenarios.animals_busy "birds").
  - apply timers_agree_after_three_calls.
  - vm_compute. reflexivity.
  - vm_compute. repeat split; discriminate.
Defined.

Lemma refused_write_is_dropped_witness :
  exists w',
    step Scenarios.waiting_on_full (Fire 1%positive) = Some w'
    /\ is_Some (pendingWrites Scenarios.waiting_on_full !! "animals")
    /\ localStorage w' = localStorage Scenarios.waiting_on_full
    /\ pendingWrites w' !! "animals" = None
    /\ debounceTimers w' !! "animals" = None
    /\ forall t' due', timers w' !! t' <> Some (due', "animals").
Proof.
  apply (refused_write_is_dropped Scenarios.waiting_on_full 1%positive 200%Z "animals").
  - apply timers_agree_waiting_on_full.
  - vm_compute. reflexivity.
  - vm_compute. discriminate.
  - right. reflexivity.
Defined.

Lemma writes_were_requested_witness :
  exists new,
    written (localStorage Inputs.after_one_request) = written empty_storage ++ new
    /\ Forall (requested (Save "animals" Inputs.animals_second :: Inputs.one_request))
              new.
Proof.
  apply (writes_were_requested empty_storage
           (Save "animals" Inputs.animals_second :: Inputs.one_request)
           Inputs.after_one_request).
  vm_compute. reflexivity.
Defined.

Lemma step_awaiting categoryId data t0 called w e w' :
  timers_agree w ->
  awaiting categoryId data t0 called w ->
  other_request categoryId e ->
  step w e = Some w' ->
  awaiting categoryId data t0 called w'
  /\ clock w' = (clock w + elapsed [e])%Z.
Proof.
  intros Hagree Haw Hother Hstep.
  assert (clock w' = (clock w + elapsed [e])%Z) as Hclock.
  { destruct e as [c d|ms|t]; simpl in Hstep |- *.
    - injection Hstep as <-. unfold saveProgress.
      destruct (String.eqb c EmptyString); simpl; lia.
    - destruct (0 <=? ms)%Z; [|discriminate]. injection Hstep as <-. simpl. lia.
    - destruct (timers w !! t) as [[due c]|]; [|discriminate].
      destruct (due <=? clock w)%Z; [|discriminate]. injection Hstep as <-.
      unfold debouncedWriteProgress. simpl.
      destruct (pendingWrites w !! c); simpl; lia. }
  split; [|exact Hclock].
  destruct (decide (concerns w e = Some categoryId)) as [Hc|Hc].
  - (* the timer of the category fires *)
    destruct e as [c d|ms|t]; simpl in Hc.
    + injection Hc as ->. destruct (Hother d). reflexivity.
    + discriminate.
    + destruct (timers w !! t) as [[due c]|] eqn:Ht; [|discriminate].
      injection Hc as ->. simpl in Hstep. rewrite Ht in Hstep.
      destruct (due <=? clock w)%Z eqn:Hle; [|discriminate].
      destruct (fire_spec w t due categoryId Hagree Ht Hle) as (d & _ & _ & Hfire).
      simpl in Hfire. rewrite Ht, Hle in Hfire. rewrite Hfire in Hstep.
      injection Hstep as <-. right. cbn [timers].
      intros t' due' Ht'. destruct (decide (t' = t)) as [->|Hne].
      * rewrite lookup_delete_eq in Ht'. discriminate.
      * rewrite lookup_delete_ne in Ht' by congruence.
        destruct Hagree as (_ & Hhost & _).
        pose proof (Hhost _ _ _ Ht') as H1. pose proof (Hhost _ _ _ Ht) as H2.
        congruence.
  - destruct (step_other_category w w' e categoryId Hagree Hstep Hc)
      as (Hp & Hd & _ & Ht).
    destruct Haw as [(Hpend & Hdeb & Htim) | Hnone].
    + left. rewrite Hp, Hd. repeat split; try assumption. apply Ht, Htim.
    + right. intros t due Htd. apply Ht in Htd. exact (Hnone _ _ Htd).
Qed.

Lemma elapsed_cons e events : elapsed (e :: events) = (elapsed [e] + elapsed events)%Z.
Proof. destruct e; simpl; lia. Qed.

Lemma exec_awaiting categoryId data t0 called events : forall w w',
  timers_agree w ->
  awaiting categoryId data t0 called w ->
  Forall (other_request categoryId) events ->
  exec w events = Some w' ->
  timers_agree w'
  /\ awaiting categoryId data t0 called w'
  /\ clock w' = (clock w + elapsed events)%Z.
Proof.
  induction events as [|e events IH]; intros w w' Hagree Haw Hall Hexec.
  - simpl in Hexec. injection Hexec as <-.
    split; [exact Hagree|]. split; [exact Haw|]. simpl. lia.
  - simpl in Hexec. destruct (step w e) as [w1|] eqn:Hstep; [|discriminate].
    inversion Hall as [|? ? He Hrest]; subst.
    destruct (step_awaiting _ _ _ _ _ _ _ Hagree Haw He Hstep) as [Haw1 Hc1].
    destruct (IH w1 w' (step_agree _ _ _ Hagree Hstep) Haw1 Hrest Hexec)
      as (Ha & Haw' & Hc').
    split; [exact Ha|]. split; [exact Haw'|].
    rewrite Hc', Hc1, (elapsed_cons e events). lia.
Qed.

(** X20: the quiet period is respected.  After a call of [saveProgress]
    for a category and any events other than a further call for it, a
    timer that fires for the category is the timer of that call, fires no
    sooner than [DEBOUNCE_MS] after it, and finds the value of that call
    pending; a storage that takes writes then holds its serialisation. *)
Theorem quiet_period_respected (categoryId : string) (data : LessonProgress)
    (w0 w1 w2 : World) (events : list Event) (t : positive) :
  categoryId <> EmptyString ->
  timers_agree w0 ->
  Forall (other_request categoryId) events ->
  exec (saveProgress categoryId data w0) events = Some w1 ->
  concerns w1 (Fire t) = Some categoryId ->
  step w1 (Fire t) = Some w2 ->
  (DEBOUNCE_MS <= elapsed events)%Z
  /\ t = nextTimer w0
  /\ pendingWrites w1 !! categoryId = Some data
  /\ (healthy (localStorage w1) ->
      items (localStorage w2) !! storage_key categoryId
      = Some (JSON_stringify (progress_object data))).
Proof.
  intros Hcat Hagree Hall Hexec Hconc Hstep.
  destruct (saveProgress_spec categoryId data w0 Hcat)
    as (_ & Hclock & _ & Hpend & Hdeb & Htim).
  destruct (exec_awaiting categoryId data (nextTimer w0) (clock w0) events
              (saveProgress categoryId data w0) w1) as (Hagree1 & Haw & Hclock1).
  { apply saveProgress_agree, Hagree. }
  { left. auto. }
  { exact Hall. }
  { exact Hexec. }
  simpl in Hconc.
  destruct (timers w1 !! t) as [[due c]|] eqn:Ht; [|discriminate].
  injection Hconc as ->.
  destruct Haw as [(Hp1 & Hd1 & Ht1) | Hnone]; [|destruct (Hnone _ _ Ht)].
  assert (t = nextTimer w0) as ->.
  { destruct Hagree1 as (_ & Hhost & _). apply Hhost in Ht. congruence. }
  rewrite Ht1 in Ht. injection Ht as <-.
  simpl in Hstep. rewrite Ht1 in Hstep.
  destruct (clock w0 + DEBOUNCE_MS <=? clock w1)%Z eqn:Hle; [|discriminate].
  apply Z.leb_le in Hle. rewrite Hclock1, Hclock in Hle.
  split; [lia|]. split; [reflexivity|]. split; [exact Hp1|].
  intros Hhealthy. injection Hstep as <-.
  unfold debouncedWriteProgress. cbn [pendingWrites localStorage]. rewrite Hp1.
  cbv zeta. cbn [localStorage]. fold (storage_key categoryId).
  rewrite (setItem_healthy _ _ _ Hhealthy). cbn [items]. apply lookup_insert_eq.
Qed.

Lemma quiet_period_respected_witness :
  (DEBOUNCE_MS <= elapsed [Wait 200])%Z
  /\ 1%positive = nextTimer (initial_world empty_storage)
  /\ pendingWrites Scenarios.after_quiet_period !! "animals"
     = Some Inputs.animals_second
  /\ (healthy (localStorage Scenarios.after_quiet_period) ->
      items (localStorage Inputs.after_one_request) !! storage_key "animals"
      = Some (JSON_stringify (progress_object Inputs.animals_second))).
Proof.
  apply (quiet_period_respected "animals" Inputs.animals_second
           (initial_world empty_storage) Scenarios.after_quiet_period
           Inputs.after_one_request [Wait 200] 1%positive).
  - discriminate.
  - apply timers_agree_initial.
  - repeat constructor. intros data. discriminate.
  - vm_compute. reflexivity.
  - vm_compute. reflexivity.
  - vm_compute. reflexivity.
Defined.

End DebounceFacts.

(** ** The settings panel *)

Module SettingsFacts.
Import Js LocalStorage SettingsPanel SettingsControls SettingsSpec.
Import ProgressSpec ProgressFacts.

Lemma saveToStorage_healthy key value ls :
  healthy ls ->
  saveToStorage key value ls
  = mkStorage (<[key := String_of value]> (items ls)) false false
              (written ls ++ [(key, String_of value)]).
Proof.
  intros H. unfold saveToStorage. rewrite (setItem_healthy _ _ _ H). reflexivity.
Qed.

Lemma saveToStorage_refused key value ls :
  denied ls = true \/ full ls = true -> saveToStorage key value ls = ls.
Proof.
  unfold saveToStorage, setItem. intros [-> | ->]; [reflexivity|].
  destruct (denied ls); reflexivity.
Qed.

(** X21: a stored switch.  On a storage that takes the write,
    [loadBooleanFromStorage] returns the boolean that [saveToStorage] was
    given under the same key, whatever the default, and the other entries
    are untouched; on a storage that refuses, [saveToStorage] leaves the
    storage as it was and does not throw. *)
Theorem boolean_setting_round_trip (key : string) (b defaultValue : bool)
    (ls : Storage) :
  (healthy ls ->
   loadBooleanFromStorage key defaultValue (saveToStorage key (Boolean b) ls) = b
   /\ forall other, other <> key ->
        items (saveToStorage key (Boolean b) ls) !! other = items ls !! other)
  /\ (denied ls = true \/ full ls = true ->
      saveToStorage key (Boolean b) ls = ls).
Proof.
  split; [|apply saveToStorage_refused].
  intros H. rewrite (saveToStorage_healthy _ _ _ H). split.
  - unfold loadBooleanFromStorage, getItem. cbn [denied items].
    rewrite lookup_insert_eq. destruct b; reflexivity.
  - intros other Hne. cbn [items]. apply lookup_insert_ne. congruence.
Qed.

Lemma toggle_spec showCamera ls :
  healthy ls ->
  let '(newValue, ls', event) := handleShowCameraToggle showCamera ls in
  newValue = negb showCamera
  /\ healthy (saveShowCameraEffect newValue ls')
  /\ loadShowCamera (saveShowCameraEffect newValue ls') = newValue
  /\ items ls' !! fst event = Some (snd event).
Proof.
  intros H. unfold handleShowCameraToggle, saveShowCameraEffect. cbv zeta.
  rewrite (saveToStorage_healthy _ _ _ H).
  rewrite saveToStorage_healthy by (split; reflexivity).
  split; [reflexivity|]. split; [split; reflexivity|].
  unfold loadShowCamera, loadBooleanFromStorage, getItem. cbn [denied items fst snd].
  rewrite !lookup_insert_eq. split; [|reflexivity].
  destruct showCamera; reflexivity.
Qed.

(** X22: the camera switch.  After pressing the switch [n] times on a
    storage that takes writes, the state is the initial one when [n] is
    even and its negation when [n] is odd, and after at least one press
    [loadShowCamera] returns the state. *)
Theorem camera_switch_agrees_with_storage (n : nat) (showCamera : bool) (ls : Storage) :
  healthy ls ->
  fst (toggles n showCamera ls) = (if Nat.even n then showCamera else negb showCamera)
  /\ (0 < n ->
      loadShowCamera (snd (toggles n showCamera ls)) = fst (toggles n showCamera ls)).
Proof.
  revert showCamera ls. induction n as [|n IH]; intros showCamera ls H.
  - split; [reflexivity|lia].
  - cbn [toggles]. pose proof (toggle_spec showCamera ls H) as Ht.
    destruct (handleShowCameraToggle showCamera ls) as [[newValue ls'] event].
    destruct Ht as (-> & H' & Hload & _).
    destruct (IH (negb showCamera) (saveShowCameraEffect (negb showCamera) ls') H')
      as [Hstate Hagree].
    split.
    + rewrite Hstate. rewrite Nat.even_succ, <- Nat.negb_even.
      destruct (Nat.even n), showCamera; reflexivity.
    + intros _. destruct n as [|n']; [exact Hload|]. apply Hagree. lia.
Qed.

Lemma slider_positions_checked :
  forallb (fun k => CameraFeedControls.accepted (slider_position k)
                    && number_reads_back (slider_position k))
          (seq 0 101) = true.
Proof. vm_compute. reflexivity. Qed.

(** The positions of the slider are accepted and their texts read back. *)
Lemma slider_positions_read_back (k : nat) :
  k <= 100 ->
  CameraFeedControls.accepted (slider_position k) = true
  /\ parseFloat (Number_toString (slider_position k)) = slider_position k.
Proof.
  intros Hk. pose proof slider_positions_checked as Hall.
  rewrite forallb_forall in Hall.
  specialize (Hall k). rewrite andb_true_iff in Hall.
  destruct Hall as [Ha Hr]; [apply in_seq; lia|].
  split; [exact Ha|]. unfold number_reads_back in Hr.
  apply bool_decide_eq_true in Hr. exact Hr.
Qed.


(** ** The two loaders of the sensitivity *)

Lemma default_sensitivity_accepted :
  CameraFeedControls.accepted DEFAULT_GESTURE_SENSITIVITY = true.
Proof. vm_compute. reflexivity. Qed.

(** X24: the two loaders of the sensitivity compared.  The panel's
    [loadGestureSensitivity] and the camera feed's initialiser return the
    same number unless the stored text parses to a number outside the range
    from 0 to 1; then the panel returns that number and the camera feed the
    default, and the two differ. *)
Theorem sensitivity_loaders_compared (ls : Storage) (stored : string) :
  ((forall text,
       getItem GESTURE_SENSITIVITY ls = Normal (Some text) ->
       isNaN (parseFloat text) = true
       \/ CameraFeedControls.accepted (parseFloat text) = true) ->
   loadGestureSensitivity ls = CameraFeed.initialNumericSensitivity ls)
  /\ (getItem GESTURE_SENSITIVITY ls = Normal (Some stored) ->
      isNaN (parseFloat stored) = false ->
      CameraFeedControls.accepted (parseFloat stored) = false ->
      loadGestureSensitivity ls = parseFloat stored
      /\ CameraFeed.initialNumericSensitivity ls = DEFAULT_GESTURE_SENSITIVITY
      /\ loadGestureSensitivity ls <> CameraFeed.initialNumericSensitivity ls).
Proof.
  unfold loadGestureSensitivity, loadNumberFromStorage,
    CameraFeed.initialNumericSensitivity, GESTURE_SENSITIVITY,
    CameraFeedControls.accepted.
  fold DEFAULT_GESTURE_SENSITIVITY. split.
  - intros Hcases.
    destruct (getItem "gestureSensitivity" ls) as [[text|]|e]; try reflexivity.
    cbv zeta. destruct (Hcases text eq_refl) as [Hnan | Hacc].
    + rewrite Hnan. reflexivity.
    + rewrite Hacc. apply andb_true_iff in Hacc as [Hacc _].
      apply andb_true_iff in Hacc as [Hnan _]. rewrite Hnan. reflexivity.
  - intros -> Hnan Hacc. cbv zeta. rewrite Hacc, Hnan. cbn [negb].
    split; [reflexivity|]. split; [reflexivity|].
    intros Heq. pose proof default_sensitivity_accepted as Hd.
    unfold CameraFeedControls.accepted in Hd. rewrite <- Heq in Hd. congruence.
Qed.

Lemma sensitivity_loaders_compared_witness :
  loadGestureSensitivity Inputs.stored_five = parseFloat "5"
  /\ CameraFeed.initialNumericSensitivity Inputs.stored_five
     = DEFAULT_GESTURE_SENSITIVITY
  /\ loadGestureSensitivity Inputs.stored_five
     <> CameraFeed.initialNumericSensitivity Inputs.stored_five.
Proof.
  apply (proj2 (sensitivity_loaders_compared Inputs.stored_five "5")).
  - reflexivity.
  - vm_compute. reflexivity.
  - vm_compute. reflexivity.
Defined.

(** ** The reset *)

Lemma keys_of_elem key ls : key ∈ keys_of ls <-> is_Some (items ls !! key).
Proof.
  unfold keys_of. rewrite list_elem_of_fmap. split.
  - intros ([k v] & -> & Hin). apply elem_of_map_to_list in Hin. simpl. eauto.
  - intros [v Hv]. exists (key, v). split; [reflexivity|].
    apply elem_of_map_to_list. exact Hv.
Qed.

Lemma keys_of_NoDup ls : NoDup (keys_of ls).
Proof. apply NoDup_fst_map_to_list. Qed.

(** The loop collects the progress keys in the order of the storage. *)
Lemma collect_progress_keys_spec ls remaining : forall i keysToRemove,
  denied ls = false ->
  i + remaining = length (keys_of ls) ->
  collect_progress_keys remaining i ls keysToRemove
  = Normal (keysToRemove
            ++ List.filter (fun k => is_progress_key (Some k)) (drop i (keys_of ls))).
Proof.
  induction remaining as [|remaining IH]; intros i acc Hd Hlen.
  - simpl. rewrite drop_ge by lia. simpl. rewrite app_nil_r. reflexivity.
  - cbn [collect_progress_keys]. unfold Storage_key. rewrite Hd. cbn [bind].
    destruct (lookup_lt_is_Some_2 (keys_of ls) i) as [k Hk]; [lia|].
    rewrite Hk, IH by (auto; lia).
    rewrite (drop_S _ _ _ Hk). cbn [List.filter].
    destruct (is_progress_key (Some k)); [|reflexivity].
    rewrite <- app_assoc. reflexivity.
Qed.

Lemma count_progress_keys_spec ls remaining : forall i progressCount,
  denied ls = false ->
  i + remaining = length (keys_of ls) ->
  count_progress_keys remaining i ls progressCount
  = progressCount
    + length (List.filter (fun k => is_progress_key (Some k)) (drop i (keys_of ls))).
Proof.
  induction remaining as [|remaining IH]; intros i acc Hd Hlen.
  - simpl. rewrite drop_ge by lia. simpl. lia.
  - cbn [count_progress_keys]. unfold Storage_key. rewrite Hd.
    destruct (lookup_lt_is_Some_2 (keys_of ls) i) as [k Hk]; [lia|].
    rewrite Hk, IH by (auto; lia).
    rewrite (drop_S _ _ _ Hk). cbn [List.filter].
    destruct (is_progress_key (Some k)); simpl; lia.
Qed.

Lemma remove_each_spec keysToRemove : forall ls,
  denied ls = false ->
  exists ls',
    remove_each keysToRemove ls = Normal ls'
    /\ denied ls' = false /\ full ls' = full ls /\ written ls' = written ls
    /\ forall key, items ls' !! key
                   = if decide (key ∈ keysToRemove) then None else items ls !! key.
Proof.
  induction keysToRemove as [|k rest IH]; intros ls Hd.
  - exists ls. split; [reflexivity|]. split; [exact Hd|].
    split; [reflexivity|]. split; [reflexivity|]. intros key.
    rewrite decide_False by apply not_elem_of_nil. reflexivity.
  - cbn [remove_each]. rewrite (removeItem_allowed _ _ Hd). cbn [bind].
    destruct (IH (mkStorage (delete k (items ls)) (denied ls) (full ls) (written ls)) Hd)
      as (ls' & Hrun & Hd' & Hf' & Hw' & Hitems).
    exists ls'. split; [exact Hrun|]. split; [exact Hd'|].
    split; [exact Hf'|]. split; [exact Hw'|].
    intros key. rewrite Hitems. cbn [items].
    destruct (decide (key = k)) as [->|Hne].
    + rewrite lookup_delete_eq. rewrite (decide_True (P := k ∈ k :: rest))
        by (left). destruct (decide (k ∈ rest)); reflexivity.
    + rewrite lookup_delete_ne by congruence.
      destruct (decide (key ∈ rest)) as [Hin|Hout].
      * rewrite decide_True by (right; exact Hin). reflexivity.
      * rewrite decide_False; [reflexivity|].
        intros Hin. apply elem_of_cons in Hin as [?|?]; tauto.
Qed.

Lemma storage_key_is_progress_key categoryId :
  is_progress_key (Some (storage_key categoryId)) = true.
Proof. reflexivity. Qed.

Lemma resetAllProgress_allowed ls :
  denied ls = false ->
  exists ls',
    resetAllProgress ls = Normal ls'
    /\ denied ls' = false
    /\ written ls' = written ls
    /\ forall key,
         items ls' !! key
         = if is_progress_key (Some key) || String.eqb key "gestureLog"
           then None else items ls !! key.
Proof.
  intros Hd. unfold resetAllProgress, Storage_length. rewrite Hd. cbn [bind].
  rewrite collect_progress_keys_spec by (auto; lia). cbn [bind].
  rewrite drop_0, app_nil_l.
  set (keysToRemove := List.filter _ _).
  destruct (remove_each_spec keysToRemove ls Hd) as (ls1 & -> & Hd1 & _ & Hw1 & Hitems).
  cbn [bind]. rewrite (removeItem_allowed _ _ Hd1).
  eexists. split; [reflexivity|]. split; [exact Hd1|]. split; [exact Hw1|].
  intros key. cbn [items].
  destruct (String.eqb_spec key "gestureLog") as [->|Hne].
  - rewrite orb_true_r. apply lookup_delete_eq.
  - rewrite orb_false_r, lookup_delete_ne by congruence. rewrite Hitems.
    destruct (is_progress_key (Some key)) eqn:Hp.
    + destruct (decide (key ∈ keysToRemove)) as [_|Hout]; [reflexivity|].
      destruct (items ls !! key) as [v|] eqn:Hv; [|reflexivity].
      exfalso. apply Hout. unfold keysToRemove.
      apply list_elem_of_In, filter_In. split; [|exact Hp].
      apply list_elem_of_In, keys_of_elem. eauto.
    + rewrite decide_False; [reflexivity|].
      unfold keysToRemove. intros Hin.
      apply list_elem_of_In, filter_In in Hin as [_ Hp']. congruence.
Qed.

(** X25: the reset.  On a storage that can be accessed,
    [resetAllProgress] removes every entry whose key starts with
    [progress:] and the entry [gestureLog], leaves all other entries alone
    and writes nothing, and [loadProgress] then returns [null] for every
    category without changing the storage; on a storage that cannot be
    accessed it throws. *)
Theorem reset_removes_all_progress (ls : Storage) :
  (denied ls = true -> resetAllProgress ls = Throw SecurityError)
  /\ (denied ls = false ->
      exists ls',
        resetAllProgress ls = Normal ls'
        /\ (forall key,
              items ls' !! key
              = if is_progress_key (Some key) || String.eqb key "gestureLog"
                then None else items ls !! key)
        /\ written ls' = written ls
        /\ forall categoryId,
             ProgressStorage.loadProgress categoryId ls' = (Normal None, ls')).
Proof.
  split.
  - intros Hd. unfold resetAllProgress, Storage_length. rewrite Hd. reflexivity.
  - intros Hd.
    destruct (resetAllProgress_allowed ls Hd) as (ls' & Hrun & Hd' & Hw & Hitems).
    exists ls'. repeat split; try assumption.
    intros categoryId. unfold ProgressStorage.loadProgress.
    destruct (String.eqb categoryId EmptyString); [reflexivity|].
    cbv zeta. fold (storage_key categoryId).
    rewrite LoadFacts.load_attempt_allowed by exact Hd'.
    rewrite Hitems, storage_key_is_progress_key. reflexivity.
Qed.

(** X26: the count that the confirmation shows is the number of entries
    that the reset removes besides [gestureLog]: the keys counted are,
    without repetition, the keys of the storage that start with
    [progress:], and none of them is left. *)
Theorem announced_count_is_removed (ls : Storage) :
  denied ls = false ->
  exists removed ls',
    resetAllProgress ls = Normal ls'
    /\ progressCount ls = length removed
    /\ NoDup removed
    /\ (forall key, key ∈ removed
                    <-> is_progress_key (Some key) = true
                        /\ is_Some (items ls !! key))
    /\ forall key, key ∈ removed -> items ls' !! key = None.
Proof.
  intros Hd.
  destruct (resetAllProgress_allowed ls Hd) as (ls' & Hrun & _ & _ & Hitems).
  exists (List.filter (fun k => is_progress_key (Some k)) (keys_of ls)), ls'.
  split; [exact Hrun|]. split; [|split; [|split]].
  - unfold progressCount, Storage_length. rewrite Hd.
    rewrite count_progress_keys_spec by (auto; lia). rewrite drop_0. reflexivity.
  - apply NoDup_ListNoDup, List.NoDup_filter, NoDup_ListNoDup, keys_of_NoDup.
  - intros key. rewrite list_elem_of_In, filter_In, <- list_elem_of_In, keys_of_elem.
    tauto.
  - intros key Hin. apply list_elem_of_In, filter_In in Hin as [_ Hp].
    rewrite Hitems, Hp. reflexivity.
Qed.

Lemma boolean_setting_round_trip_witness :
  loadBooleanFromStorage SHOW_CAMERA true
    (saveToStorage SHOW_CAMERA (Boolean false) empty_storage) = false
  /\ forall other, other <> SHOW_CAMERA ->
       items (saveToStorage SHOW_CAMERA (Boolean false) empty_storage) !! other
       = items empty_storage !! other.
Proof.
  apply (proj1 (boolean_setting_round_trip SHOW_CAMERA false true empty_storage)).
  split; reflexivity.
Defined.

Lemma camera_switch_agrees_with_storage_witness :
  fst (toggles 3 true empty_storage) = (if Nat.even 3 then true else negb true)
  /\ (0 < 3 ->
      loadShowCamera (snd (toggles 3 true empty_storage))
      = fst (toggles 3 true empty_storage)).
Proof.
  apply (camera_switch_agrees_with_storage 3 true empty_storage).
  split; reflexivity.
Defined.


Lemma reset_removes_all_progress_witness :
  exists ls',
    resetAllProgress Scenarios.mixed_storage = Normal ls'
    /\ (forall key,
          items ls' !! key
          = if is_progress_key (Some key) || String.eqb key "gestureLog"
            then None else items Scenarios.mixed_storage !! key)
    /\ written ls' = written Scenarios.mixed_storage
    /\ forall categoryId,
         ProgressStorage.loadProgress categoryId ls' = (Normal None, ls').
Proof.
  apply (proj2 (reset_removes_all_progress Scenarios.mixed_storage)).
  reflexivity.
Defined.

Lemma announced_count_is_removed_witness :
  exists removed ls',
    resetAllProgress Scenarios.mixed_storage = Normal ls'
    /\ progressCount Scenarios.mixed_storage = length removed
    /\ NoDup removed
    /\ (forall key, key ∈ removed
                    <-> is_progress_key (Some key) = true
                        /\ is_Some (items Scenarios.mixed_storage !! key))
    /\ forall key, key ∈ removed -> items ls' !! key = None.
Proof.
  apply (announced_count_is_removed Scenarios.mixed_storage).
  reflexivity.
Defined.

End SettingsFacts.
